(** * proxy_spray: a shallow embedding of [proxy_spray.py]

    The script loads proxies, targets and headers, then probes every
    scheme-compatible (proxy, target) pair through a process pool of fixed
    size.  This file embeds the functions of the script and the main loops
    as Rocq definitions and proves the properties claimed about them.

    Modelling conventions.
    - A Python [str] is a [list ascii]: the model covers the strings whose
      code points are below 256.
    - The regular expressions of the script are kept as syntax trees and
      run by a small backtracking matcher with the semantics of Python's
      [re] (greedy repetition, leftmost match, capture groups).
    - A raised exception is a value of [exn]; a function that can raise
      returns [result].
    - [ipaddress], [requests] and the process pool are external to the
      script: the first is modelled after the CPython library, the other
      two are inputs (the outcome of each HTTP transaction, and the
      instants at which an asynchronous result becomes ready).
    - Library behaviour is that of CPython 3.9.5 and later ([re.split]
      splits on empty matches, [ipaddress] refuses leading zeros). *)

From Stdlib Require Import Ascii String DecimalString.
From Stdlib Require Import List ZArith Lia Bool Arith PeanoNat.
From Stdlib Require Import Permutation.
Import ListNotations.

Set Implicit Arguments.

(* ================================================================== *)
(** * Strings *)
(* ================================================================== *)

Definition pystr := list ascii.

(** String literals. *)
Definition lit (s : string) : pystr := list_ascii_of_string s.

Definition pystr_eqb (a b : pystr) : bool :=
  if list_eq_dec ascii_dec a b then true else false.

(** [s.startswith(p)] *)
Fixpoint startswith (p s : pystr) : bool :=
  match p, s with
  | [], _ => true
  | c :: p', d :: s' => Ascii.eqb c d && startswith p' s'
  | _ :: _, [] => false
  end.

Definition newline : ascii := "010"%char.

(** [c.isspace()] for a code point below 256; also what [\s] matches. *)
Definition is_space (c : ascii) : bool :=
  let n := nat_of_ascii c in
  ((9 <=? n) && (n <=? 13)) || ((28 <=? n) && (n <=? 32))
  || (n =? 133) || (n =? 160).

(** ASCII decimal digit: [[0-9]], and [isascii() and isdigit()]. *)
Definition is_digit (c : ascii) : bool :=
  let n := nat_of_ascii c in (48 <=? n) && (n <=? 57).

Definition is_upper (c : ascii) : bool :=
  let n := nat_of_ascii c in (65 <=? n) && (n <=? 90).

(** Case folding of an ASCII letter, as [re.I] compares the characters
    of a string of code points below 256.  (Beyond that range [re.I] also
    lets [s] match U+017F and [k] match U+212A; strings that hold such
    characters are outside the model.) *)
Definition to_lower (c : ascii) : ascii :=
  if is_upper c then ascii_of_nat (nat_of_ascii c + 32) else c.

Fixpoint lstrip (s : pystr) : pystr :=
  match s with
  | c :: s' => if is_space c then lstrip s' else s
  | [] => []
  end.

(** [s.strip()] *)
Definition strip (s : pystr) : pystr := rev (lstrip (rev (lstrip s))).

(** [s.split(sep)] for a one-character separator. *)
Fixpoint split_on (sep : ascii) (s : pystr) : list pystr :=
  match s with
  | [] => [[]]
  | c :: s' =>
      if Ascii.eqb c sep then [] :: split_on sep s'
      else match split_on sep s' with
           | w :: ws => (c :: w) :: ws
           | [] => [[c]]
           end
  end.

(** The lines a text file yields when iterated: each keeps its final
    newline; the last one has none when the file does not end in one. *)
Fixpoint file_lines (content : pystr) : list pystr :=
  match content with
  | [] => []
  | c :: rest =>
      if Ascii.eqb c newline then [c] :: file_lines rest
      else match file_lines rest with
           | l :: ls => (c :: l) :: ls
           | [] => [[c]]
           end
  end.

(* ================================================================== *)
(** * Exceptions *)
(* ================================================================== *)

(** The exceptions the script meets, all subclasses of [Exception]. *)
Inductive exn : Type :=
| AssertionError (msg : pystr)
| ValueError (msg : pystr)        (* AddressValueError, NetmaskValueError *)
| TypeError (msg : pystr)
| AttributeError (msg : pystr)
| RequestException (msg : pystr)  (* anything [requests.get] raises *)
| PlainException (msg : pystr).   (* [Exception(msg)] *)

Inductive result (A : Type) : Type :=
| Ok (a : A)
| Err (e : exn).
Arguments Ok {A} a.
Arguments Err {A} e.

Definition bind {A B} (r : result A) (f : A -> result B) : result B :=
  match r with
  | Ok a => f a
  | Err e => Err e
  end.

Notation "x <- r ;; k" := (bind r (fun x => k))
  (at level 61, r at next level, right associativity).

(* ================================================================== *)
(** * Regular expressions *)
(* ================================================================== *)

Module Re.

(** Character classes. *)
Inductive cls : Type :=
| CAny                 (* [.]: anything but a newline *)
| CDigit               (* [[0-9]] *)
| CSpace               (* [\s] *)
| CLit (c : ascii).    (* a literal character *)

(** The fragment of [re] syntax the script uses.  Every repetition in the
    script's patterns is over one character class ([s?], [.+], [\s{1,}],
    [[0-9]{,2}]). *)
Inductive re : Type :=
| Lit (s : pystr)                             (* a literal string *)
| Rep (c : cls) (lo : nat) (hi : option nat)  (* [c{lo,hi}], greedy *)
| Bol                                         (* [^] *)
| Eol                                         (* [$] *)
| Seq (r1 r2 : re)
| Grp (n : nat) (r : re).                     (* capture group number [n] *)

Definition Plus (c : cls) : re := Rep c 1 None.        (* [c+], [c{1,}] *)
Definition Opt (c : cls) : re := Rep c 0 (Some 1).     (* [c?] *)

(** [icase] is the flag [re.I]. *)
Definition cls_match (icase : bool) (c : cls) (a : ascii) : bool :=
  match c with
  | CAny => negb (Ascii.eqb a newline)
  | CDigit => is_digit a
  | CSpace => is_space a
  | CLit l => if icase then Ascii.eqb (to_lower l) (to_lower a)
              else Ascii.eqb l a
  end.

(** A matcher state: the position in the subject, the text from that
    position on, and the groups captured so far (most recent first). *)
Record mstate : Type := MState {
  mpos : nat;
  mrest : pystr;
  mgrp : list (nat * pystr)
}.

(** Consume the literal [l] from [(pos, rest)]. *)
Fixpoint lit_end (icase : bool) (l : pystr) (pos : nat) (rest : pystr)
    : option (nat * pystr) :=
  match l, rest with
  | [], _ => Some (pos, rest)
  | c :: l', a :: rest' =>
      if cls_match icase (CLit c) a then lit_end icase l' (S pos) rest'
      else None
  | _ :: _, [] => None
  end.

Definition can_take (hi : option nat) : bool :=
  match hi with
  | Some 0 => false
  | _ => true
  end.

(** The ends of [c{lo,hi}] from [(pos, rest)], longest first. *)
Fixpoint rep_ends (icase : bool) (c : cls) (lo : nat) (hi : option nat)
    (pos : nat) (rest : pystr) : list (nat * pystr) :=
  let here := if lo =? 0 then [(pos, rest)] else [] in
  match rest with
  | a :: rest' =>
      if can_take hi && cls_match icase c a
      then rep_ends icase c (pred lo) (option_map pred hi) (S pos) rest'
             ++ here
      else here
  | [] => here
  end.

(** [$] without [re.M]: at the end, or just before a final newline. *)
Definition at_end (rest : pystr) : bool :=
  match rest with
  | [] => true
  | [c] => Ascii.eqb c newline
  | _ => false
  end.

(** All the ways [r] matches from [st], in the order a backtracking
    matcher tries them; the matcher takes the first. *)
Fixpoint matches (icase : bool) (r : re) (st : mstate) : list mstate :=
  match r with
  | Lit l =>
      match lit_end icase l (mpos st) (mrest st) with
      | Some e => [MState (fst e) (snd e) (mgrp st)]
      | None => []
      end
  | Rep c lo hi =>
      map (fun e => MState (fst e) (snd e) (mgrp st))
          (rep_ends icase c lo hi (mpos st) (mrest st))
  | Bol => if mpos st =? 0 then [st] else []
  | Eol => if at_end (mrest st) then [st] else []
  | Seq r1 r2 => flat_map (matches icase r2) (matches icase r1 st)
  | Grp n r =>
      map (fun st' =>
             MState (mpos st') (mrest st')
                    ((n, firstn (mpos st' - mpos st) (mrest st)) :: mgrp st'))
          (matches icase r st)
  end.

(** A match object: [m.start()], [m.end()], the text after the match,
    and the captured groups. *)
Record rmatch : Type := RMatch {
  m_start : nat;
  m_end : nat;
  m_after : pystr;
  m_groups : list (nat * pystr)
}.

(** [m.group(n)]; [None] when the group did not take part. *)
Fixpoint group (n : nat) (gs : list (nat * pystr)) : option pystr :=
  match gs with
  | [] => None
  | (k, v) :: gs' => if k =? n then Some v else group n gs'
  end.

(** The first match that starts at [(pos, rest)].  With [must_advance]
    an empty match is refused (used by [split] after an empty match). *)
Definition match_at (icase : bool) (r : re) (must_advance : bool)
    (pos : nat) (rest : pystr) : option rmatch :=
  let ok st' := negb (must_advance && (mpos st' =? pos)) in
  match filter ok (matches icase r (MState pos rest [])) with
  | st' :: _ => Some (RMatch pos (mpos st') (mrest st') (mgrp st'))
  | [] => None
  end.

(** Leftmost match at or after [(pos, rest)]. *)
Fixpoint search_from (icase : bool) (r : re) (must_advance : bool)
    (pos : nat) (rest : pystr) : option rmatch :=
  match match_at icase r must_advance pos rest with
  | Some m => Some m
  | None =>
      match rest with
      | _ :: rest' => search_from icase r false (S pos) rest'
      | [] => None
      end
  end.

(** [re.search(r, s)], with [re.I] when [icase]. *)
Definition search (icase : bool) (r : re) (s : pystr) : option rmatch :=
  search_from icase r false 0 s.

(** [m.groups()] for a pattern with [n] groups. *)
Definition groups (n : nat) (m : rmatch) : list (option pystr) :=
  map (fun k => group k (m_groups m)) (seq 1 n).

(** [re.split(r, s)] for a pattern with [ngroups] groups: the text
    between the matches, with the groups of every match in between. *)
Fixpoint split_from (fuel : nat) (icase : bool) (r : re) (ngroups : nat)
    (must_advance : bool) (pos : nat) (rest : pystr)
    : list (option pystr) :=
  match fuel with
  | 0 => [Some rest]
  | S fuel' =>
      match search_from icase r must_advance pos rest with
      | None => [Some rest]
      | Some m =>
          Some (firstn (m_start m - pos) rest)
            :: groups ngroups m
            ++ split_from fuel' icase r ngroups (m_end m =? m_start m)
                 (m_end m) (m_after m)
      end
  end.

Definition split (icase : bool) (r : re) (ngroups : nat) (s : pystr)
    : list (option pystr) :=
  split_from (S (S (2 * length s))) icase r ngroups false 0 s.

Infix "+++" := Seq (at level 60, right associativity).

End Re.

Import Re.

(* ================================================================== *)
(** * The [ipaddress] module *)
(* ================================================================== *)

(** [ipaddress.IPv4Address], [ipaddress.IPv4Network] and their string
    forms, after the CPython library.  An address is its 32-bit value. *)
Module IPv4.

Definition digit_val (c : ascii) : Z := (Z.of_nat (nat_of_ascii c) - 48)%Z.

(** [int(s)] for a string of decimal digits. *)
Definition int_of_digits (s : pystr) : Z :=
  fold_left (fun acc c => (10 * acc + digit_val c)%Z) s 0%Z.

(** [str.isascii() and str.isdigit()] *)
Definition all_digits (s : pystr) : bool :=
  match s with
  | [] => false
  | _ => forallb is_digit s
  end.

(** [_parse_octet]: one to three digits, no leading zero (as CPython has
    it since 3.9.5), at most 255. *)
Definition parse_octet (o : pystr) : option Z :=
  if negb (all_digits o) then None
  else if 3 <? length o then None
  else if negb (pystr_eqb o (lit "0")) && startswith (lit "0") o then None
  else if (255 <? int_of_digits o)%Z then None
  else Some (int_of_digits o).

(** [_ip_int_from_string]: exactly four octets separated by dots. *)
Definition ip_int_from_string (s : pystr) : option Z :=
  match split_on "."%char s with
  | [a; b; c; d] =>
      match parse_octet a, parse_octet b, parse_octet c, parse_octet d with
      | Some x, Some y, Some z, Some w =>
          Some (((x * 256 + y) * 256 + z) * 256 + w)%Z
      | _, _, _, _ => None
      end
  | _ => None
  end.

(** [ipaddress.IPv4Address(s)] for a string [s]. *)
Definition IPv4Address (s : pystr) : result Z :=
  if existsb (Ascii.eqb "/"%char) s
  then Err (ValueError (lit "AddressValueError: unexpected '/'"))
  else match ip_int_from_string s with
       | Some a => Ok a
       | None => Err (ValueError (lit "AddressValueError"))
       end.

Definition str_of_nat (n : nat) : pystr :=
  lit (NilEmpty.string_of_uint (Nat.to_uint n)).

(** [str(address)]: the dotted quad. *)
Definition str_of_address (a : Z) : pystr :=
  let byte k := str_of_nat (Z.to_nat (Z.land (Z.shiftr a k) 255)) in
  byte 24%Z ++ lit "." ++ byte 16%Z ++ lit "." ++ byte 8%Z ++ lit "."
    ++ byte 0%Z.

Record network : Type := Network {
  network_address : Z;
  prefixlen : Z
}.

Definition ALL_ONES : Z := (2 ^ 32 - 1)%Z.

Definition netmask_of (p : Z) : Z :=
  Z.lxor ALL_ONES (Z.shiftr ALL_ONES p).

(** [_count_righthand_zero_bits(n, 32)] *)
Fixpoint count_zero_bits (fuel : nat) (n : Z) : Z :=
  match fuel with
  | 0 => 0%Z
  | S f => if Z.testbit n 0 then 0%Z
           else (1 + count_zero_bits f (Z.shiftr n 1))%Z
  end.

(** [_prefix_from_ip_int]: the prefix length of a netmask [1..10..0]. *)
Definition prefix_from_ip_int (ip : Z) : option Z :=
  let trailing := count_zero_bits 32 ip in
  let p := (32 - trailing)%Z in
  if (Z.shiftr ip trailing =? Z.shiftl 1 p - 1)%Z then Some p else None.

(** [_prefix_from_prefix_string] *)
Definition prefix_from_prefix_string (s : pystr) : option Z :=
  if all_digits s
  then let p := int_of_digits s in
       if (p <=? 32)%Z then Some p else None
  else None.

(** [_prefix_from_ip_string]: a dotted netmask, or else a hostmask. *)
Definition prefix_from_ip_string (s : pystr) : option Z :=
  match ip_int_from_string s with
  | None => None
  | Some ip =>
      match prefix_from_ip_int ip with
      | Some p => Some p
      | None => prefix_from_ip_int (Z.lxor ip ALL_ONES)
      end
  end.

(** [_make_netmask] for a string argument. *)
Definition make_netmask (s : pystr) : option Z :=
  match prefix_from_prefix_string s with
  | Some p => Some p
  | None => prefix_from_ip_string s
  end.

(** [ipaddress.IPv4Network(s, strict=False)] for a string [s]: host bits
    are masked off silently. *)
Definition IPv4Network (s : pystr) : result network :=
  match split_on "/"%char s with
  | [addr] =>
      a <- IPv4Address addr ;; Ok (Network a 32)
  | [addr; mask] =>
      a <- IPv4Address addr ;;
      match make_netmask mask with
      | Some p => Ok (Network (Z.land a (netmask_of p)) p)
      | None => Err (ValueError (lit "NetmaskValueError"))
      end
  | _ => Err (ValueError (lit "AddressValueError: only one '/' permitted"))
  end.

(** Iterating a network: every address from the network address to the
    broadcast address, both included. *)
Definition addresses (n : network) : list Z :=
  map (fun i => (network_address n + Z.of_nat i)%Z)
      (seq 0 (Z.to_nat (2 ^ (32 - prefixlen n)))).

End IPv4.

(* ================================================================== *)
(** * The functions of the script *)
(* ================================================================== *)

(** The parsed command line ([args]). *)
Record Args : Type := MkArgs {
  display_failures : bool;
  process_count : Z;
  no_assume_https : bool;
  no_assume_http : bool
}.

(** ['^(https?://)(.+)'] *)
Definition proxy_re : re :=
  Bol +++ Grp 1 (Lit (lit "http") +++ Opt (CLit "s") +++ Lit (lit "://"))
      +++ Grp 2 (Plus CAny).

Definition parseProxy (s : pystr) : result (pystr * pystr) :=
  match search true proxy_re s with
  | None =>
      Err (AssertionError (lit "Invalid proxy/proxy file supplied: " ++ s))
  | Some m =>
      match nth 0 (groups 2 m) None with
      | Some g => Ok (hd [] (split_on ":"%char g), s)
      | None => Err (AttributeError (lit "split"))
      end
  end.

Section WithArgs.

Variable args : Args.

Definition assumeIPTarget (t : Z) : list pystr :=
  let output := [] in
  let output :=
    if negb (no_assume_http args)
    then output ++ [lit "http://" ++ IPv4.str_of_address t] else output in
  let output :=
    if negb (no_assume_https args)
    then output ++ [lit "https://" ++ IPv4.str_of_address t] else output in
  output.

Definition assumeURLTarget (t : pystr) : list pystr :=
  let output := [] in
  let output :=
    if negb (no_assume_http args)
    then if negb (startswith (lit "http") t)
            && negb (startswith (lit "https") t)
         then output ++ [lit "http://" ++ t] else output
    else output in
  let output :=
    if negb (no_assume_https args)
    then if negb (startswith (lit "https") t)
            && negb (startswith (lit "http") t)
         then output ++ [lit "https://" ++ t] else output
    else output in
  output.

(** ['/[0-9]{,2}$'] *)
Definition cidr_re : re :=
  Lit (lit "/") +++ Rep CDigit 0 (Some 2) +++ Eol.

(** What [t] is bound to in [parseTarget] once the parsing attempts of its
    first statement are over. *)
Inductive target : Type :=
| TStr (s : pystr)
| TAddress (a : Z)
| TNetwork (n : IPv4.network).

Definition is_cidr (t : pystr) : bool :=
  match search false cidr_re t with
  | Some _ => true
  | None => false
  end.

Definition parseTarget (t : pystr) : result (list pystr) :=
  t' <- (if is_cidr t
         then n <- IPv4.IPv4Network t ;; Ok (TNetwork n)
         else match IPv4.IPv4Address t with
              | Ok a => Ok (TAddress a)
              | Err _ => Ok (TStr t)
              end) ;;
  match t' with
  | TNetwork n => Ok (flat_map assumeIPTarget (IPv4.addresses n))
  | TAddress a => Ok (assumeIPTarget a)
  | TStr s =>
      match assumeURLTarget s with
      | [] => Ok [s]
      | nt => Ok nt
      end
  end.

End WithArgs.

(** ['^(.+):\s{1,}(.+)$'] *)
Definition header_re : re :=
  Bol +++ Grp 1 (Plus CAny) +++ Lit (lit ":") +++ Rep CSpace 1 None
      +++ Grp 2 (Plus CAny) +++ Eol.

(** The truth value of an element of [re.split]'s result. *)
Definition truthy (v : option pystr) : bool :=
  match v with
  | Some (_ :: _) => true
  | _ => false
  end.

Definition parseHeader (h : pystr) : result (pystr * pystr) :=
  let split := filter truthy (Re.split false header_re 2 h) in
  match split with
  | [Some k; Some v] => Ok (k, v)
  | _ => Err (AssertionError (lit "Invalid header supplied: " ++ h))
  end.

(** ['^(https?)'] *)
Definition scheme_re : re :=
  Bol +++ Grp 1 (Lit (lit "http") +++ Opt (CLit "s")).

Definition option_pystr_eqb (a b : option pystr) : bool :=
  match a, b with
  | Some x, Some y => pystr_eqb x y
  | None, None => true
  | _, _ => false
  end.

Definition compareSchemes (v0 v1 : pystr) : bool :=
  match search false scheme_re v0, search false scheme_re v1 with
  | Some rv0, Some rv1 =>
      option_pystr_eqb (nth 0 (groups 1 rv0) None) (nth 0 (groups 1 rv1) None)
  | _, _ => false
  end.

(* ================================================================== *)
(** * Proxies, results and the loading loops *)
(* ================================================================== *)

(** The value a proxy dict holds under its scheme key: the proxy URL, or
    (see [add_literal_proxy]) another one-entry dict [{k: url}]. *)
Inductive pvalue : Type :=
| PAddr (url : pystr)
| PDict (k : pystr) (url : pystr).

(** A proxy as the script builds it: the one-entry dict [{scheme: value}]. *)
Record Proxy : Type := MkProxy {
  p_scheme : pystr;
  p_value : pvalue
}.

Definition pvalue_eqb (a b : pvalue) : bool :=
  match a, b with
  | PAddr x, PAddr y => pystr_eqb x y
  | PDict k x, PDict l y => pystr_eqb k l && pystr_eqb x y
  | _, _ => false
  end.

(** [==] on two such dicts. *)
Definition Proxy_eqb (a b : Proxy) : bool :=
  pystr_eqb (p_scheme a) (p_scheme b) && pvalue_eqb (p_value a) (p_value b).

(** [x in l] *)
Definition py_in (x : Proxy) (l : list Proxy) : bool :=
  existsb (Proxy_eqb x) l.

(** A loop body that can raise, folded over a list. *)
Fixpoint foldM {A B : Type} (f : B -> A -> result B) (l : list A) (b : B)
    : result B :=
  match l with
  | [] => Ok b
  | x :: l' => b' <- f b x ;; foldM f l' b'
  end.

(** A header dict: keys in insertion order. *)
Definition Headers := list (pystr * pystr).

(** [headers[key] = value] *)
Fixpoint dict_set (key value : pystr) (d : Headers) : Headers :=
  match d with
  | [] => [(key, value)]
  | (k, v) :: d' =>
      if pystr_eqb k key then (k, value) :: d'
      else (k, v) :: dict_set key value d'
  end.

Section Loading.

(** The file system as [isFile] and [open] see it: the text of the file a
    name designates, if any. *)
Variable fs : pystr -> option pystr.

Variable args : Args.

(** Body of the loop over the lines of a proxy file. *)
Definition add_file_proxy (proxies : list Proxy) (line : pystr)
    : result (list Proxy) :=
  sp <- parseProxy (strip line) ;;
  let proxy := MkProxy (fst sp) (PAddr (snd sp)) in
  if py_in proxy proxies then Ok proxies
  else Ok (proxies ++ [proxy]).

(** The branch for a proxy given on the command line: [proxy] is rebound
    to the dict before the membership test, and wrapped once more when
    appended. *)
Definition add_literal_proxy (proxies : list Proxy) (p : pystr)
    : result (list Proxy) :=
  sp <- parseProxy p ;;
  let scheme := fst sp in
  let proxy := MkProxy scheme (PAddr (snd sp)) in
  if py_in proxy proxies then Ok proxies
  else Ok (proxies ++ [MkProxy scheme (PDict (p_scheme proxy) (snd sp))]).

Definition load_proxies (proxy_urls : list pystr) : result (list Proxy) :=
  foldM (fun proxies p =>
           match fs p with
           | Some content => foldM add_file_proxy (file_lines content) proxies
           | None => add_literal_proxy proxies p
           end)
        proxy_urls [].

Definition load_targets (ts : list pystr) : result (list pystr) :=
  foldM (fun targets t =>
           match fs t with
           | Some content =>
               foldM (fun targets target =>
                        new <- parseTarget args (strip target) ;;
                        Ok (targets ++ new))
                     (file_lines content) targets
           | None => new <- parseTarget args t ;; Ok (targets ++ new)
           end)
        ts [].

Definition load_headers (http_headers : list pystr) : result Headers :=
  foldM (fun headers h =>
           match fs h with
           | Some content =>
               foldM (fun headers header =>
                        kv <- parseHeader header ;;
                        Ok (dict_set (fst kv) (snd kv) headers))
                     (file_lines content) headers
           | None =>
               kv <- parseHeader h ;;
               Ok (dict_set (fst kv) (snd kv) headers)
           end)
        http_headers [].

End Loading.

(* ================================================================== *)
(** * The probe *)
(* ================================================================== *)

Record Response : Type := MkResponse {
  status_code : Z;
  content : pystr
}.

(** How a call of [requests.get] ends. *)
Inductive GetOutcome : Type :=
| Returns (resp : Response)
| Raises (e : exn).

(** [requests.get(url, proxies, verify, allow_redirects, headers)] *)
Definition requests_get : Type :=
  pystr -> Proxy -> bool -> bool -> Headers -> GetOutcome.

(** The tuple [genericRequestsCallback] returns. *)
Record ResultRecord : Type := MkResult {
  r_success : bool;
  r_proxy : Proxy;
  r_target : pystr;
  r_response : option Response;
  r_error : option exn
}.

Definition genericRequestsCallback (get : requests_get)
    (proxy : Proxy) (target : pystr) (verify allow_redirects : bool)
    (headers : option Headers) : ResultRecord :=
  let headers := match headers with Some h => h | None => [] end in
  match get target proxy verify allow_redirects headers with
  | Returns resp =>
      if (status_code resp =? 403)%Z
      then MkResult false proxy target None
             (Some (PlainException (lit "403 Forbidden Response")))
      else MkResult true proxy target (Some resp) None
  | Raises e => MkResult false proxy target None (Some e)
  end.

(** [printResult]: the line printed, if any. *)
Definition printResult (args : Args) (out : ResultRecord)
    : result (option pystr) :=
  match p_value (r_proxy out) with
  | PAddr url =>
      let s := r_target out ++ lit " >--[VIA]--> " ++ url in
      if r_success out then Ok (Some (lit "SUCCESS: " ++ s))
      else if display_failures args then Ok (Some (lit "FAILURE: " ++ s))
      else Ok None
  | PDict _ _ =>
      Err (TypeError (lit "can only concatenate str (not dict) to str"))
  end.

(** [compareSchemes(list(proxy.values())[0], target)]: [re.search] raises
    when its subject is not a string. *)
Definition compareSchemes_of (proxy : Proxy) (target : pystr) : result bool :=
  match p_value proxy with
  | PAddr url => Ok (compareSchemes url target)
  | PDict _ _ => Err (TypeError (lit "expected string or bytes-like object"))
  end.

(* ================================================================== *)
(** * The dispatch loop *)
(* ================================================================== *)

(** An [AsyncResult] as returned by [pool.apply_async]: [w_id] stands for
    the identity of the object, the rest is the call it wraps. *)
Record WorkItem : Type := MkWork {
  w_id : nat;
  w_proxy : Proxy;
  w_target : pystr
}.

(** Where control is in the main logic after the loading loops. *)
Inductive Loc : Type :=
| ForProxy                                (* [for proxy in proxies] *)
| ForTarget (p : Proxy)                   (* [for target in targets] *)
| WhileFull (p : Proxy) (t : pystr)       (* [while len(results) == pc] *)
| Scan (p : Proxy) (t : pystr)            (* collect and delete the ready *)
| BreakOrSleep (p : Proxy) (t : pystr)    (* [break], or [sleep(.5)] *)
| Submit (p : Proxy) (t : pystr)          (* [apply_async], [sleep(.25)] *)
| Drain                                   (* [while results] *)
| Done
| Raised (e : exn).

Record DState : Type := MkState {
  loc : Loc;
  ps : list Proxy;            (* proxies the outer loop has yet to visit *)
  ts : list pystr;            (* targets the inner loop has yet to visit *)
  results : list WorkItem;    (* the list [results] *)
  next_id : nat;              (* identity of the next [AsyncResult] *)
  clock : nat;                (* quarter seconds slept so far *)
  submitted : list WorkItem;  (* every [apply_async] call, oldest first *)
  stdout : list pystr         (* the lines printed, oldest first *)
}.

(** [results.index(res)] then [del]: drop the first element that is the
    object [i]; [index] raises when there is none. *)
Fixpoint del_first (i : nat) (rs : list WorkItem) : option (list WorkItem) :=
  match rs with
  | [] => None
  | w :: rs' =>
      if w_id w =? i then Some rs'
      else option_map (cons w) (del_first i rs')
  end.

(** [for res in to_del: del(results[results.index(res)])] *)
Fixpoint del_all (to_del rs : list WorkItem) : option (list WorkItem) :=
  match to_del with
  | [] => Some rs
  | w :: to_del' =>
      match del_first (w_id w) rs with
      | Some rs' => del_all to_del' rs'
      | None => None
      end
  end.

Section Dispatch.

Variable args : Args.

(** [ready t i]: the asynchronous result [i] is ready after [t] quarter
    seconds of sleep; [http i]: how the network answers probe [i].  The
    loops sleep between two calls of [ready()] on the same result, so the
    calls are made at different values of the clock and any sequence of
    answers is given by some [ready]. *)
Variable ready : nat -> nat -> bool.
Variable http : nat -> requests_get.

Variable targets : list pystr.
Variable headers : Headers.

(** [res.get()] *)
Definition get_result (w : WorkItem) : ResultRecord :=
  genericRequestsCallback (http (w_id w)) (w_proxy w) (w_target w)
    false false (Some headers).

(** [printResult(res.get())] *)
Definition report (w : WorkItem) (out : list pystr) : result (list pystr) :=
  line <- printResult args (get_result w) ;;
  match line with
  | Some l => Ok (out ++ [l])
  | None => Ok out
  end.

(** The [for res in results] pass of the polling loop: the results found
    ready, in order, and the output after reporting each of them. *)
Fixpoint scan (now : nat) (rs : list WorkItem) (out : list pystr)
    : result (list WorkItem * list pystr) :=
  match rs with
  | [] => Ok ([], out)
  | w :: rs' =>
      if ready now (w_id w)
      then out' <- report w out ;;
           r <- scan now rs' out' ;;
           Ok (w :: fst r, snd r)
      else scan now rs' out
  end.

Definition at_loc (l : Loc) (st : DState) : DState :=
  MkState l (ps st) (ts st) (results st) (next_id st) (clock st)
          (submitted st) (stdout st).

Definition raise (e : exn) (st : DState) : DState := at_loc (Raised e) st.

Definition full (st : DState) : bool :=
  (Z.of_nat (length (results st)) =? process_count args)%Z.

(** One step of the main logic. *)
Definition step (st : DState) : DState :=
  match loc st with
  | ForProxy =>
      match ps st with
      | [] => at_loc Drain st
      | p :: ps' =>
          MkState (ForTarget p) ps' targets (results st) (next_id st)
                  (clock st) (submitted st) (stdout st)
      end
  | ForTarget p =>
      match ts st with
      | [] => at_loc ForProxy st
      | t :: ts' =>
          let st' := MkState (ForTarget p) (ps st) ts' (results st)
                             (next_id st) (clock st) (submitted st)
                             (stdout st) in
          match compareSchemes_of p t with
          | Err e => raise e st'
          | Ok false => st'                       (* [continue] *)
          | Ok true => at_loc (WhileFull p t) st'
          end
      end
  | WhileFull p t =>
      if full st then at_loc (Scan p t) st else at_loc (Submit p t) st
  | Scan p t =>
      match scan (clock st) (results st) (stdout st) with
      | Err e => raise e st
      | Ok (to_del, out) =>
          match del_all to_del (results st) with
          | None => raise (ValueError (lit "x not in list")) st
          | Some rs =>
              MkState (BreakOrSleep p t) (ps st) (ts st) rs (next_id st)
                      (clock st) (submitted st) out
          end
      end
  | BreakOrSleep p t =>
      if (Z.of_nat (length (results st)) <? process_count args)%Z
      then at_loc (Submit p t) st
      else MkState (WhileFull p t) (ps st) (ts st) (results st)
                   (next_id st) (clock st + 2) (submitted st) (stdout st)
  | Submit p t =>
      let w := MkWork (next_id st) p t in
      MkState (ForTarget p) (ps st) (ts st) (results st ++ [w])
              (S (next_id st)) (clock st + 1) (submitted st ++ [w])
              (stdout st)
  | Drain =>
      match results st with
      | [] => at_loc Done st
      | result :: _ =>
          let after :=
            if ready (clock st) (w_id result)
            then out <- report result (stdout st) ;;
                 match del_first (w_id result) (results st) with
                 | Some rs => Ok (rs, out)
                 | None => Err (ValueError (lit "x not in list"))
                 end
            else Ok (results st, stdout st) in
          match after with
          | Err e => raise e st
          | Ok (rs, out) =>
              MkState Drain (ps st) (ts st) rs (next_id st)
                      (match rs with [] => clock st | _ => clock st + 2 end)
                      (submitted st) out
          end
      end
  | Done => st
  | Raised _ => st
  end.

(** The state when the request phase begins: [Pool(n)] raises for a
    process count below one. *)
Definition init (proxies : list Proxy) : DState :=
  let st := MkState ForProxy proxies [] [] 0 0 [] [] in
  if (process_count args <? 1)%Z
  then raise (ValueError (lit "Number of processes must be at least 1")) st
  else st.

Fixpoint run (n : nat) (st : DState) : DState :=
  match n with
  | 0 => st
  | S n' => run n' (step st)
  end.

End Dispatch.

(* ================================================================== *)
(** * Specifications *)
(* ================================================================== *)

(** What it means for [r] to match from [st] up to [st'], stated on the
    text consumed rather than by running the matcher. *)
Fixpoint Matches (icase : bool) (r : re) (st st' : mstate) : Prop :=
  match r with
  | Lit l =>
      exists w, mrest st = w ++ mrest st'
                /\ Forall2 (fun c a => cls_match icase (CLit c) a = true) l w
                /\ mpos st' = mpos st + length w /\ mgrp st' = mgrp st
  | Rep c lo hi =>
      exists w, mrest st = w ++ mrest st'
                /\ Forall (fun a => cls_match icase c a = true) w
                /\ lo <= length w
                /\ (forall h, hi = Some h -> length w <= h)
                /\ mpos st' = mpos st + length w /\ mgrp st' = mgrp st
  | Bol => mpos st = 0 /\ st' = st
  | Eol => at_end (mrest st) = true /\ st' = st
  | Seq r1 r2 => exists mid, Matches icase r1 st mid /\ Matches icase r2 mid st'
  | Grp n r =>
      exists st1, Matches icase r st st1
        /\ st' = MState (mpos st1) (mrest st1)
                    ((n, firstn (mpos st1 - mpos st) (mrest st)) :: mgrp st1)
  end.

(** Following the spec: the leading scheme token of a string, [https] or
    else [http], when the string begins with one. *)
Definition leading_scheme (v : pystr) : option pystr :=
  if startswith (lit "https") v then Some (lit "https")
  else if startswith (lit "http") v then Some (lit "http")
  else None.

(** A string that ends with a slash, at most two decimal digits and
    possibly one final newline. *)
Definition cidr_like (t : pystr) : Prop :=
  exists pre d nl,
    t = pre ++ lit "/" ++ d ++ nl
    /\ forallb is_digit d = true /\ length d <= 2
    /\ (nl = [] \/ nl = [newline]).

(** Following the spec: a string with a trailing [/0] to [/32], that is
    one that ends with a slash and the decimal digits of a prefix length
    between 0 and 32. *)
Definition ends_with_prefix_length (t : pystr) : Prop :=
  exists pre d,
    t = pre ++ lit "/" ++ d
    /\ IPv4.all_digits d = true
    /\ (0 <= IPv4.int_of_digits d <= 32)%Z.

(** A well-formed proxy: the scheme key holds the proxy URL. *)
Definition flat (p : Proxy) : Prop := exists url, p_value p = PAddr url.

(** A proxy and a target are compatible when [compareSchemes] accepts
    the proxy's address and the target; a proxy whose value is not an
    address is compatible with nothing.  (On such a proxy the code does
    not answer: it raises, which [compareSchemes_of] and [step] keep; the
    pairs the spec counts for it are those of [compatible_pairs].) *)
Definition compatible (pt : Proxy * pystr) : bool :=
  match p_value (fst pt) with
  | PAddr url => compareSchemes url (snd pt)
  | PDict _ _ => false
  end.

(** Following the spec: the pairs to probe, one for each proxy and each
    target that are compatible, proxies outermost, both in list order. *)
Definition eligible (proxies : list Proxy) (targets : list pystr)
    : list (Proxy * pystr) :=
  filter compatible (list_prod proxies targets).

Definition pair_of (w : WorkItem) : Proxy * pystr := (w_proxy w, w_target w).

(** The pairs the loops have yet to submit from a given state. *)
Definition pending (targets : list pystr) (st : DState)
    : list (Proxy * pystr) :=
  let later := eligible (ps st) targets in
  let rest_of p := filter compatible (map (pair p) (ts st)) in
  match loc st with
  | ForProxy => later
  | ForTarget p => rest_of p ++ later
  | WhileFull p t | Scan p t | BreakOrSleep p t | Submit p t =>
      (p, t) :: rest_of p ++ later
  | Drain | Done | Raised _ => []
  end.

(** The proxy and target a location is working on. *)
Definition current (l : Loc) : option (Proxy * pystr) :=
  match l with
  | WhileFull p t | Scan p t | BreakOrSleep p t | Submit p t => Some (p, t)
  | _ => None
  end.

(** The window invariant: never more than [process_count] outstanding
    results, and strictly fewer when control is about to submit. *)
Definition within_window (args : Args) (st : DState) : Prop :=
  (Z.of_nat (length (results st)) <= process_count args)%Z
  /\ (forall p t, loc st = Submit p t ->
                  (Z.of_nat (length (results st)) < process_count args)%Z).

(** Every outstanding result wraps a well-formed proxy. *)
Definition results_flat (st : DState) : Prop :=
  Forall (fun w => flat (w_proxy w)) (results st).

(** What was submitted so far, then what is still to be submitted, make
    up the eligible pairs [E]; after an exception, what was submitted is
    a prefix of them. *)
Definition accounted (targets : list pystr) (E : list (Proxy * pystr))
    (st : DState) : Prop :=
  match loc st with
  | Raised _ => exists rest, map pair_of (submitted st) ++ rest = E
  | _ => map pair_of (submitted st) ++ pending targets st = E
  end.

Definition sound (targets : list pystr) (E : list (Proxy * pystr))
    (st : DState) : Prop :=
  results_flat st
  /\ (forall p t, current (loc st) = Some (p, t) -> flat p)
  /\ accounted targets E st.

(** A state from which no exception can come: every proxy still to be
    used is well formed. *)
Definition live (st : DState) : Prop :=
  results_flat st
  /\ Forall flat (ps st)
  /\ (forall p, loc st = ForTarget p -> flat p)
  /\ (forall p t, current (loc st) = Some (p, t) -> flat p)
  /\ (forall e, loc st <> Raised e).

(** Milestones of a run. *)
Definition submitting (p : Proxy) (t : pystr) (ps0 : list Proxy)
    (ts0 : list pystr) (s : DState) : Prop :=
  loc s = Submit p t /\ ps s = ps0 /\ ts s = ts0.

Definition at_for_proxy (ps0 : list Proxy) (s : DState) : Prop :=
  loc s = ForProxy /\ ps s = ps0.

Definition draining (s : DState) : Prop := loc s = Drain.

Definition drained_to (rs : list WorkItem) (s : DState) : Prop :=
  loc s = Drain /\ results s = rs.

Definition finished (s : DState) : Prop := loc s = Done /\ results s = [].

(** A proxy string as [parseProxy] wants it: [scheme] is [http] or
    [https] in any letter case, then [://], then at least one character,
    the first of which is not a newline. *)
Definition proxy_shape (s scheme : pystr) : Prop :=
  exists c rest,
    s = scheme ++ lit "://" ++ c :: rest
    /\ (map to_lower scheme = lit "http" \/ map to_lower scheme = lit "https")
    /\ c <> newline.

(** No colon of [s] is followed by a whitespace character. *)
Definition no_colon_space (s : pystr) : Prop :=
  forall a x c, s = a ++ ":"%char :: x :: c -> is_space x = false.

(** No newline in [s]: what [.] can match. *)
Definition one_line (s : pystr) : Prop :=
  Forall (fun a => a <> newline) s.

(** [d[key]]: the value a dict holds under [key], if it has the key. *)
Fixpoint dict_get (key : pystr) (d : Headers) : option pystr :=
  match d with
  | [] => None
  | (k, v) :: d' => if pystr_eqb k key then Some v else dict_get key d'
  end.

(** [d.keys()], in insertion order. *)
Definition dict_keys (d : Headers) : list pystr := map fst d.

(** The line a finished probe adds to the output: [SUCCESS] when the
    transaction ended with a status other than 403, [FAILURE] otherwise
    and only when failures are displayed. *)
Definition line_of (args : Args) (http : nat -> requests_get)
    (headers : Headers) (w : WorkItem) : list pystr :=
  match p_value (w_proxy w) with
  | PAddr url =>
      let s := w_target w ++ lit " >--[VIA]--> " ++ url in
      let failure :=
        if display_failures args then [lit "FAILURE: " ++ s] else [] in
      match http (w_id w) (w_target w) (w_proxy w) false false headers with
      | Returns resp =>
          if (status_code resp =? 403)%Z then failure
          else [lit "SUCCESS: " ++ s]
      | Raises _ => failure
      end
  | PDict _ _ => []
  end.

(** The work items of a list of pairs, numbered from [from] on in the
    order of submission. *)
Fixpoint numbered (from : nat) (l : list (Proxy * pystr)) : list WorkItem :=
  match l with
  | [] => []
  | (p, t) :: l' => MkWork from p t :: numbered (S from) l'
  end.

(** The bookkeeping of the loops: the results submitted carry the
    identities [0, 1, ...] in order, the outstanding ones are among them,
    and a quarter second at least was slept for each. *)
Definition booked (st : DState) : Prop :=
  map w_id (submitted st) = seq 0 (next_id st)
  /\ Forall (fun w => In w (submitted st)) (results st)
  /\ length (submitted st) <= clock st.

(** What was printed, with the lines of the outstanding results still to
    come, is what the submitted probes have to say, in some order. *)
Definition reported (args : Args) (http : nat -> requests_get)
    (headers : Headers) (st : DState) : Prop :=
  Permutation (stdout st ++ flat_map (line_of args http headers) (results st))
              (flat_map (line_of args http headers) (submitted st)).

(** The address of a proxy as the spec has it, whichever way the loader
    wrapped it: the URL the proxy was given as. *)
Definition address_of (p : Proxy) : pystr :=
  match p_value p with
  | PAddr url => url
  | PDict _ url => url
  end.

(** Following the spec: the pairs of the cross product whose proxy
    address and target have the same leading scheme. *)
Definition compatible_pairs (proxies : list Proxy) (targets : list pystr)
    : list (Proxy * pystr) :=
  filter (fun pt => compareSchemes (address_of (fst pt)) (snd pt))
         (list_prod proxies targets).

(* ================================================================== *)
(** * Strings and the matcher *)
(* ================================================================== *)

Lemma pystr_eqb_eq (a b : pystr) : pystr_eqb a b = true <-> a = b.
Proof.
  unfold pystr_eqb; destruct (list_eq_dec ascii_dec a b); split; congruence.
Qed.

Lemma mstate_eta (st : mstate) : MState (mpos st) (mrest st) (mgrp st) = st.
Proof. now destruct st. Qed.

Lemma app_same_length (A : Type) (w w' x y : list A) :
  length w = length w' -> w ++ x = w' ++ y -> w = w' /\ x = y.
Proof.
  revert w'; induction w as [|a w IH]; intros [|b w'] Hl He;
    simpl in *; try discriminate; auto.
  injection He as <- He. injection Hl as Hl.
  destruct (IH w' Hl He) as [-> ->]; auto.
Qed.

Lemma lit_end_spec icase l pos rest e :
  lit_end icase l pos rest = Some e <->
  exists w, rest = w ++ snd e
            /\ Forall2 (fun c a => cls_match icase (CLit c) a = true) l w
            /\ fst e = pos + length w.
Proof.
  revert pos rest; induction l as [|c l IH]; intros pos rest; cbn [lit_end].
  - split.
    + intros [= <-]. exists []. simpl. repeat split; auto.
    + intros (w & -> & HF & Hp). inversion HF; subst. simpl in *.
      destruct e; simpl in *; subst. now rewrite Nat.add_0_r.
  - destruct rest as [|a rest].
    + split; [discriminate|].
      intros (w & Hw & HF & _). inversion HF; subst. discriminate.
    + destruct (cls_match icase (CLit c) a) eqn:E.
      * rewrite IH. split.
        -- intros (w & -> & HF & Hp). exists (a :: w). simpl.
           repeat split; auto. lia.
        -- intros (w & Hw & HF & Hp). inversion HF; subst.
           simpl in Hw. injection Hw as <- ->.
           eexists; repeat split; eauto. simpl in Hp. lia.
      * split; [discriminate|].
        intros (w & Hw & HF & _). inversion HF; subst.
        simpl in Hw. injection Hw as <- ->. simpl in *. congruence.
Qed.

Lemma rep_ends_spec icase c lo hi pos rest e :
  In e (rep_ends icase c lo hi pos rest) <->
  exists w, rest = w ++ snd e
            /\ Forall (fun a => cls_match icase c a = true) w
            /\ lo <= length w
            /\ (forall h, hi = Some h -> length w <= h)
            /\ fst e = pos + length w.
Proof.
  revert lo hi pos; induction rest as [|a rest IH]; intros lo hi pos.
  - simpl. destruct (Nat.eqb_spec lo 0) as [->|Hlo]; simpl.
    + split.
      * intros [<-|[]]. exists []. simpl. repeat split; auto; lia.
      * intros (w & Hw & _ & _ & _ & Hp).
        destruct w; [|discriminate]. simpl in *. left.
        destruct e; simpl in *; subst. now rewrite Nat.add_0_r.
    + split; [intros []|].
      intros (w & Hw & _ & Hl & _). destruct w; [simpl in Hl; lia|discriminate].
  - cbn [rep_ends].
    assert (Hhere : In e (if lo =? 0 then [(pos, a :: rest)] else []) <->
                    lo = 0 /\ e = (pos, a :: rest)).
    { destruct (Nat.eqb_spec lo 0); simpl; intuition (auto; try lia). }
    assert (Hnil : (exists w, a :: rest = w ++ snd e /\
                      Forall (fun a => cls_match icase c a = true) w /\
                      lo <= length w /\ (forall h, hi = Some h -> length w <= h) /\
                      fst e = pos + length w /\ w = []) <->
                   lo = 0 /\ e = (pos, a :: rest)).
    { split.
      - intros (w & Hw & _ & Hl & _ & Hp & ->). simpl in *.
        split; [lia|]. destruct e; simpl in *; subst. now rewrite Nat.add_0_r.
      - intros [-> ->]. exists []. simpl. repeat split; auto; lia. }
    destruct (can_take hi && cls_match icase c a) eqn:E.
    + apply andb_true_iff in E as [Hc Ha].
      rewrite in_app_iff, IH, Hhere, <- Hnil. split.
      * intros [(w & -> & HF & Hl & Hh & Hp)|(w & H1 & H2 & H3 & H4 & H5 & _)].
        -- exists (a :: w). simpl. repeat split; auto; try lia.
           intros h ->. simpl in Hh. specialize (Hh (pred h) eq_refl).
           destruct h; [discriminate|simpl in *; lia].
        -- exists w; auto.
      * intros (w & Hw & HF & Hl & Hh & Hp). destruct w as [|b w].
        -- right. exists []; repeat split; auto.
        -- left. simpl in Hw. injection Hw as <- ->. inversion HF; subst.
           exists w. simpl in *. repeat split; auto; try lia.
           intros h Hh'. destruct hi as [h0|]; [|discriminate].
           simpl in Hh'. injection Hh' as <-. specialize (Hh h0 eq_refl). lia.
    + rewrite Hhere, <- Hnil. split.
      * intros (w & H1 & H2 & H3 & H4 & H5 & _). exists w; auto.
      * intros (w & Hw & HF & Hl & Hh & Hp). exists w. repeat split; auto.
        destruct w as [|b w]; [reflexivity|exfalso].
        simpl in Hw. injection Hw as <- ->. inversion HF; subst.
        apply andb_false_iff in E as [E|E]; [|congruence].
        destruct hi as [[|h]|]; try discriminate.
        specialize (Hh 0 eq_refl). simpl in Hh. lia.
Qed.

(** The matcher finds exactly the matches of the specification. *)
Lemma matches_spec icase r : forall st st',
  In st' (matches icase r st) <-> Matches icase r st st'.
Proof.
  induction r as [l|c lo hi| | |r1 IH1 r2 IH2|n r IH]; intros st st'; simpl.
  - destruct (lit_end icase l (mpos st) (mrest st)) as [e|] eqn:E.
    + apply lit_end_spec in E as (w & Hw & HF & Hp). simpl. split.
      * intros [<-|[]]. simpl. exists w. rewrite Hp. auto.
      * intros (w' & Hw' & HF' & Hp' & Hg'). left.
        assert (length w = length w').
        { apply Forall2_length in HF, HF'. lia. }
        assert (w = w' /\ snd e = mrest st') as [<- Hs].
        { apply app_same_length; congruence. }
        destruct st'; simpl in *; subst. f_equal. lia.
    + simpl. split; [intros []|].
      intros (w & Hw & HF & Hp & Hg).
      assert (lit_end icase l (mpos st) (mrest st) = Some (mpos st', mrest st')).
      { apply lit_end_spec. exists w. simpl. auto. }
      congruence.
  - rewrite in_map_iff. split.
    + intros (e & <- & He). apply rep_ends_spec in He as (w & H1 & H2 & H3 & H4 & H5).
      exists w. simpl. repeat split; auto.
    + intros (w & H1 & H2 & H3 & H4 & H5 & H6).
      exists (mpos st', mrest st'). split.
      * simpl. rewrite <- H6. apply mstate_eta.
      * apply rep_ends_spec. exists w. simpl. repeat split; auto.
  - destruct (Nat.eqb_spec (mpos st) 0); simpl.
    + intuition (subst; auto).
    + intuition (subst; auto; try lia).
  - destruct (at_end (mrest st)); simpl.
    + intuition (subst; auto).
    + intuition (subst; auto; try discriminate).
  - rewrite in_flat_map. split.
    + intros (mid & H1 & H2). exists mid. now rewrite <- IH1, <- IH2.
    + intros (mid & H1 & H2). exists mid. now rewrite IH1, IH2.
  - rewrite in_map_iff. split.
    + intros (st1 & <- & H1). exists st1. now rewrite <- IH.
    + intros (st1 & H1 & ->). exists st1. now rewrite IH.
Qed.

Lemma filter_all (A : Type) (f : A -> bool) (l : list A) :
  (forall x, f x = true) -> filter f l = l.
Proof.
  intros Hf; induction l as [|x l IH]; simpl; [reflexivity|].
  now rewrite Hf, IH.
Qed.

(** Without [must_advance] the first match in the matcher's order wins. *)
Lemma match_at_hd icase r pos rest :
  match_at icase r false pos rest =
  match matches icase r (MState pos rest []) with
  | st' :: _ => Some (RMatch pos (mpos st') (mrest st') (mgrp st'))
  | [] => None
  end.
Proof.
  unfold match_at. now rewrite filter_all.
Qed.

(** A pattern that starts with [^] matches nowhere but at position 0. *)
Lemma search_from_bol icase r ma pos rest :
  search_from icase (Bol +++ r) ma (S pos) rest = None.
Proof.
  revert ma pos; induction rest as [|a rest IH]; intros ma pos; simpl; auto.
Qed.

Lemma search_bol icase r s :
  search icase (Bol +++ r) s = match_at icase (Bol +++ r) false 0 s.
Proof.
  unfold search. destruct s as [|a s]; simpl search_from;
    destruct (match_at icase (Bol +++ r) false 0 _); auto.
  apply search_from_bol.
Qed.

Lemma search_from_bol_pos icase r ma pos rest :
  pos <> 0 -> search_from icase (Bol +++ r) ma pos rest = None.
Proof.
  destruct pos; [congruence|]. intros _. apply search_from_bol.
Qed.

(* ================================================================== *)
(** * The scheme matcher *)
(* ================================================================== *)

Ltac case_eqb :=
  match goal with
  | |- context [Ascii.eqb ?c ?a] =>
      let E := fresh "E" in
      destruct (Ascii.eqb c a) eqn:E;
      [apply Ascii.eqb_eq in E; subst|]
  end.

Lemma rep_ends_exhausted icase c pos rest :
  rep_ends icase c 0 (Some 0) pos rest = [(pos, rest)].
Proof. now destruct rest. Qed.

Opaque Ascii.eqb.

(** [re.search('^(https?)', v)] finds the leading scheme token. *)
Lemma search_scheme (v : pystr) :
  search false scheme_re v =
  option_map (fun tok => RMatch 0 (length tok) (skipn (length tok) v) [(1, tok)])
             (leading_scheme v).
Proof.
  unfold scheme_re. rewrite search_bol, match_at_hd. unfold leading_scheme.
  destruct v as [|a0 [|a1 [|a2 [|a3 [|a4 v]]]]]; cbn;
    repeat (case_eqb; cbn; rewrite ?rep_ends_exhausted; cbn); reflexivity.
Qed.

Transparent Ascii.eqb.

Lemma compareSchemes_spec (v0 v1 : pystr) :
  compareSchemes v0 v1 = true <->
  exists tok, leading_scheme v0 = Some tok /\ leading_scheme v1 = Some tok.
Proof.
  unfold compareSchemes. rewrite !search_scheme.
  destruct (leading_scheme v0) as [t0|], (leading_scheme v1) as [t1|]; simpl.
  - rewrite pystr_eqb_eq. split.
    + intros ->. eauto.
    + intros (tok & [= ->] & [= ->]). reflexivity.
  - split; [discriminate|]. intros (tok & _ & [=]).
  - split; [discriminate|]. intros (tok & [=] & _).
  - split; [discriminate|]. intros (tok & [=] & _).
Qed.

Lemma compareSchemes_none (v0 v1 : pystr) :
  leading_scheme v0 = None \/ leading_scheme v1 = None ->
  compareSchemes v0 v1 = false.
Proof.
  intros H. destruct (compareSchemes v0 v1) eqn:E; [|reflexivity].
  apply compareSchemes_spec in E as (tok & H0 & H1).
  destruct H; congruence.
Qed.

(** C2. [compareSchemes v0 v1] is true exactly when both strings begin
    with [http] or [https] and the longest such leading token is the same
    in both; when either string has no such token the result is [false]
    (a boolean: nothing is raised).  An address that begins with [http://]
    is not compatible with the target [https://t], one that begins with
    [https://] is. *)
Theorem compareSchemes_same_leading_scheme :
  (forall v0 v1,
     compareSchemes v0 v1 = true <->
     exists tok, leading_scheme v0 = Some tok /\ leading_scheme v1 = Some tok)
  /\ (forall v0 v1,
        leading_scheme v0 = None \/ leading_scheme v1 = None ->
        compareSchemes v0 v1 = false)
  /\ (forall rest,
        compareSchemes (lit "http://" ++ rest) (lit "https://t") = false)
  /\ (forall rest,
        compareSchemes (lit "https://" ++ rest) (lit "https://t") = true).
Proof.
  split; [exact compareSchemes_spec|].
  split; [exact compareSchemes_none|split].
  - intros rest. destruct (compareSchemes _ _) eqn:E; [|reflexivity].
    apply compareSchemes_spec in E as (tok & H0 & H1).
    vm_compute in H0, H1. congruence.
  - intros rest. apply compareSchemes_spec. exists (lit "https").
    split; reflexivity.
Qed.

(* ================================================================== *)
(** * Proxy strings *)
(* ================================================================== *)

Lemma rep_ends_lo0 icase c hi pos rest :
  exists e l, rep_ends icase c 0 hi pos rest = e :: l.
Proof.
  destruct rest as [|a rest]; simpl; [eauto|].
  destruct (can_take hi && cls_match icase c a); [|eauto].
  destruct (rep_ends icase c 0 (option_map pred hi) (S pos) rest);
    simpl; eauto.
Qed.

(** [(.+)] from a character that is not a newline: the first match
    records the group on top of the groups already there. *)
Lemma grp_plus_any_hd icase n pos c rest g :
  c <> newline ->
  exists p r w l,
    matches icase (Grp n (Plus CAny)) (MState pos (c :: rest) g)
    = MState p r ((n, w) :: g) :: l.
Proof.
  intros Hc. apply Ascii.eqb_neq in Hc.
  cbn [matches Plus rep_ends mpos mrest mgrp can_take andb cls_match Nat.eqb
       Nat.pred option_map].
  rewrite Hc. cbn [negb].
  destruct (rep_ends_lo0 icase CAny None (S pos) rest) as (e & l & ->).
  simpl. eauto.
Qed.

Lemma matches_seq_one icase r1 r2 st mid :
  matches icase r1 st = [mid] ->
  matches icase (r1 +++ r2) st = matches icase r2 mid.
Proof.
  intros H. simpl. rewrite H. simpl. apply app_nil_r.
Qed.

Lemma to_lower_inv (a : ascii) :
  (to_lower a = "h"%char -> a = "h"%char \/ a = "H"%char)
  /\ (to_lower a = "t"%char -> a = "t"%char \/ a = "T"%char)
  /\ (to_lower a = "p"%char -> a = "p"%char \/ a = "P"%char)
  /\ (to_lower a = "s"%char -> a = "s"%char \/ a = "S"%char).
Proof.
  destruct a as [[] [] [] [] [] [] [] []]; vm_compute;
    repeat split; intros H; try discriminate H; auto.
Qed.

Ltac enum_scheme Hpre :=
  let H := fresh "H" in
  destruct Hpre as [H|H];
  match type of H with
  | map to_lower ?pre = _ =>
      destruct pre as [|? [|? [|? [|? [|? [|? ?]]]]]]; try discriminate H
  end;
  injection H; clear H; intros;
  repeat match goal with
         | E : to_lower _ = _ |- _ => apply to_lower_inv in E
         end;
  repeat match goal with
         | E : _ \/ _ |- _ => destruct E
         end;
  subst.

(** A string made of [http] or [https] in any letter case, then [://],
    then at least one character that is not a newline, is accepted, and
    the scheme comes back as written. *)
Lemma parseProxy_accepts (pre rest : pystr) (c : ascii) :
  map to_lower pre = lit "http" \/ map to_lower pre = lit "https" ->
  c <> newline ->
  parseProxy (pre ++ lit "://" ++ c :: rest)
  = Ok (pre, pre ++ lit "://" ++ c :: rest).
Proof.
  intros Hpre Hc. unfold parseProxy, proxy_re.
  rewrite search_bol, match_at_hd.
  rewrite matches_seq_one
    with (mid := MState 0 (pre ++ lit "://" ++ c :: rest) []) by reflexivity.
  assert (Hmid :
    matches true (Grp 1 (Lit (lit "http") +++ Opt (CLit "s") +++ Lit (lit "://")))
            (MState 0 (pre ++ lit "://" ++ c :: rest) [])
    = [MState (length pre + 3) (c :: rest) [(1, pre ++ lit "://")]]).
  { enum_scheme Hpre; reflexivity. }
  rewrite (@matches_seq_one _ _ _ _ _ Hmid).
  destruct (grp_plus_any_hd true 2 (length pre + 3) rest
              [(1, pre ++ lit "://")] Hc) as (p & r & w & l & ->).
  cbn [nth groups seq map group m_groups Nat.eqb].
  f_equal. f_equal.
  enum_scheme Hpre; reflexivity.
Qed.

(** C9 (as stated) fails: the proxy [httpS://p] is accepted with the
    scheme [httpS], which is not all lowercase, and [compareSchemes] on
    its address is true against the target [http://t]. *)
Lemma httpS_proxy_is_compatible_with_http_target :
  parseProxy (lit "httpS://p") = Ok (lit "httpS", lit "httpS://p")
  /\ lit "httpS" <> map to_lower (lit "httpS")
  /\ compareSchemes (lit "httpS://p") (lit "http://t") = true.
Proof.
  repeat split; try reflexivity. discriminate.
Qed.

(** A proxy string whose scheme is [http] or [https] in a letter case
    that is not all lowercase, seen by the two functions that read it:
    [parseProxy] accepts it and returns the scheme as written; when one
    of the four letters of [http] is uppercase, [compareSchemes] on the
    address is false against every target; when only the final [s] is
    uppercase, [compareSchemes] reads the address as [http] and is true
    exactly against the targets whose leading scheme is [http]. *)
Lemma mixed_case_proxy_string
    (pre rest : pystr) (c : ascii) :
  map to_lower pre = lit "http" \/ map to_lower pre = lit "https" ->
  pre <> map to_lower pre ->
  c <> newline ->
  let s := pre ++ lit "://" ++ c :: rest in
  parseProxy s = Ok (pre, s)
  /\ (firstn 4 pre <> lit "http" -> forall t, compareSchemes s t = false)
  /\ (firstn 4 pre = lit "http" ->
      forall t, compareSchemes s t = true <->
                leading_scheme t = Some (lit "http")).
Proof.
  intros Hpre Hne Hc s. split; [now apply parseProxy_accepts|].
  subst s. enum_scheme Hpre;
    try (exfalso; apply Hne; reflexivity);
    (split; intros H4 t;
     [ first [ exfalso; apply H4; reflexivity
             | apply compareSchemes_none; left; reflexivity ]
     | first [ discriminate H4
             | rewrite compareSchemes_spec; split;
               [ intros (tok & Hs & Ht); vm_compute in Hs;
                 injection Hs as <-; exact Ht
               | intros Ht; exists (lit "http");
                 split; [reflexivity|exact Ht] ] ] ]).
Qed.

(* ================================================================== *)
(** * Header strings *)
(* ================================================================== *)

Lemma firstn_app_exact (A : Type) (w x : list A) :
  firstn (length w) (w ++ x) = w.
Proof.
  rewrite firstn_app, Nat.sub_diag, firstn_all. simpl. apply app_nil_r.
Qed.

(** What a match of the header pattern looks like: both groups are not
    empty, the second one holds no newline and ends where the match
    ends, and the match ends at the end of the subject or just before a
    final newline. *)
Lemma header_match_shape (h : pystr) (st' : mstate) :
  Matches false header_re (MState 0 h []) st' ->
  exists g1 g2 mid,
    g1 <> [] /\ g2 <> []
    /\ mgrp st' = [(2, g2); (1, g1)]
    /\ mpos st' <> 0
    /\ at_end (mrest st') = true
    /\ h = mid ++ g2 ++ mrest st'
    /\ Forall (fun a => cls_match false CAny a = true) g2.
Proof.
  unfold header_re, Plus. cbn [Matches mpos mrest mgrp].
  intros (m1 & [_ ->] & m2 & (s1 & (w1 & Hh & _ & Hl1 & _ & Hp1 & Hg1) & ->)
          & m3 & (w3 & Hr3 & _ & Hp3 & Hg3)
          & m4 & (w4 & Hr4 & _ & _ & _ & Hp4 & Hg4)
          & m5 & (s5 & (w5 & Hr5 & HF5 & Hl5 & _ & Hp5 & Hg5) & ->)
          & Hend & ->).
  cbn [mpos mrest mgrp] in *.
  exists w1, w5, (w1 ++ w3 ++ w4).
  assert (Hw1 : firstn (mpos s1 - 0) h = w1).
  { rewrite Nat.sub_0_r, Hp1, Hh. apply firstn_app_exact. }
  assert (Hw5 : firstn (mpos s5 - mpos m4) (mrest m4) = w5).
  { rewrite Hp5, Hr5. replace (mpos m4 + length w5 - mpos m4) with (length w5)
      by lia. apply firstn_app_exact. }
  repeat split.
  - intros ->. simpl in Hl1. lia.
  - intros ->. simpl in Hl5. lia.
  - rewrite Hg5, Hg4, Hg3, Hw1, Hw5, Hg1. reflexivity.
  - lia.
  - exact Hend.
  - rewrite Hh, Hr3, Hr4, Hr5, <- !app_assoc. reflexivity.
  - exact HF5.
Qed.

Lemma file_lines_first (content : pystr) :
  In newline content ->
  exists l ls, file_lines content = (l ++ [newline]) :: ls.
Proof.
  induction content as [|c content IH]; intros Hin; [destruct Hin|].
  simpl. destruct (Ascii.eqb c newline) eqn:E.
  - apply Ascii.eqb_eq in E as ->. exists [], (file_lines content).
    reflexivity.
  - destruct Hin as [->|Hin]; [now rewrite Ascii.eqb_refl in E|].
    destruct (IH Hin) as (l & ls & ->). exists (c :: l), ls. reflexivity.
Qed.

Lemma search_from_header_pos ma pos rest :
  pos <> 0 -> search_from false header_re ma pos rest = None.
Proof. apply search_from_bol_pos. Qed.

(** A string that ends with a newline is never a header. *)
Lemma parseHeader_trailing_newline (h : pystr) :
  exists msg, parseHeader (h ++ [newline]) = Err (AssertionError msg).
Proof.
  unfold parseHeader, Re.split. cbn [split_from].
  fold (search false header_re (h ++ [newline])).
  unfold header_re at 1. rewrite search_bol. fold header_re.
  rewrite match_at_hd.
  destruct (matches false header_re (MState 0 (h ++ [newline]) []))
    as [|st' l] eqn:E.
  - destruct h; simpl; eauto.
  - assert (Hin : In st' (matches false header_re (MState 0 (h ++ [newline]) [])))
      by (rewrite E; now left).
    apply matches_spec, header_match_shape in Hin
      as (g1 & g2 & mid & H1 & H2 & Hg & Hp & Hend & Hh & HF).
    cbn [m_start m_end m_after m_groups Nat.sub firstn].
    assert (Hrest : mrest st' = [newline]).
    { destruct (mrest st') as [|a [|b r]] eqn:Er; try discriminate Hend.
      - exfalso. rewrite app_nil_r in Hh.
        destruct (exists_last H2) as (g2' & z & ->).
        rewrite app_assoc in Hh. apply app_inj_tail in Hh as [_ <-].
        apply Forall_app in HF as [_ HF]. inversion HF; subst.
        discriminate.
      - simpl in Hend. apply Ascii.eqb_eq in Hend. now subst. }
    rewrite search_from_header_pos by exact Hp. unfold groups. rewrite Hg, Hrest. cbn.
    destruct g1 as [|a1 g1]; [congruence|].
    destruct g2 as [|a2 g2]; [congruence|]. cbn. eauto.
Qed.

(** C10. A string that ends with a newline makes [parseHeader] fail its
    assertion, also when the text before the newline is a well-formed
    [Key: Value] pair (which on its own parses): the newline is left over
    by the split as a third piece.  The header loop hands the lines of a
    file to [parseHeader] as read, so a header file with a newline in it
    aborts the run. *)
Theorem parseHeader_fails_on_trailing_newline :
  (forall h, exists msg,
     parseHeader (h ++ [newline]) = Err (AssertionError msg))
  /\ parseHeader (lit "Key: Value") = Ok (lit "Key", lit "Value")
  /\ filter truthy (Re.split false header_re 2 (lit "Key: Value" ++ [newline]))
     = [Some (lit "Key"); Some (lit "Value"); Some [newline]]
  /\ (forall fs name content more,
        fs name = Some content -> In newline content ->
        exists msg, load_headers fs (name :: more) = Err (AssertionError msg)).
Proof.
  split; [exact parseHeader_trailing_newline|].
  split; [reflexivity|]. split; [reflexivity|].
  intros fs name content more Hfs Hin.
  unfold load_headers. cbn [foldM]. rewrite Hfs.
  destruct (file_lines_first content Hin) as (l & ls & ->).
  cbn [foldM].
  destruct (parseHeader_trailing_newline l) as (msg & ->).
  simpl. eauto.
Qed.

(* ================================================================== *)
(** * Targets *)
(* ================================================================== *)

Lemma search_from_found icase r pos s m :
  search_from icase r false pos s = Some m ->
  exists pre rest,
    s = pre ++ rest
    /\ match_at icase r false (pos + length pre) rest = Some m.
Proof.
  revert pos; induction s as [|a s IH]; intros pos; simpl.
  - destruct (match_at icase r false pos []) eqn:E; [|discriminate].
    intros [= <-]. exists [], []. simpl. now rewrite Nat.add_0_r.
  - destruct (match_at icase r false pos (a :: s)) eqn:E.
    + intros [= <-]. exists [], (a :: s). simpl. now rewrite Nat.add_0_r.
    + intros H. apply IH in H as (pre & rest & -> & H).
      exists (a :: pre), rest. simpl. split; [reflexivity|].
      now rewrite <- plus_n_Sm.
Qed.

Lemma search_from_finds icase r pos pre rest m :
  match_at icase r false (pos + length pre) rest = Some m ->
  exists m', search_from icase r false pos (pre ++ rest) = Some m'.
Proof.
  revert pos; induction pre as [|a pre IH]; intros pos H; simpl in *.
  - rewrite Nat.add_0_r in H. destruct rest; simpl; rewrite H; eauto.
  - destruct (match_at icase r false pos (a :: pre ++ rest)); [eauto|].
    apply IH. now rewrite <- plus_n_Sm in H.
Qed.

Lemma match_at_some icase r pos rest :
  (exists m, match_at icase r false pos rest = Some m) <->
  (exists st', Matches icase r (MState pos rest []) st').
Proof.
  rewrite match_at_hd. split.
  - intros (m & H).
    destruct (matches icase r (MState pos rest [])) as [|st' l] eqn:E;
      [discriminate|].
    exists st'. apply matches_spec. rewrite E. now left.
  - intros (st' & H). apply matches_spec in H.
    destruct (matches icase r (MState pos rest [])); [destruct H|eauto].
Qed.

(** The pattern ['/[0-9]{,2}$'] is found exactly in the strings that end
    with a slash, at most two digits and possibly a final newline. *)
Lemma is_cidr_spec (t : pystr) : is_cidr t = true <-> cidr_like t.
Proof.
  unfold is_cidr, search, cidr_like. split.
  - destruct (search_from false cidr_re false 0 t) as [m|] eqn:E;
      [intros _|discriminate].
    apply search_from_found in E as (pre & rest & -> & E).
    assert (Hm : exists m, match_at false cidr_re false (0 + length pre) rest
                           = Some m) by eauto.
    apply match_at_some in Hm as (st' & Hm).
    unfold cidr_re in Hm. cbn [Matches mpos mrest mgrp] in Hm.
    destruct Hm as (m1 & (w1 & Hr1 & HF1 & _) & m2
                    & (w2 & Hr2 & HF2 & _ & Hh2 & _) & Hend & ->).
    inversion HF1 as [|c a l1 l2 Hc HF1' E1 E2]; subst.
    inversion HF1'; subst.
    unfold cls_match in Hc. apply Ascii.eqb_eq in Hc as <-.
    exists pre, w2, (mrest m2). repeat split.
    + rewrite Hr2. reflexivity.
    + apply forallb_forall. intros x Hx.
      rewrite Forall_forall in HF2. now apply HF2.
    + now apply Hh2.
    + destruct (mrest m2) as [|a [|b r]]; try discriminate Hend; auto.
      simpl in Hend. apply Ascii.eqb_eq in Hend as ->. auto.
  - intros (pre & d & nl & -> & Hd & Hl & Hnl).
    assert (Hm : exists m, match_at false cidr_re false (0 + length pre)
                             (lit "/" ++ d ++ nl) = Some m).
    { apply match_at_some.
      exists (MState (0 + length pre + 1 + length d) nl []).
      unfold cidr_re. cbn [Matches mpos mrest mgrp].
      exists (MState (0 + length pre + 1) (d ++ nl) []). split.
      - exists (lit "/"). cbn [mpos mrest mgrp]. repeat split.
        repeat constructor.
      - exists (MState (0 + length pre + 1 + length d) nl []). split.
        + exists d. cbn [mpos mrest mgrp]. repeat split; auto; try lia.
          * apply Forall_forall. intros x Hx.
            rewrite forallb_forall in Hd. now apply Hd.
          * intros h [= <-]. exact Hl.
        + cbn [mrest]. split; [|reflexivity].
          destruct Hnl as [->| ->]; reflexivity. }
    destruct Hm as (m & Hm).
    destruct (search_from_finds _ _ _ _ _ Hm) as (m' & ->). reflexivity.
Qed.

Lemma split_on_nonempty sep s : split_on sep s <> [].
Proof.
  destruct s as [|c s]; simpl; [discriminate|].
  destruct (Ascii.eqb c sep); [discriminate|].
  destruct (split_on sep s); discriminate.
Qed.

Lemma split_on_nosep sep s :
  existsb (Ascii.eqb sep) s = false -> split_on sep s = [s].
Proof.
  induction s as [|c s IH]; simpl; [reflexivity|].
  rewrite Ascii.eqb_sym. destruct (Ascii.eqb c sep); simpl; [discriminate|].
  intros H. now rewrite IH.
Qed.

Lemma split_on_app_sep sep pre d :
  existsb (Ascii.eqb sep) d = false ->
  split_on sep (pre ++ sep :: d) = split_on sep pre ++ [d].
Proof.
  intros Hd. induction pre as [|c pre IH]; simpl.
  - rewrite Ascii.eqb_refl, split_on_nosep by exact Hd. reflexivity.
  - destruct (Ascii.eqb c sep); [now rewrite IH|].
    rewrite IH. destruct (split_on sep pre) eqn:E; [|reflexivity].
    now apply split_on_nonempty in E.
Qed.

Lemma digits_no_sep sep d :
  is_digit sep = false -> forallb is_digit d = true ->
  existsb (Ascii.eqb sep) d = false.
Proof.
  intros Hs. induction d as [|c d IH]; simpl; [reflexivity|].
  intros H. apply andb_true_iff in H as [Hc Hd].
  rewrite IH by exact Hd. rewrite orb_false_r.
  destruct (Ascii.eqb sep c) eqn:E; [|reflexivity].
  apply Ascii.eqb_eq in E. congruence.
Qed.

(** The netmask part of a network string, when it is one or two digits:
    a prefix length up to 32 is taken, anything above is refused. *)
Lemma make_netmask_digits (d : pystr) :
  forallb is_digit d = true -> 1 <= length d ->
  IPv4.make_netmask d =
  if (IPv4.int_of_digits d <=? 32)%Z then Some (IPv4.int_of_digits d)
  else None.
Proof.
  intros Hd Hl. unfold IPv4.make_netmask, IPv4.prefix_from_prefix_string.
  assert (Hall : IPv4.all_digits d = true).
  { destruct d; [simpl in Hl; lia|exact Hd]. }
  rewrite Hall. destruct (IPv4.int_of_digits d <=? 32)%Z; [reflexivity|].
  unfold IPv4.prefix_from_ip_string, IPv4.ip_int_from_string.
  rewrite split_on_nosep; [reflexivity|].
  now apply digits_no_sep.
Qed.

Lemma IPv4Address_no_slash (s : pystr) (a : Z) :
  IPv4.IPv4Address s = Ok a -> split_on "/"%char s = [s].
Proof.
  unfold IPv4.IPv4Address.
  destruct (existsb (Ascii.eqb "/"%char) s) eqn:E; [discriminate|].
  intros _. now apply split_on_nosep.
Qed.

(** A valid address, a slash and a prefix length up to 32 make a
    network: its address is the given one with the host bits cleared. *)
Lemma IPv4Network_valid (addr d : pystr) (a : Z) :
  IPv4.IPv4Address addr = Ok a ->
  forallb is_digit d = true -> 1 <= length d ->
  (IPv4.int_of_digits d <= 32)%Z ->
  IPv4.IPv4Network (addr ++ lit "/" ++ d)
  = Ok (IPv4.Network (Z.land a (IPv4.netmask_of (IPv4.int_of_digits d)))
                     (IPv4.int_of_digits d)).
Proof.
  intros Ha Hd Hl Hp. unfold IPv4.IPv4Network.
  change (lit "/" ++ d) with ("/"%char :: d).
  rewrite split_on_app_sep by (now apply digits_no_sep).
  rewrite (IPv4Address_no_slash _ Ha). cbn [app].
  rewrite Ha. cbn [bind]. rewrite make_netmask_digits by assumption.
  apply Z.leb_le in Hp. now rewrite Hp.
Qed.

(** Whatever comes before the slash, a prefix length above 32 is an
    error. *)
Lemma IPv4Network_bad_prefix (pre d : pystr) :
  forallb is_digit d = true -> 1 <= length d ->
  (32 < IPv4.int_of_digits d)%Z ->
  exists e, IPv4.IPv4Network (pre ++ lit "/" ++ d) = Err e.
Proof.
  intros Hd Hl Hp. unfold IPv4.IPv4Network.
  change (lit "/" ++ d) with ("/"%char :: d).
  rewrite split_on_app_sep by (now apply digits_no_sep).
  destruct (split_on "/"%char pre) as [|w [|w' ws]] eqn:E.
  - now apply split_on_nonempty in E.
  - cbn [app]. destruct (IPv4.IPv4Address w); cbn [bind]; [|eauto].
    rewrite make_netmask_digits by assumption.
    apply Z.leb_gt in Hp. rewrite Hp. eauto.
  - cbn [app]. destruct ws; simpl; eauto.
Qed.

Lemma addresses_length (n : IPv4.network) :
  length (IPv4.addresses n) = Z.to_nat (2 ^ (32 - IPv4.prefixlen n)).
Proof. unfold IPv4.addresses. now rewrite length_map, length_seq. Qed.

Lemma is_cidr_false (t : pystr) : ~ cidr_like t -> is_cidr t = false.
Proof.
  intros H. destruct (is_cidr t) eqn:E; [|reflexivity].
  now apply is_cidr_spec in E.
Qed.

Lemma is_cidr_slash_digits (pre d : pystr) :
  forallb is_digit d = true -> length d <= 2 ->
  is_cidr (pre ++ lit "/" ++ d) = true.
Proof.
  intros Hd Hl. apply is_cidr_spec. exists pre, d, [].
  rewrite app_nil_r. auto.
Qed.

(** A string that begins with [http] is no IPv4 address. *)
Lemma IPv4Address_http (t : pystr) :
  startswith (lit "http") t = true -> exists e, IPv4.IPv4Address t = Err e.
Proof.
  intros H. destruct t as [|c t]; [discriminate|].
  cbn [startswith lit list_ascii_of_string] in H.
  apply andb_true_iff in H as [Hc _].
  apply Ascii.eqb_eq in Hc as <-.
  unfold IPv4.IPv4Address.
  destruct (existsb _ _); [eauto|].
  unfold IPv4.ip_int_from_string. cbn [split_on].
  change (Ascii.eqb "h" ".") with false. cbn iota.
  destruct (split_on "."%char t) as [|w ws]; [eauto|].
  destruct ws as [|b [|c [|d [|? ?]]]]; eauto.
  change (IPv4.parse_octet ("h"%char :: w)) with (@None Z). eauto.
Qed.

Lemma assumeURLTarget_http (args : Args) (t : pystr) :
  startswith (lit "http") t = true -> assumeURLTarget args t = [].
Proof.
  intros H. unfold assumeURLTarget. rewrite H.
  rewrite andb_false_r. cbn [negb andb].
  destruct (no_assume_http args), (no_assume_https args); reflexivity.
Qed.

(** A string that begins with [http] and does not look like a CIDR to the
    script is passed through unchanged, whatever the assumptions. *)
Lemma parseTarget_http_literal (args : Args) (t : pystr) :
  startswith (lit "http") t = true -> ~ cidr_like t ->
  parseTarget args t = Ok [t].
Proof.
  intros Hs Hc. unfold parseTarget.
  rewrite (is_cidr_false Hc).
  destruct (IPv4Address_http t Hs) as (e & ->). cbn [bind].
  now rewrite assumeURLTarget_http.
Qed.

(** C4. With both assumptions on, [10.0.0.0/30] expands to eight
    targets: the four addresses of the network in order, network and
    broadcast address included, each as [http://] then [https://].  For
    every address the [http] variant comes first, only the variants whose
    assumption is on are produced, and none when both are off; this holds
    for each address of a network and for a bare address alike. *)
Theorem cidr_expansion_http_then_https :
  (forall df pc,
     parseTarget (MkArgs df pc false false) (lit "10.0.0.0/30")
     = Ok [lit "http://10.0.0.0"; lit "https://10.0.0.0";
           lit "http://10.0.0.1"; lit "https://10.0.0.1";
           lit "http://10.0.0.2"; lit "https://10.0.0.2";
           lit "http://10.0.0.3"; lit "https://10.0.0.3"])
  /\ (forall args a,
        assumeIPTarget args a
        = (if no_assume_http args then []
           else [lit "http://" ++ IPv4.str_of_address a])
          ++ (if no_assume_https args then []
              else [lit "https://" ++ IPv4.str_of_address a]))
  /\ (forall df pc a, assumeIPTarget (MkArgs df pc true true) a = [])
  /\ (forall args t n,
        cidr_like t -> IPv4.IPv4Network t = Ok n ->
        parseTarget args t
        = Ok (flat_map (assumeIPTarget args) (IPv4.addresses n)))
  /\ (forall args t a,
        ~ cidr_like t -> IPv4.IPv4Address t = Ok a ->
        parseTarget args t = Ok (assumeIPTarget args a))
  /\ (forall df pc,
        parseTarget (MkArgs df pc true true) (lit "10.0.0.0/30") = Ok []
        /\ parseTarget (MkArgs df pc true true) (lit "10.0.0.1") = Ok []).
Proof.
  repeat split.
  - intros args a. unfold assumeIPTarget.
    destruct (no_assume_http args), (no_assume_https args); reflexivity.
  - intros args t n Hc Hn. unfold parseTarget.
    apply is_cidr_spec in Hc. rewrite Hc, Hn. reflexivity.
  - intros args t a Hc Ha. unfold parseTarget.
    rewrite (is_cidr_false Hc), Ha. reflexivity.
Qed.

(** C5: where the code departs from it.  The URL [https://x/] begins with
    [https://], yet it is not passed through: the CIDR pattern matches
    its final slash, [IPv4Network] refuses it, and [parseTarget] raises.
    Without the final slash the same URL is returned unchanged, with no
    [http://] variant, whatever the assumptions. *)
Theorem url_with_trailing_slash_raises (args : Args) :
  startswith (lit "http") (lit "https://x/") = true
  /\ is_cidr (lit "https://x/") = true
  /\ parseTarget args (lit "https://x/")
     = Err (ValueError (lit "AddressValueError: only one '/' permitted"))
  /\ parseTarget args (lit "https://x") = Ok [lit "https://x"].
Proof.
  repeat split.
  apply parseTarget_http_literal; [reflexivity|].
  intros H. apply is_cidr_spec in H. discriminate H.
Qed.

Lemma all_digits_forallb (d : pystr) :
  IPv4.all_digits d = true -> forallb is_digit d = true /\ 1 <= length d.
Proof.
  destruct d; [discriminate|]. simpl. intros H. split; [exact H|lia].
Qed.

(** C6 (as stated) fails: [10.0.0.0/33] does not end with a prefix length
    between 0 and 32, yet the CIDR pattern matches it, the CIDR branch is
    taken and the network parse raises; the string does not fall through
    to the address or literal branches. *)
Lemma prefix_33_takes_cidr_branch :
  is_cidr (lit "10.0.0.0/33") = true
  /\ ~ ends_with_prefix_length (lit "10.0.0.0/33")
  /\ parseTarget (MkArgs false 4 false false) (lit "10.0.0.0/33")
     = Err (ValueError (lit "NetmaskValueError")).
Proof.
  split; [reflexivity|]. split; [|reflexivity].
  intros (pre & d & H & Hd & Hr).
  apply all_digits_forallb in Hd as [Hd _].
  assert (Hs : split_on "/"%char (lit "10.0.0.0/33")
               = split_on "/"%char pre ++ [d]).
  { rewrite H. change (lit "/" ++ d) with ("/"%char :: d).
    apply split_on_app_sep. now apply digits_no_sep. }
  change (split_on "/"%char (lit "10.0.0.0/33"))
    with ([lit "10.0.0.0"] ++ [lit "33"]) in Hs.
  apply app_inj_tail in Hs as [_ <-].
  vm_compute in Hr. destruct Hr as [_ Hr]. now apply Hr.
Qed.

(** C6 (amended).  [parseTarget] takes the CIDR branch for every string
    that ends with a slash and one or two decimal digits: the result is
    then decided by parsing the whole string as an IPv4 network.  With a
    valid address before the slash and a prefix length up to 32 the
    network is expanded, all [2^(32-p)] addresses of it; with a prefix
    length above 32 the run aborts, and the string does not fall through.
    A string that does not end with a slash and at most two digits
    (possibly followed by one final newline) never takes the CIDR branch:
    it is handled as a bare address when it parses as one, and as a
    literal otherwise, and never raises. *)
Theorem cidr_branch_on_slash_and_digits (args : Args) :
  (forall pre d,
     forallb is_digit d = true -> 1 <= length d <= 2 ->
     let t := pre ++ lit "/" ++ d in
     parseTarget args t
     = (n <- IPv4.IPv4Network t ;;
        Ok (flat_map (assumeIPTarget args) (IPv4.addresses n)))
     /\ (forall a,
           IPv4.IPv4Address pre = Ok a ->
           (IPv4.int_of_digits d <= 32)%Z ->
           let n := IPv4.Network
                      (Z.land a (IPv4.netmask_of (IPv4.int_of_digits d)))
                      (IPv4.int_of_digits d) in
           parseTarget args t
           = Ok (flat_map (assumeIPTarget args) (IPv4.addresses n))
           /\ length (IPv4.addresses n)
              = Z.to_nat (2 ^ (32 - IPv4.int_of_digits d)))
     /\ ((32 < IPv4.int_of_digits d)%Z ->
         exists e, parseTarget args t = Err e))
  /\ (forall t,
        ~ cidr_like t ->
        parseTarget args t
        = Ok (match IPv4.IPv4Address t with
              | Ok a => assumeIPTarget args a
              | Err _ => match assumeURLTarget args t with
                         | [] => [t]
                         | nt => nt
                         end
              end)).
Proof.
  split.
  - intros pre d Hd [Hl1 Hl2] t.
    assert (Hbranch : parseTarget args t
              = (n <- IPv4.IPv4Network t ;;
                 Ok (flat_map (assumeIPTarget args) (IPv4.addresses n)))).
    { unfold parseTarget. subst t. rewrite is_cidr_slash_digits by assumption.
      destruct (IPv4.IPv4Network _); reflexivity. }
    split; [exact Hbranch|]. split.
    + intros a Ha Hp n. split; [|apply addresses_length].
      rewrite Hbranch. subst t.
      rewrite IPv4Network_valid with (a := a) by assumption. reflexivity.
    + intros Hp. rewrite Hbranch. subst t.
      destruct (@IPv4Network_bad_prefix pre d Hd Hl1 Hp) as (e & ->).
      simpl. eauto.
  - intros t Hc. unfold parseTarget. rewrite (is_cidr_false Hc).
    destruct (IPv4.IPv4Address t); cbn [bind]; [reflexivity|].
    destruct (assumeURLTarget args t); reflexivity.
Qed.

(* ================================================================== *)
(** * The probe *)
(* ================================================================== *)

(** C3. [genericRequestsCallback] reports success, with the response and
    no error, exactly when the transaction completes with a status other
    than 403; a 403 and a raised exception both give a failure with no
    response and the error attached.  The proxy and the target come back
    unchanged in every case. *)
Theorem genericRequestsCallback_classification
    (get : requests_get) (proxy : Proxy) (target : pystr)
    (verify allow_redirects : bool) (headers : option Headers) :
  let hs := match headers with Some h => h | None => [] end in
  let outcome := get target proxy verify allow_redirects hs in
  let r := genericRequestsCallback get proxy target verify allow_redirects
             headers in
  r_proxy r = proxy /\ r_target r = target
  /\ (r_success r = true <->
      exists resp, outcome = Returns resp /\ status_code resp <> 403%Z)
  /\ (forall resp,
        outcome = Returns resp -> status_code resp <> 403%Z ->
        r = MkResult true proxy target (Some resp) None)
  /\ (forall resp,
        outcome = Returns resp -> status_code resp = 403%Z ->
        r = MkResult false proxy target None
              (Some (PlainException (lit "403 Forbidden Response"))))
  /\ (forall e,
        outcome = Raises e ->
        r = MkResult false proxy target None (Some e)).
Proof.
  intros hs outcome r. subst r. unfold genericRequestsCallback.
  fold hs. fold outcome.
  destruct outcome as [resp|e].
  - destruct (Z.eqb_spec (status_code resp) 403) as [E|E]; cbn.
    + repeat split; try discriminate; try congruence.
      intros (resp' & [= <-] & H). congruence.
    + repeat split; try discriminate; try congruence.
      exists resp. auto.
  - cbn. repeat split; try discriminate; try congruence.
    intros (resp' & [=] & _).
Qed.

(* ================================================================== *)
(** * Loading the proxies *)
(* ================================================================== *)

Lemma pvalue_eqb_eq (a b : pvalue) : pvalue_eqb a b = true <-> a = b.
Proof.
  destruct a, b; simpl; rewrite ?andb_true_iff, ?pystr_eqb_eq;
    split; try discriminate; try (intros [-> ->]; reflexivity);
    try (intros ->; reflexivity); try (intros [= -> ->]; auto);
    intros [= ->]; reflexivity.
Qed.

Lemma Proxy_eqb_eq (a b : Proxy) : Proxy_eqb a b = true <-> a = b.
Proof.
  unfold Proxy_eqb. rewrite andb_true_iff, pystr_eqb_eq, pvalue_eqb_eq.
  destruct a, b; simpl. split.
  - intros [-> ->]. reflexivity.
  - intros [= -> ->]. auto.
Qed.

Lemma py_in_false (x : Proxy) (l : list Proxy) :
  py_in x l = false -> ~ In x l.
Proof.
  unfold py_in. intros H Hin.
  assert (existsb (Proxy_eqb x) l = true); [|congruence].
  apply existsb_exists. exists x. split; [exact Hin|now apply Proxy_eqb_eq].
Qed.

(** An invariant of the accumulator is kept by a fold that ends well. *)
Lemma foldM_invariant (A B : Type) (P : B -> Prop) (f : B -> A -> result B) :
  (forall b x b', P b -> f b x = Ok b' -> P b') ->
  forall l b b', P b -> foldM f l b = Ok b' -> P b'.
Proof.
  intros Hf. induction l as [|x l IH]; intros b b' Hb; simpl.
  - intros [= <-]. exact Hb.
  - destruct (f b x) as [b1|e] eqn:E; simpl; [|discriminate].
    apply IH. eapply Hf; eauto.
Qed.

(** The file branch keeps the list free of duplicates and well formed. *)
Lemma add_file_proxy_invariant (proxies proxies' : list Proxy) (line : pystr) :
  NoDup proxies /\ Forall flat proxies ->
  add_file_proxy proxies line = Ok proxies' ->
  NoDup proxies' /\ Forall flat proxies'.
Proof.
  intros [Hnd Hfl]. unfold add_file_proxy.
  destruct (parseProxy (strip line)) as [[scheme url]|e]; simpl;
    [|discriminate].
  destruct (py_in _ proxies) eqn:E; intros [= <-]; [auto|].
  apply py_in_false in E. split.
  - apply NoDup_app; repeat split; auto.
    + repeat constructor. intros [].
    + intros x Hx [<-|[]]. contradiction.
  - apply Forall_app. split; [exact Hfl|].
    repeat constructor. now exists url.
Qed.

(** When every name on the command line is a file, the proxy list has
    no repeated entry and every entry is well formed. *)
Lemma load_proxies_from_files (fs : pystr -> option pystr)
    (proxy_urls : list pystr) (proxies : list Proxy) :
  (forall p, In p proxy_urls -> fs p <> None) ->
  load_proxies fs proxy_urls = Ok proxies ->
  NoDup proxies /\ Forall flat proxies.
Proof.
  unfold load_proxies. intros Hfiles.
  assert (Hgen : forall l acc acc',
    (forall p, In p l -> fs p <> None) ->
    NoDup acc /\ Forall flat acc ->
    foldM (fun proxies p =>
             match fs p with
             | Some content => foldM add_file_proxy (file_lines content) proxies
             | None => add_literal_proxy proxies p
             end) l acc = Ok acc' ->
    NoDup acc' /\ Forall flat acc').
  { induction l as [|p l IH]; intros acc acc' Hl Hacc; simpl.
    - intros [= <-]. exact Hacc.
    - destruct (fs p) as [content|] eqn:E.
      + destruct (foldM add_file_proxy (file_lines content) acc)
          as [acc1|e] eqn:E1; simpl; [|discriminate].
        apply IH; [intros q Hq; apply Hl; now right|].
        eapply (foldM_invariant (fun b => NoDup b /\ Forall flat b));
          [|exact Hacc|exact E1].
        intros b x b'. apply add_file_proxy_invariant.
      + exfalso. apply (Hl p); [now left|exact E]. }
  apply Hgen; [exact Hfiles|]. split; constructor.
Qed.

(** C1: where the code departs from it.  A proxy given twice on the
    command line is kept twice: the literal branch appends the proxy
    wrapped in a second dict, which the membership test, made on the
    unwrapped dict, never finds.  The same proxy twice in a file is kept
    once.  An entry wrapped that way also stops the request phase at its
    first target: [compareSchemes] is handed a dict and [re.search]
    raises. *)
Theorem literal_proxy_given_twice_is_kept_twice :
  load_proxies (fun _ => None) [lit "http://p"; lit "http://p"]
  = Ok [MkProxy (lit "http") (PDict (lit "http") (lit "http://p"));
        MkProxy (lit "http") (PDict (lit "http") (lit "http://p"))]
  /\ load_proxies
       (fun name => if pystr_eqb name (lit "f")
                    then Some (lit "http://p" ++ [newline]
                               ++ lit "http://p" ++ [newline])
                    else None)
       [lit "f"]
     = Ok [MkProxy (lit "http") (PAddr (lit "http://p"))]
  /\ (forall args ready http headers,
        (1 <= process_count args)%Z ->
        let st :=
          run args ready http [lit "http://t"] headers 2
            (init args [MkProxy (lit "http")
                          (PDict (lit "http") (lit "http://p"))]) in
        loc st
        = Raised (TypeError (lit "expected string or bytes-like object"))
        /\ submitted st = []).
Proof.
  split; [reflexivity|]. split; [reflexivity|].
  intros args ready http headers HN st. subst st. unfold init.
  destruct (Z.ltb_spec (process_count args) 1); [lia|].
  split; reflexivity.
Qed.

(* ================================================================== *)
(** * The dispatch loop: the window *)
(* ================================================================== *)

Lemma del_first_length (i : nat) (rs rs' : list WorkItem) :
  del_first i rs = Some rs' -> length rs = S (length rs').
Proof.
  revert rs'; induction rs as [|w rs IH]; intros rs'; simpl; [discriminate|].
  destruct (w_id w =? i); [now intros [= ->]|].
  destruct (del_first i rs) as [r|]; simpl; [|discriminate].
  intros [= <-]. simpl. f_equal. now apply IH.
Qed.

Lemma del_all_length (to_del rs rs' : list WorkItem) :
  del_all to_del rs = Some rs' -> length rs' <= length rs.
Proof.
  revert rs; induction to_del as [|w to_del IH]; intros rs; simpl.
  - now intros [= ->].
  - destruct (del_first (w_id w) rs) as [r|] eqn:E; [|discriminate].
    intros H. apply IH in H. apply del_first_length in E. lia.
Qed.

Section Window.

Variable args : Args.
Variable ready : nat -> nat -> bool.
Variable http : nat -> requests_get.
Variable targets : list pystr.
Variable headers : Headers.

Let N := process_count args.
Let step1 := step args ready http targets headers.

Lemma within_window_step (st : DState) :
  within_window args st -> within_window args (step1 st).
Proof.
  unfold within_window, step1, step, full. fold N. intros [Hle Hsub].
  destruct (loc st) as [ |p|p t|p t|p t|p t| | |e] eqn:El.
  - destruct (ps st); simpl; split; auto; discriminate.
  - destruct (ts st) as [|t ts']; simpl; [split; auto; discriminate|].
    destruct (compareSchemes_of p t) as [[|]|e]; simpl;
      split; auto; discriminate.
  - destruct (Z.eqb_spec (Z.of_nat (length (results st))) N); simpl.
    + split; auto; discriminate.
    + split; auto. intros _ _ _. lia.
  - destruct (scan args ready http headers (clock st) (results st) (stdout st))
      as [[to_del out]|e]; simpl; [|split; auto; discriminate].
    destruct (del_all to_del (results st)) as [rs|] eqn:E; simpl;
      [|split; auto; discriminate].
    apply del_all_length in E. split; [lia|discriminate].
  - destruct (Z.ltb_spec (Z.of_nat (length (results st))) N); simpl.
    + split; auto.
    + split; auto; discriminate.
  - simpl. specialize (Hsub p t eq_refl). split; [|discriminate].
    rewrite length_app. simpl. lia.
  - destruct (results st) as [|w rs] eqn:Er; simpl; rewrite ?Er;
      [split; [exact Hle|discriminate]|].
    destruct (ready (clock st) (w_id w)); simpl.
    + destruct (report args http headers w (stdout st)); simpl;
        rewrite ?Er; [|split; [exact Hle|discriminate]].
      rewrite Nat.eqb_refl. simpl. split; [|discriminate].
      simpl in Hle. lia.
    + split; [exact Hle|discriminate].
  - split; [exact Hle|]. rewrite El. discriminate.
  - split; [exact Hle|]. rewrite El. discriminate.
Qed.

Lemma within_window_run (k : nat) (st : DState) :
  within_window args st ->
  within_window args (run args ready http targets headers k st).
Proof.
  revert st; induction k as [|k IH]; intros st H; simpl; [exact H|].
  apply IH. now apply within_window_step.
Qed.

End Window.

(** C7. For a window [N >= 1], in every state the main logic reaches, the
    list of outstanding results holds at most [N] items, and strictly
    fewer than [N] whenever control is at the point of submitting the next
    one; this holds however the results become ready. *)
Theorem outstanding_within_window
    (args : Args) (ready : nat -> nat -> bool) (http : nat -> requests_get)
    (targets : list pystr) (headers : Headers) (proxies : list Proxy)
    (k : nat) :
  (1 <= process_count args)%Z ->
  let st := run args ready http targets headers k (init args proxies) in
  (Z.of_nat (length (results st)) <= process_count args)%Z
  /\ (forall p t, loc st = Submit p t ->
        (Z.of_nat (length (results st)) < process_count args)%Z).
Proof.
  intros HN st. apply within_window_run.
  unfold init. destruct (Z.ltb_spec (process_count args) 1); [lia|].
  split; simpl; [lia|discriminate].
Qed.

(* ================================================================== *)
(** * The dispatch loop: what is submitted *)
(* ================================================================== *)

Lemma callback_proxy (get : requests_get) (proxy : Proxy) (target : pystr)
    (v a : bool) (h : option Headers) :
  r_proxy (genericRequestsCallback get proxy target v a h) = proxy.
Proof.
  unfold genericRequestsCallback.
  destruct (get _ _ _ _ _) as [resp|e]; [|reflexivity].
  destruct (status_code resp =? 403)%Z; reflexivity.
Qed.

Lemma compareSchemes_of_compatible (p : Proxy) (t : pystr) (b : bool) :
  compareSchemes_of p t = Ok b -> flat p /\ compatible (p, t) = b.
Proof.
  unfold compareSchemes_of, compatible, flat. simpl.
  destruct (p_value p) as [url|k url]; [|discriminate].
  intros [= <-]. eauto.
Qed.

Lemma compareSchemes_of_flat (p : Proxy) (t : pystr) :
  flat p -> compareSchemes_of p t = Ok (compatible (p, t)).
Proof.
  unfold compareSchemes_of, compatible, flat. simpl.
  intros (url & ->). reflexivity.
Qed.

Lemma del_first_skip (i : nat) (pre : list WorkItem) (x : WorkItem)
    (l : list WorkItem) :
  Forall (fun y => w_id y <> i) pre -> w_id x = i ->
  del_first i (pre ++ x :: l) = Some (pre ++ l).
Proof.
  intros Hpre Hx. induction Hpre as [|y pre Hy Hpre IH]; simpl.
  - apply Nat.eqb_eq in Hx. now rewrite Hx.
  - apply Nat.eqb_neq in Hy. rewrite Hy, IH. reflexivity.
Qed.

(** Deleting, one by one, the results picked by a test on their identity
    leaves the others, in order. *)
Lemma del_all_picked (g : nat -> bool) (pre rs : list WorkItem) :
  Forall (fun y => g (w_id y) = false) pre ->
  del_all (filter (fun w => g (w_id w)) rs) (pre ++ rs)
  = Some (pre ++ filter (fun w => negb (g (w_id w))) rs).
Proof.
  revert pre; induction rs as [|x rs IH]; intros pre Hpre; simpl.
  - reflexivity.
  - destruct (g (w_id x)) eqn:Ex; simpl.
    + rewrite del_first_skip; auto.
      eapply Forall_impl; [|exact Hpre]. simpl. intros y Hy Heq.
      congruence.
    + specialize (IH (pre ++ [x])). rewrite <- !app_assoc in IH.
      apply IH. apply Forall_app. split; [exact Hpre|].
      repeat constructor. exact Ex.
Qed.

Lemma del_first_Forall (P : WorkItem -> Prop) (i : nat)
    (rs rs' : list WorkItem) :
  del_first i rs = Some rs' -> Forall P rs -> Forall P rs'.
Proof.
  revert rs'; induction rs as [|w rs IH]; intros rs'; simpl; [discriminate|].
  destruct (w_id w =? i).
  - intros [= <-] H. now inversion H.
  - destruct (del_first i rs) as [r|]; simpl; [|discriminate].
    intros [= <-] H. inversion H; subst. constructor; auto.
Qed.

Lemma del_all_Forall (P : WorkItem -> Prop) (to_del rs rs' : list WorkItem) :
  del_all to_del rs = Some rs' -> Forall P rs -> Forall P rs'.
Proof.
  revert rs; induction to_del as [|w to_del IH]; intros rs; simpl.
  - now intros [= ->].
  - destruct (del_first (w_id w) rs) as [r|] eqn:E; [|discriminate].
    intros H HP. eapply IH; eauto. eapply del_first_Forall; eauto.
Qed.

Lemma filter_length_same (A : Type) (f : A -> bool) (l : list A) :
  length (filter f l) = length l -> filter f l = l.
Proof.
  induction l as [|x l IH]; simpl; [reflexivity|].
  destruct (f x); simpl.
  - intros [= H]. now rewrite IH.
  - intros H. pose proof (filter_length_le f l). lia.
Qed.

Lemma run_add args ready http targets headers (k1 k2 : nat) (st : DState) :
  run args ready http targets headers (k1 + k2) st
  = run args ready http targets headers k2
      (run args ready http targets headers k1 st).
Proof.
  revert st; induction k1 as [|k1 IH]; intros st; simpl; auto.
Qed.

Section Submissions.

Variable args : Args.
Variable ready : nat -> nat -> bool.
Variable http : nat -> requests_get.
Variable targets : list pystr.
Variable headers : Headers.

(** The eligible pairs of the proxy list the loop started from. *)
Variable E : list (Proxy * pystr).

Let N := process_count args.
Let step1 := step args ready http targets headers.
Let run1 := run args ready http targets headers.

Lemma report_ok (w : WorkItem) (out : list pystr) :
  flat (w_proxy w) -> exists out', report args http headers w out = Ok out'.
Proof.
  intros (url & Hurl). unfold report, printResult, get_result.
  rewrite callback_proxy, Hurl.
  destruct (r_success _); simpl; [eauto|].
  destruct (display_failures args); simpl; eauto.
Qed.

Lemma scan_ok (now : nat) (rs : list WorkItem) (out : list pystr) :
  Forall (fun w => flat (w_proxy w)) rs ->
  exists out',
    scan args ready http headers now rs out
    = Ok (filter (fun w => ready now (w_id w)) rs, out').
Proof.
  intros H; revert out; induction H as [|w rs Hw Hrs IH]; intros out; simpl.
  - eauto.
  - destruct (ready now (w_id w)); [|apply IH].
    destruct (report_ok w out Hw) as (out1 & ->). simpl.
    destruct (IH out1) as (out2 & ->). simpl. eauto.
Qed.

Lemma eligible_cons (p : Proxy) (ps' : list Proxy) :
  eligible (p :: ps') targets
  = filter compatible (map (pair p) targets) ++ eligible ps' targets.
Proof. unfold eligible. simpl. apply filter_app. Qed.

Lemma sound_step (st : DState) :
  sound targets E st -> sound targets E (step1 st).
Proof.
  unfold sound, results_flat, accounted, step1, step.
  intros (Hfl & Hcur & Hacc).
  destruct (loc st) as [ |p|p t|p t|p t|p t| | |e] eqn:El;
    unfold pending in Hacc; try rewrite El in Hacc;
    try (assert (Hp : flat p) by (now apply (Hcur p t))).
  - (* ForProxy *)
    destruct (ps st) as [|p ps'] eqn:Eps; simpl;
      repeat split; auto; try discriminate.
    unfold pending. simpl. now rewrite <- eligible_cons.
  - (* ForTarget *)
    destruct (ts st) as [|t ts'] eqn:Ets; simpl;
      [repeat split; auto; discriminate|].
    destruct (compareSchemes_of p t) as [b|e] eqn:Ec.
    + apply compareSchemes_of_compatible in Ec as [Hp Hb].
      simpl in Hacc. rewrite Hb in Hacc.
      destruct b; simpl; repeat split; auto; try discriminate.
      intros p0 t0 [= <- <-]. exact Hp.
    + simpl. repeat split; auto; try discriminate. eauto.
  - (* WhileFull *)
    destruct (full args st); simpl; repeat split; auto;
      intros p0 t0 [= <- <-]; exact Hp.
  - (* Scan *)
    destruct (scan args ready http headers (clock st) (results st) (stdout st))
      as [[to_del out]|e]; simpl;
      [|repeat split; auto; try discriminate; eauto].
    destruct (del_all to_del (results st)) as [rs|] eqn:Ed; simpl;
      [|repeat split; auto; try discriminate; eauto].
    repeat split; auto;
      try (intros p0 t0 [= <- <-]; exact Hp).
    eapply del_all_Forall; eauto.
  - (* BreakOrSleep *)
    destruct (_ <? _)%Z; simpl; repeat split; auto;
      intros p0 t0 [= <- <-]; exact Hp.
  - (* Submit *)
    simpl. repeat split; try discriminate.
    + apply Forall_app. split; [exact Hfl|].
      repeat constructor. exact Hp.
    + unfold pending. simpl. rewrite map_app, <- app_assoc. exact Hacc.
  - (* Drain *)
    destruct (results st) as [|w rs] eqn:Er; simpl;
      [rewrite ?Er; repeat split; auto; discriminate|].
    destruct (ready (clock st) (w_id w)); simpl;
      [|rewrite ?Er; repeat split; auto; discriminate].
    destruct (report args http headers w (stdout st)); simpl;
      rewrite ?Nat.eqb_refl; simpl; rewrite ?Er;
      repeat split; auto; try discriminate; eauto.
    now inversion Hfl.
  - rewrite El. repeat split; auto. unfold pending. now rewrite El.
  - rewrite El. repeat split; auto.
Qed.

Lemma sound_run (k : nat) (st : DState) :
  sound targets E st -> sound targets E (run1 k st).
Proof.
  revert st; induction k as [|k IH]; intros st H; simpl; [exact H|].
  apply IH. now apply sound_step.
Qed.

Lemma sound_prefix (st : DState) :
  sound targets E st -> exists rest, map pair_of (submitted st) ++ rest = E.
Proof.
  intros (_ & _ & H). unfold accounted in H.
  destruct (loc st); eauto.
Qed.

End Submissions.

Section Progress.

Variable args : Args.
Variable ready : nat -> nat -> bool.
Variable http : nat -> requests_get.
Variable targets : list pystr.
Variable headers : Headers.

Let N := process_count args.
Let step1 := step args ready http targets headers.
Let run1 := run args ready http targets headers.

Lemma step_ForProxy_nil (st : DState) :
  loc st = ForProxy -> ps st = [] -> step1 st = at_loc Drain st.
Proof. intros Hl Hp. unfold step1, step. now rewrite Hl, Hp. Qed.

Lemma step_ForProxy_cons (st : DState) (p : Proxy) (ps' : list Proxy) :
  loc st = ForProxy -> ps st = p :: ps' ->
  step1 st = MkState (ForTarget p) ps' targets (results st) (next_id st)
                     (clock st) (submitted st) (stdout st).
Proof. intros Hl Hp. unfold step1, step. now rewrite Hl, Hp. Qed.

Lemma step_ForTarget_nil (st : DState) (p : Proxy) :
  loc st = ForTarget p -> ts st = [] -> step1 st = at_loc ForProxy st.
Proof. intros Hl Ht. unfold step1, step. now rewrite Hl, Ht. Qed.

Lemma step_ForTarget_cons (st : DState) (p : Proxy) (t : pystr)
    (ts' : list pystr) :
  loc st = ForTarget p -> ts st = t :: ts' -> flat p ->
  step1 st = MkState (if compatible (p, t) then WhileFull p t else ForTarget p)
                     (ps st) ts' (results st) (next_id st) (clock st)
                     (submitted st) (stdout st).
Proof.
  intros Hl Ht Hp. unfold step1, step.
  rewrite Hl, Ht, (compareSchemes_of_flat t Hp).
  destruct (compatible (p, t)); reflexivity.
Qed.

Lemma step_WhileFull (st : DState) (p : Proxy) (t : pystr) :
  loc st = WhileFull p t ->
  step1 st = at_loc (if full args st then Scan p t else Submit p t) st.
Proof.
  intros Hl. unfold step1, step. rewrite Hl.
  destruct (full args st); reflexivity.
Qed.

Lemma step_Scan (st : DState) (p : Proxy) (t : pystr) :
  loc st = Scan p t -> results_flat st ->
  exists out,
    step1 st
    = MkState (BreakOrSleep p t) (ps st) (ts st)
        (filter (fun w => negb (ready (clock st) (w_id w))) (results st))
        (next_id st) (clock st) (submitted st) out.
Proof.
  intros Hl Hfl. unfold step1, step. rewrite Hl.
  destruct (scan_ok args ready http headers (clock st) (stdout st) Hfl)
    as (out & ->).
  pose proof (@del_all_picked (ready (clock st)) [] (results st)
                (Forall_nil _)) as Hd.
  simpl in Hd. rewrite Hd. eauto.
Qed.

Lemma step_BreakOrSleep (st : DState) (p : Proxy) (t : pystr) :
  loc st = BreakOrSleep p t ->
  step1 st
  = if (Z.of_nat (length (results st)) <? N)%Z
    then at_loc (Submit p t) st
    else MkState (WhileFull p t) (ps st) (ts st) (results st) (next_id st)
                 (clock st + 2) (submitted st) (stdout st).
Proof. intros Hl. unfold step1, step. now rewrite Hl. Qed.

Lemma step_Submit (st : DState) (p : Proxy) (t : pystr) :
  loc st = Submit p t ->
  step1 st
  = MkState (ForTarget p) (ps st) (ts st)
      (results st ++ [MkWork (next_id st) p t]) (S (next_id st))
      (clock st + 1) (submitted st ++ [MkWork (next_id st) p t]) (stdout st).
Proof. intros Hl. unfold step1, step. now rewrite Hl. Qed.

Lemma step_Drain_nil (st : DState) :
  loc st = Drain -> results st = [] -> step1 st = at_loc Done st.
Proof. intros Hl Hr. unfold step1, step. now rewrite Hl, Hr. Qed.

Lemma step_Drain_cons (st : DState) (w : WorkItem) (rs : list WorkItem) :
  loc st = Drain -> results st = w :: rs -> flat (w_proxy w) ->
  exists out,
    step1 st
    = if ready (clock st) (w_id w)
      then MkState Drain (ps st) (ts st) rs (next_id st)
             (match rs with [] => clock st | _ => clock st + 2 end)
             (submitted st) out
      else MkState Drain (ps st) (ts st) (w :: rs) (next_id st)
             (clock st + 2) (submitted st) (stdout st).
Proof.
  intros Hl Hr Hw. unfold step1, step. rewrite Hl, Hr.
  destruct (ready (clock st) (w_id w)).
  - destruct (@report_ok args http headers w (stdout st) Hw) as (out & ->).
    simpl. rewrite Nat.eqb_refl. eauto.
  - eauto.
Qed.

Lemma live_step (st : DState) : live st -> live (step1 st).
Proof.
  intros (Hfl & Hps & Hft & Hcur & Hne).
  destruct (loc st) as [ |p|p t|p t|p t|p t| | |e] eqn:El.
  - destruct (ps st) as [|p ps'] eqn:Eps.
    + rewrite step_ForProxy_nil by assumption.
      unfold live, results_flat. simpl. rewrite Eps.
      repeat split; auto; discriminate.
    + rewrite (@step_ForProxy_cons st p ps' El Eps). unfold live, results_flat. simpl.
      inversion Hps; subst.
      repeat split; auto; try discriminate. now intros p0 [= <-].
  - assert (Hp : flat p) by now apply Hft.
    destruct (ts st) as [|t ts'] eqn:Ets.
    + rewrite (@step_ForTarget_nil st p El Ets). unfold live, results_flat. simpl.
      repeat split; auto; discriminate.
    + rewrite (@step_ForTarget_cons st p t ts' El Ets Hp). unfold live, results_flat.
      simpl. destruct (compatible (p, t)); repeat split; auto;
        try discriminate; try (now intros p0 [= <-]).
      now intros p0 t0 [= <- <-].
  - assert (Hp : flat p) by now apply (Hcur p t).
    rewrite (@step_WhileFull st p t El). unfold live, results_flat. simpl.
    destruct (full args st); repeat split; auto; try discriminate;
      now intros p0 t0 [= <- <-].
  - assert (Hp : flat p) by now apply (Hcur p t).
    destruct (@step_Scan st p t El Hfl) as (out & ->).
    unfold live, results_flat. simpl.
    repeat split; auto; try discriminate;
      try (now intros p0 t0 [= <- <-]).
    apply Forall_forall. intros w Hw. apply filter_In in Hw as [Hw _].
    unfold results_flat in Hfl. rewrite Forall_forall in Hfl. now apply Hfl.
  - assert (Hp : flat p) by now apply (Hcur p t).
    rewrite (@step_BreakOrSleep st p t El). unfold live, results_flat.
    destruct (_ <? _)%Z; simpl; repeat split; auto; try discriminate;
      now intros p0 t0 [= <- <-].
  - assert (Hp : flat p) by now apply (Hcur p t).
    rewrite (@step_Submit st p t El). unfold live, results_flat. simpl.
    repeat split; auto; try discriminate;
      try (now intros p0 [= <-]).
    apply Forall_app. split; [exact Hfl|]. repeat constructor. exact Hp.
  - destruct (results st) as [|w rs] eqn:Er.
    + rewrite (@step_Drain_nil st El Er). unfold live, results_flat. simpl.
      rewrite Er. repeat split; auto; discriminate.
    + unfold results_flat in Hfl. rewrite Er in Hfl.
      assert (Hw : flat (w_proxy w)) by now inversion Hfl.
      destruct (@step_Drain_cons st w rs El Er Hw) as (out & ->).
      unfold live, results_flat.
      destruct (ready (clock st) (w_id w)); simpl;
        repeat split; auto; try discriminate.
      now inversion Hfl.
  - unfold step1, step. rewrite El. unfold live. rewrite El.
    repeat split; auto; discriminate.
  - now elim (Hne e).
Qed.

Lemma live_run (k : nat) (st : DState) : live st -> live (run1 k st).
Proof.
  revert st; induction k as [|k IH]; intros st H; simpl; [exact H|].
  apply IH. now apply live_step.
Qed.

Hypothesis window : (1 <= N)%Z.

(** Every asynchronous result is ready from some instant on. *)
Hypothesis eventually_ready :
  forall i, exists t0, forall t, t0 <= t -> ready t i = true.

Lemma reach_step (Q : DState -> Prop) (st : DState) :
  (exists k, Q (run1 k (step1 st))) -> exists k, Q (run1 k st).
Proof. intros (k & H). now exists (S k). Qed.

Lemma reach_run (Q : DState -> Prop) (k1 : nat) (st : DState) :
  (exists k, Q (run1 k (run1 k1 st))) -> exists k, Q (run1 k st).
Proof.
  intros (k & H). exists (k1 + k). unfold run1. now rewrite run_add.
Qed.

(** One round of the polling loop on a full list: either a result was
    ready, and control leaves the loop to submit, or none was, and the
    loop sleeps and comes back with the same list. *)
Lemma poll_round (p : Proxy) (t : pystr) (st : DState) :
  live st -> loc st = WhileFull p t -> full args st = true ->
  let st3 := run1 3 st in
  ps st3 = ps st /\ ts st3 = ts st
  /\ (loc st3 = Submit p t
      \/ (loc st3 = WhileFull p t /\ results st3 = results st
          /\ clock st3 = clock st + 2
          /\ forall w, In w (results st) ->
                       ready (clock st) (w_id w) = false)).
Proof.
  intros Hlive Hl Ef st3. subst st3.
  change (run1 3 st) with (step1 (step1 (step1 st))).
  rewrite (@step_WhileFull st p t Hl), Ef.
  destruct (@step_Scan (at_loc (Scan p t) st) p t eq_refl (proj1 Hlive))
    as (out & ->).
  cbn [at_loc ps ts results next_id clock submitted stdout].
  erewrite step_BreakOrSleep by reflexivity.
  cbn [ps ts results next_id clock submitted stdout].
  set (keep := filter (fun w => negb (ready (clock st) (w_id w))) (results st)).
  destruct (Z.ltb_spec (Z.of_nat (length keep)) N) as [Hlt|Hge].
  - cbn. auto.
  - assert (Hsame : keep = results st).
    { apply filter_length_same. fold keep.
      pose proof (filter_length_le
                    (fun w => negb (ready (clock st) (w_id w))) (results st))
        as Hle. fold keep in Hle.
      unfold full in Ef. fold N in Ef. apply Z.eqb_eq in Ef. lia. }
    cbn. repeat split; auto. right. repeat split; auto.
    intros w Hin. rewrite <- Hsame in Hin. apply filter_In in Hin as [_ Hin].
    now apply negb_true_iff in Hin.
Qed.

(** The polling loop ends: the head of [results] becomes ready at the
    latest at [t0], and then the list is no longer full. *)
Lemma poll_ends_within (p : Proxy) (t : pystr) (w : WorkItem) (t0 : nat)
    (ps0 : list Proxy) (ts0 : list pystr) :
  (forall c, t0 <= c -> ready c (w_id w) = true) ->
  forall d st,
    t0 - clock st <= d -> live st -> loc st = WhileFull p t ->
    In w (results st) -> ps st = ps0 -> ts st = ts0 ->
    exists k, submitting p t ps0 ts0 (run1 k st).
Proof.
  intros Hw. induction d as [|d IH]; intros st Hd Hlive Hl Hin Hps Hts.
  all: destruct (full args st) eqn:Ef;
    [|exists 1; simpl; fold step1;
      rewrite (@step_WhileFull st p t Hl), Ef; now split].
  all: destruct (poll_round Hlive Hl Ef)
         as (Hps3 & Hts3 & [Hsub|(Hl3 & Hr3 & Hc3 & Hnone)]);
    [exists 3; split; [exact Hsub|split; congruence]|].
  all: specialize (Hnone w Hin).
  all: assert (Hclock : clock st < t0)
    by (destruct (Nat.lt_ge_cases (clock st) t0) as [|Hge']; [assumption|];
        rewrite (Hw _ Hge') in Hnone; discriminate).
  - lia.
  - apply (reach_run _ 3). apply IH; try congruence.
    + lia.
    + now apply live_run.
Qed.

Lemma poll_ends (p : Proxy) (t : pystr) (st : DState) :
  live st -> loc st = WhileFull p t ->
  exists k, submitting p t (ps st) (ts st) (run1 k st).
Proof.
  intros Hlive Hl.
  destruct (full args st) eqn:Ef.
  - destruct (results st) as [|w rs] eqn:Er.
    + unfold full in Ef. rewrite Er in Ef. fold N in Ef.
      apply Z.eqb_eq in Ef. simpl in Ef. lia.
    + destruct (eventually_ready (w_id w)) as (t0 & Ht0).
      apply (@poll_ends_within p t w t0 (ps st) (ts st) Ht0
               (t0 - clock st) st); auto.
      rewrite Er. now left.
  - exists 1. simpl. fold step1. rewrite (@step_WhileFull st p t Hl), Ef.
    now split.
Qed.

(** The loop over the targets ends, whatever is left to visit. *)
Lemma inner_loop_ends (ts0 : list pystr) :
  forall st p ps0,
    live st -> loc st = ForTarget p -> ts st = ts0 -> ps st = ps0 ->
    exists k, at_for_proxy ps0 (run1 k st).
Proof.
  induction ts0 as [|t ts' IH]; intros st p ps0 Hlive Hl Hts Hps.
  - apply reach_step. rewrite (@step_ForTarget_nil st p Hl Hts).
    exists 0. now split.
  - assert (Hp : flat p) by (now apply Hlive).
    pose proof (live_step Hlive) as Hlive1.
    apply reach_step.
    rewrite (@step_ForTarget_cons st p t ts' Hl Hts Hp) in *.
    destruct (compatible (p, t)).
    + destruct (@poll_ends p t _ Hlive1 eq_refl) as (k1 & Hs1 & Hs2 & Hs3).
      cbn [ps ts] in Hs2, Hs3.
      apply (reach_run _ k1).
      pose proof (live_run k1 Hlive1) as Hlive2.
      pose proof (live_step Hlive2) as Hlive3.
      apply reach_step.
      rewrite (@step_Submit _ p t Hs1) in *.
      apply (IH _ p); auto; cbn [ps ts]; congruence.
    + apply (IH _ p); auto.
Qed.

(** The loop over the proxies ends. *)
Lemma outer_loop_ends (ps0 : list Proxy) :
  forall st, live st -> loc st = ForProxy -> ps st = ps0 ->
             exists k, draining (run1 k st).
Proof.
  induction ps0 as [|p ps' IH]; intros st Hlive Hl Hps.
  - apply reach_step. rewrite (@step_ForProxy_nil st Hl Hps). now exists 0.
  - pose proof (live_step Hlive) as Hlive1.
    apply reach_step. rewrite (@step_ForProxy_cons st p ps' Hl Hps) in *.
    destruct (@inner_loop_ends targets _ p ps' Hlive1 eq_refl eq_refl eq_refl)
      as (k1 & Hf1 & Hf2).
    apply (reach_run _ k1). apply IH; auto. now apply live_run.
Qed.

(** The head of [results] is reported and removed once it is ready. *)
Lemma drain_head (w : WorkItem) (rs : list WorkItem) (t0 : nat) :
  (forall c, t0 <= c -> ready c (w_id w) = true) ->
  forall d st,
    t0 - clock st <= d -> live st -> loc st = Drain ->
    results st = w :: rs ->
    exists k, drained_to rs (run1 k st).
Proof.
  intros Hw. induction d as [|d IH]; intros st Hd Hlive Hl Hr.
  all: assert (Hfw : flat (w_proxy w))
    by (destruct Hlive as (Hfl & _); unfold results_flat in Hfl;
        rewrite Hr in Hfl; now inversion Hfl).
  all: pose proof (live_step Hlive) as Hlive1.
  all: destruct (@step_Drain_cons st w rs Hl Hr Hfw) as (out & Hstep).
  all: destruct (ready (clock st) (w_id w)) eqn:Er;
    [exists 1; simpl; fold step1; rewrite Hstep; now split|].
  all: assert (Hclock : clock st < t0)
    by (destruct (Nat.lt_ge_cases (clock st) t0) as [|Hge']; [assumption|];
        rewrite (Hw _ Hge') in Er; discriminate).
  - lia.
  - apply reach_step. rewrite Hstep in *. apply IH; auto.
    cbn [clock]. lia.
Qed.

(** The final loop empties [results]. *)
Lemma drain_ends (n : nat) :
  forall st, length (results st) = n -> live st -> loc st = Drain ->
             exists k, finished (run1 k st).
Proof.
  induction n as [|n IH]; intros st Hn Hlive Hl.
  - destruct (results st) eqn:Er; [|discriminate].
    apply reach_step. rewrite (@step_Drain_nil st Hl Er).
    exists 0. now split.
  - destruct (results st) as [|w rs] eqn:Er; [discriminate|].
    destruct (eventually_ready (w_id w)) as (t0 & Ht0).
    destruct (@drain_head w rs t0 Ht0 (t0 - clock st) st (le_n _) Hlive Hl Er)
      as (k1 & Hd1 & Hd2).
    apply (reach_run _ k1). apply IH; auto.
    + rewrite Hd2. simpl in Hn. lia.
    + now apply live_run.
Qed.

(** From well-formed proxies the main logic runs to its end. *)
Lemma dispatch_ends (proxies : list Proxy) :
  Forall flat proxies ->
  exists k, finished (run1 k (init args proxies)).
Proof.
  intros Hflat.
  assert (Hinit : init args proxies
                  = MkState ForProxy proxies [] [] 0 0 [] []).
  { unfold init. fold N. destruct (Z.ltb_spec N 1); [lia|reflexivity]. }
  rewrite Hinit.
  assert (Hlive : live (MkState ForProxy proxies [] [] 0 0 [] [])).
  { unfold live, results_flat. simpl. repeat split; auto; discriminate. }
  destruct (@outer_loop_ends proxies _ Hlive eq_refl eq_refl) as (k1 & Hd).
  apply (reach_run _ k1).
  apply (drain_ends eq_refl); [now apply live_run|exact Hd].
Qed.

End Progress.

Lemma sound_init (args : Args) (proxies : list Proxy) (targets : list pystr) :
  sound targets (eligible proxies targets) (init args proxies).
Proof.
  unfold sound, results_flat, accounted, init.
  destruct (process_count args <? 1)%Z; simpl.
  - repeat split; auto; try discriminate. eauto.
  - repeat split; auto; discriminate.
Qed.

(** X17. What holds of the submissions.  At every moment of a run, for
    any proxy and target lists, the pairs submitted so far are a prefix
    of [eligible proxies targets]: the pairs of the cross product, taken
    once each in loop order, whose proxy is a well-formed dict
    [{scheme: url}] and whose [url] and target [compareSchemes] accepts.
    So no pair that [compareSchemes] refuses is submitted and no pair is
    submitted again, however the probes end.  From well-formed proxies
    (as the file branch of the loader builds them), with a window of at
    least one and every probe ending at some point, the loop runs to its
    end and has then submitted exactly that list.  A proxy wrapped by the
    command-line branch is no such dict: no pair of it is in [eligible],
    and the run stops at it. *)
Theorem one_submission_per_compatible_pair
    (args : Args) (ready : nat -> nat -> bool) (http : nat -> requests_get)
    (targets : list pystr) (headers : Headers) (proxies : list Proxy) :
  let at_step k := run args ready http targets headers k (init args proxies) in
  (forall k, exists rest,
     map pair_of (submitted (at_step k)) ++ rest = eligible proxies targets)
  /\ ((1 <= process_count args)%Z ->
      Forall flat proxies ->
      (forall i, exists t0, forall t, t0 <= t -> ready t i = true) ->
      exists k,
        loc (at_step k) = Done
        /\ results (at_step k) = []
        /\ map pair_of (submitted (at_step k)) = eligible proxies targets).
Proof.
  intros at_step.
  assert (Hsound : forall k, sound targets (eligible proxies targets) (at_step k)).
  { intros k. apply sound_run. apply sound_init. }
  split.
  - intros k. eapply sound_prefix. apply Hsound.
  - intros HN Hflat Hready.
    destruct (@dispatch_ends args ready http targets headers HN Hready
                proxies Hflat) as (k & Hdone & Hres).
    exists k. fold (at_step k) in Hdone, Hres.
    repeat split; auto.
    destruct (Hsound k) as (_ & _ & Hacc). unfold accounted in Hacc.
    rewrite Hdone in Hacc. unfold pending in Hacc. rewrite Hdone in Hacc.
    now rewrite app_nil_r in Hacc.
Qed.

(** A run with a window of two, one proxy and three targets. *)
Lemma outstanding_within_window_witness :
  let args := MkArgs false 2 false false in
  let ready := fun t i : nat => 3 <=? t in
  let http : nat -> requests_get :=
    fun _ _ _ _ _ _ => Returns (MkResponse 200 []) in
  let targets := [lit "http://t1"; lit "http://t2"; lit "http://t3"] in
  let proxies := [MkProxy (lit "http") (PAddr (lit "http://p1"))] in
  (1 <= process_count args)%Z
  /\ (let st := run args ready http targets [] 12 (init args proxies) in
      (Z.of_nat (length (results st)) <= process_count args)%Z
      /\ (forall p t, loc st = Submit p t ->
            (Z.of_nat (length (results st)) < process_count args)%Z)).
Proof.
  intros args ready http targets proxies.
  split; [simpl; lia|].
  apply (@outstanding_within_window args ready http targets [] proxies 12).
  simpl; lia.
Defined.

(** One proxy, one target, a window of one: one work item. *)
Lemma one_submission_witness :
  let args := MkArgs false 1 false false in
  let ready := fun t i : nat => true in
  let http : nat -> requests_get :=
    fun _ _ _ _ _ _ => Returns (MkResponse 200 []) in
  let targets := [lit "http://t1"] in
  let proxies := [MkProxy (lit "http") (PAddr (lit "http://p1"))] in
  let at_step k := run args ready http targets [] k (init args proxies) in
  ((1 <= process_count args)%Z
   /\ Forall flat proxies
   /\ (forall i, exists t0, forall t, t0 <= t -> ready t i = true))
  /\ (forall k, exists rest,
        map pair_of (submitted (at_step k)) ++ rest = eligible proxies targets)
  /\ (exists k,
        loc (at_step k) = Done
        /\ results (at_step k) = []
        /\ map pair_of (submitted (at_step k)) = eligible proxies targets).
Proof.
  intros args ready http targets proxies at_step.
  assert (H1 : (1 <= process_count args)%Z) by (simpl; lia).
  assert (H2 : Forall flat proxies)
    by (repeat constructor; eexists; reflexivity).
  assert (H3 : forall i, exists t0, forall t, t0 <= t -> ready t i = true)
    by (intros i; exists 0; reflexivity).
  split; [auto|].
  destruct (@one_submission_per_compatible_pair args ready http targets []
              proxies) as [Hsafe Hlive].
  split; [exact Hsafe|exact (Hlive H1 H2 H3)].
Defined.

(* ================================================================== *)
(** * Further properties: proxy strings *)
(* ================================================================== *)

Lemma to_lower_punct (a : ascii) :
  (to_lower a = ":"%char -> a = ":"%char)
  /\ (to_lower a = "/"%char -> a = "/"%char).
Proof.
  destruct a as [[] [] [] [] [] [] [] []]; vm_compute;
    split; intros H; try discriminate H; reflexivity.
Qed.

Lemma cls_match_icase (c a : ascii) :
  cls_match true (CLit c) a = true -> to_lower a = to_lower c.
Proof.
  unfold cls_match. intros H. apply Ascii.eqb_eq in H. congruence.
Qed.

(** Whatever [proxy_re] matches has the shape of a proxy string, and its
    first group is the scheme followed by [://]. *)
Lemma proxy_match_shape (s : pystr) (st' : mstate) :
  Matches true proxy_re (MState 0 s []) st' ->
  exists scheme g2,
    proxy_shape s scheme
    /\ mgrp st' = [(2, g2); (1, scheme ++ lit "://")]
    /\ hd [] (split_on ":"%char (scheme ++ lit "://")) = scheme.
Proof.
  unfold proxy_re, Plus, Opt. cbn [Matches mpos mrest mgrp].
  intros (m1 & [_ ->] & m2
          & (s1 & (m3 & (w1 & Hr1 & HF1 & Hp1 & Hg1)
                   & m4 & (w2 & Hr2 & HF2 & _ & Hh2 & Hp2 & Hg2)
                   & (w3 & Hr3 & HF3 & Hp3 & Hg3)) & ->)
          & (s5 & (w5 & Hr5 & HF5 & Hl5 & _ & Hp5 & Hg5) & ->)).
  cbn [mpos mrest mgrp] in *.
  assert (Hg : firstn (mpos s1 - 0) s = (w1 ++ w2) ++ w3).
  { rewrite Nat.sub_0_r, Hp3, Hp2, Hp1, Hr1, Hr2, Hr3. simpl.
    rewrite !app_assoc, <- !length_app. apply firstn_app_exact. }
  exists (w1 ++ w2), (firstn (mpos s5 - mpos s1) (mrest s1)).
  assert (Hw3 : w3 = lit "://").
  { inversion HF3 as [|? a0 ? l0 H0 HF3']; subst.
    inversion HF3' as [|? a1 ? l1 H1 HF3'']; subst.
    inversion HF3'' as [|? a2 ? l2 H2 HF3''']; subst.
    inversion HF3'''; subst.
    apply cls_match_icase, to_lower_punct in H0, H1, H2. now subst. }
  assert (Hw5 : exists c rest, w5 ++ mrest s5 = c :: rest /\ c <> newline).
  { destruct w5 as [|c w5]; [simpl in Hl5; lia|].
    exists c, (w5 ++ mrest s5). split; [reflexivity|].
    inversion HF5; subst. unfold cls_match in *.
    intros ->. discriminate. }
  destruct Hw5 as (c & rest & Hcr & Hc).
  assert (Hw1 : map to_lower w1 = lit "http").
  { inversion HF1 as [|? a0 ? l0 H0 HF1']; subst.
    inversion HF1' as [|? a1 ? l1 H1 HF1'']; subst.
    inversion HF1'' as [|? a2 ? l2 H2 HF1''']; subst.
    inversion HF1''' as [|? a3 ? l3 H3 HF1'''']; subst.
    inversion HF1''''; subst.
    apply cls_match_icase in H0, H1, H2, H3. simpl. now rewrite H0, H1, H2, H3. }
  assert (Hw2 : w2 = [] \/ exists x, w2 = [x] /\ to_lower x = "s"%char).
  { destruct w2 as [|x [|y w2]]; auto.
    - right. exists x. split; [reflexivity|].
      inversion HF2 as [|? ? Hx _]; subst. exact (cls_match_icase _ _ Hx).
    - specialize (Hh2 1 eq_refl). simpl in Hh2. lia. }
  assert (Hscheme : map to_lower (w1 ++ w2) = lit "http"
                    \/ map to_lower (w1 ++ w2) = lit "https").
  { rewrite map_app, Hw1. destruct Hw2 as [->|(x & -> & Hx)].
    - now left.
    - right. simpl. now rewrite Hx. }
  repeat split.
  - exists c, rest. repeat split; auto.
    rewrite Hr1, Hr2, Hr3, Hr5, Hcr, Hw3, <- !app_assoc. reflexivity.
  - rewrite Hg5, Hg3, Hg2, Hg1, Hg, Hw3. reflexivity.
  - clear - Hscheme. enum_scheme Hscheme; reflexivity.
Qed.

Lemma parseProxy_cases (s : pystr) :
  parseProxy s
  = Err (AssertionError (lit "Invalid proxy/proxy file supplied: " ++ s))
  \/ (exists scheme, proxy_shape s scheme /\ parseProxy s = Ok (scheme, s)).
Proof.
  unfold parseProxy.
  assert (Hs : search true proxy_re s = match_at true proxy_re false 0 s)
    by apply search_bol.
  rewrite Hs, match_at_hd.
  destruct (matches true proxy_re (MState 0 s [])) as [|st' l] eqn:E;
    [now left|right].
  assert (Hin : In st' (matches true proxy_re (MState 0 s [])))
    by (rewrite E; now left).
  apply matches_spec, proxy_match_shape in Hin
    as (sch & g2 & Hshape & Hg & Hhd).
  exists sch. split; [exact Hshape|].
  cbn [nth groups seq map group m_groups]. rewrite Hg.
  cbn [group Nat.eqb]. now rewrite Hhd.
Qed.

(** X1. Among the strings of code points below 256 (the strings of this
    model, [pystr]), [parseProxy] accepts exactly those that are [http]
    or [https] in any letter case, then [://], then a character that is
    not a newline; it returns the scheme as written together with the
    whole string, and fails its assertion on every other string of that
    domain.  (Outside the domain [re.I] accepts more: the long s, U+017F,
    in place of the [s].) *)
Theorem parseProxy_accepts_exactly (s : pystr) :
  (forall scheme address,
     parseProxy s = Ok (scheme, address) <->
     address = s /\ proxy_shape s scheme)
  /\ ((forall scheme, ~ proxy_shape s scheme) ->
      parseProxy s
      = Err (AssertionError (lit "Invalid proxy/proxy file supplied: " ++ s))).
Proof.
  split.
  - intros scheme address. split.
    + intros H. destruct (parseProxy_cases s) as [E|(sch & Hs & E)];
        rewrite E in H; [discriminate|].
      injection H as <- <-. auto.
    + intros (-> & c & rest & -> & Hs & Hc). now apply parseProxy_accepts.
  - intros Hno. destruct (parseProxy_cases s) as [E|(sch & Hs & _)];
      [exact E|]. now elim (Hno sch).
Qed.

(* ================================================================== *)
(** * Further properties: loading the proxies *)
(* ================================================================== *)

Section FoldSteps.

Variables A B : Type.
Variable R : B -> B -> Prop.
Variable f : B -> A -> result B.

Hypothesis R_refl : forall b, R b b.
Hypothesis R_trans : forall a b c, R a b -> R b c -> R a c.
Hypothesis f_grows : forall b x b', f b x = Ok b' -> R b b'.

(** A fold that ends well grows its accumulator. *)
Lemma foldM_grows (l : list A) (b b' : B) :
  foldM f l b = Ok b' -> R b b'.
Proof.
  revert b; induction l as [|x l IH]; intros b; simpl.
  - now intros [= <-].
  - destruct (f b x) as [b1|e] eqn:E; simpl; [|discriminate].
    intros H. eapply R_trans; [eapply f_grows; eauto|now apply IH].
Qed.

(** In a fold that ends well every element was processed, and what its
    step produced is kept to the end. *)
Lemma foldM_each (l : list A) (b b' : B) (x : A) :
  foldM f l b = Ok b' -> In x l ->
  exists b1 b2, f b1 x = Ok b2 /\ R b2 b'.
Proof.
  revert b; induction l as [|y l IH]; intros b; simpl; [intros _ []|].
  destruct (f b y) as [b1|e] eqn:E; simpl; [|discriminate].
  intros H [->|Hin].
  - exists b, b1. split; [exact E|]. now apply foldM_grows in H.
  - eapply IH; eauto.
Qed.

End FoldSteps.

Lemma add_file_proxy_grows (acc acc' : list Proxy) (line : pystr) :
  add_file_proxy acc line = Ok acc' -> incl acc acc'.
Proof.
  unfold add_file_proxy.
  destruct (parseProxy (strip line)) as [sp|e]; simpl; [|discriminate].
  destruct (py_in _ acc); intros [= <-];
    [apply incl_refl|now apply incl_appl, incl_refl].
Qed.

Lemma add_literal_proxy_grows (acc acc' : list Proxy) (p : pystr) :
  add_literal_proxy acc p = Ok acc' -> incl acc acc'.
Proof.
  unfold add_literal_proxy.
  destruct (parseProxy p) as [sp|e]; simpl; [|discriminate].
  destruct (py_in _ acc); intros [= <-];
    [apply incl_refl|now apply incl_appl, incl_refl].
Qed.

Lemma py_in_true (x : Proxy) (l : list Proxy) : py_in x l = true -> In x l.
Proof.
  unfold py_in. intros H. apply existsb_exists in H as (y & Hy & E).
  apply Proxy_eqb_eq in E. now subst.
Qed.

(** A line that was processed is a proxy string, and its proxy is in the
    list from then on. *)
Lemma add_file_proxy_adds (acc acc' : list Proxy) (line : pystr) :
  add_file_proxy acc line = Ok acc' ->
  exists scheme,
    proxy_shape (strip line) scheme
    /\ In (MkProxy scheme (PAddr (strip line))) acc'.
Proof.
  unfold add_file_proxy.
  destruct (parseProxy_cases (strip line)) as [E|(scheme & Hs & E)];
    rewrite E; simpl; [discriminate|].
  intros H. exists scheme. split; [exact Hs|].
  destruct (py_in _ acc) eqn:Ein; injection H as <-.
  - now apply py_in_true.
  - apply in_or_app. right. now left.
Qed.

Lemma load_step_grows (fs : pystr -> option pystr) (acc acc' : list Proxy)
    (p : pystr) :
  match fs p with
  | Some content => foldM add_file_proxy (file_lines content) acc
  | None => add_literal_proxy acc p
  end = Ok acc' ->
  incl acc acc'.
Proof.
  destruct (fs p) as [content|].
  - apply (@foldM_grows pystr (list Proxy) (@incl Proxy) add_file_proxy
             (@incl_refl Proxy) (@incl_tran Proxy)
             (fun b x b' => @add_file_proxy_grows b b' x)).
  - apply add_literal_proxy_grows.
Qed.

(** Every line of every proxy file named on the command line is a proxy
    string whose proxy ends up in the list, when loading ends well. *)
Lemma load_proxies_keeps_lines (fs : pystr -> option pystr)
    (proxy_urls : list pystr) (proxies : list Proxy)
    (name content line : pystr) :
  load_proxies fs proxy_urls = Ok proxies ->
  In name proxy_urls -> fs name = Some content ->
  In line (file_lines content) ->
  exists scheme,
    proxy_shape (strip line) scheme
    /\ In (MkProxy scheme (PAddr (strip line))) proxies.
Proof.
  unfold load_proxies. intros Hload Hname Hfs Hline.
  destruct (@foldM_each pystr (list Proxy) (@incl Proxy) _
              (@incl_refl Proxy) (@incl_tran Proxy)
              (fun b x b' => @load_step_grows fs b b' x)
              _ _ _ _ Hload Hname)
    as (b1 & b2 & Hstep & Hincl).
  rewrite Hfs in Hstep.
  destruct (@foldM_each pystr (list Proxy) (@incl Proxy) _
              (@incl_refl Proxy) (@incl_tran Proxy)
              (fun b x b' => @add_file_proxy_grows b b' x)
              _ _ _ _ Hstep Hline)
    as (c1 & c2 & Hadd & Hincl2).
  destruct (@add_file_proxy_adds _ _ _ Hadd) as (scheme & Hs & Hin).
  exists scheme. split; [exact Hs|]. apply Hincl, Hincl2, Hin.
Qed.

Lemma add_file_proxy_shaped (acc acc' : list Proxy) (line : pystr) :
  Forall (fun p => exists url, p_value p = PAddr url
                               /\ proxy_shape url (p_scheme p)) acc ->
  add_file_proxy acc line = Ok acc' ->
  Forall (fun p => exists url, p_value p = PAddr url
                               /\ proxy_shape url (p_scheme p)) acc'.
Proof.
  intros Hacc. unfold add_file_proxy.
  destruct (parseProxy_cases (strip line)) as [E|(scheme & Hs & E)];
    rewrite E; simpl; [discriminate|].
  destruct (py_in _ acc); intros [= <-]; [exact Hacc|].
  apply Forall_app. split; [exact Hacc|].
  repeat constructor. simpl. eauto.
Qed.

Lemma load_files_invariant (P : list Proxy -> Prop)
    (fs : pystr -> option pystr) :
  (forall acc line acc', P acc -> add_file_proxy acc line = Ok acc' -> P acc') ->
  forall proxy_urls acc acc',
    (forall p, In p proxy_urls -> fs p <> None) ->
    P acc ->
    foldM (fun proxies p =>
             match fs p with
             | Some content => foldM add_file_proxy (file_lines content) proxies
             | None => add_literal_proxy proxies p
             end) proxy_urls acc = Ok acc' ->
    P acc'.
Proof.
  intros Hstep. induction proxy_urls as [|p l IH]; intros acc acc' Hl Hacc;
    simpl.
  - now intros [= <-].
  - destruct (fs p) as [content|] eqn:E;
      [|exfalso; apply (Hl p); [now left|exact E]].
    destruct (foldM add_file_proxy (file_lines content) acc)
      as [acc1|e] eqn:E1; simpl; [|discriminate].
    apply IH; [intros q Hq; apply Hl; now right|].
    eapply (foldM_invariant P); [|exact Hacc|exact E1].
    intros b x b'. apply Hstep.
Qed.

Lemma lstrip_blank (l : pystr) : forallb is_space l = true -> lstrip l = [].
Proof.
  induction l as [|c l IH]; simpl; [reflexivity|].
  intros H. apply andb_true_iff in H as [Hc Hl]. rewrite Hc. now apply IH.
Qed.

Lemma strip_blank (l : pystr) : forallb is_space l = true -> strip l = [].
Proof. intros H. unfold strip. now rewrite (@lstrip_blank l H). Qed.

Lemma proxy_shape_nonempty (scheme : pystr) : ~ proxy_shape [] scheme.
Proof.
  intros (c & rest & H & _). destruct scheme; simpl in H; discriminate H.
Qed.

(** X2. When every name given for the proxies is a file, the loaded list
    has no repeated entry, every entry is a dict [{scheme: url}] whose
    [url] is a proxy string with that scheme, and no line is lost: the
    proxy of every line of every file, stripped, is in the list. *)
Theorem proxy_files_load_without_duplicates
    (fs : pystr -> option pystr) (proxy_urls : list pystr)
    (proxies : list Proxy) :
  (forall p, In p proxy_urls -> fs p <> None) ->
  load_proxies fs proxy_urls = Ok proxies ->
  NoDup proxies
  /\ Forall (fun p => exists url, p_value p = PAddr url
                                  /\ proxy_shape url (p_scheme p)) proxies
  /\ (forall name content line,
        In name proxy_urls -> fs name = Some content ->
        In line (file_lines content) ->
        exists scheme, In (MkProxy scheme (PAddr (strip line))) proxies).
Proof.
  intros Hfiles Hload. split; [|split].
  - unfold load_proxies in Hload.
    apply (load_files_invariant (fun l => NoDup l /\ Forall flat l) fs)
      with (acc := []) in Hload; [tauto| |exact Hfiles|split; constructor].
    intros acc line acc'. apply add_file_proxy_invariant.
  - unfold load_proxies in Hload.
    apply (load_files_invariant _ fs
             (fun acc line acc' => @add_file_proxy_shaped acc acc' line))
      with (acc := []) in Hload; [exact Hload|exact Hfiles|constructor].
  - intros name content line Hname Hfs Hline.
    destruct (@load_proxies_keeps_lines fs proxy_urls proxies name content
                line Hload Hname Hfs Hline) as (scheme & _ & Hin).
    eauto.
Qed.

Lemma proxy_files_witness :
  let fs := fun name : pystr =>
    if pystr_eqb name (lit "f")
    then Some (lit "http://p" ++ [newline] ++ lit " http://p " ++ [newline]
               ++ lit "HTTPS://q" ++ [newline])
    else None in
  let proxies := [MkProxy (lit "http") (PAddr (lit "http://p"));
                  MkProxy (lit "HTTPS") (PAddr (lit "HTTPS://q"))] in
  ((forall p, In p [lit "f"] -> fs p <> None)
   /\ load_proxies fs [lit "f"] = Ok proxies)
  /\ NoDup proxies
  /\ Forall (fun p => exists url, p_value p = PAddr url
                                  /\ proxy_shape url (p_scheme p)) proxies
  /\ (forall name content line,
        In name [lit "f"] -> fs name = Some content ->
        In line (file_lines content) ->
        exists scheme, In (MkProxy scheme (PAddr (strip line))) proxies).
Proof.
  intros fs proxies.
  assert (H1 : forall p, In p [lit "f"] -> fs p <> None)
    by (intros p [<-|[]]; discriminate).
  assert (H2 : load_proxies fs [lit "f"] = Ok proxies) by reflexivity.
  split; [auto|].
  exact (@proxy_files_load_without_duplicates fs [lit "f"] proxies H1 H2).
Defined.

(** X3. A proxy file with a line that is not a proxy string once
    stripped, a blank line for one, makes the loading of the proxies
    fail, wherever the file stands on the command line: no line is
    skipped. *)
Theorem bad_proxy_line_aborts
    (fs : pystr -> option pystr) (proxy_urls : list pystr)
    (name content line : pystr) :
  In name proxy_urls -> fs name = Some content ->
  In line (file_lines content) ->
  forallb is_space line = true
  \/ (forall scheme, ~ proxy_shape (strip line) scheme) ->
  exists e, load_proxies fs proxy_urls = Err e.
Proof.
  intros Hname Hfs Hline Hbad.
  destruct (load_proxies fs proxy_urls) as [proxies|e] eqn:E; [|eauto].
  exfalso.
  destruct (@load_proxies_keeps_lines fs proxy_urls proxies name content
              line E Hname Hfs Hline) as (scheme & Hs & _).
  destruct Hbad as [Hblank|Hno].
  - rewrite (@strip_blank line Hblank) in Hs.
    now apply proxy_shape_nonempty in Hs.
  - now apply (Hno scheme).
Qed.

Lemma bad_proxy_line_witness :
  let fs := fun name : pystr =>
    if pystr_eqb name (lit "f")
    then Some (lit "http://p" ++ [newline] ++ [newline]
               ++ lit "http://q" ++ [newline])
    else None in
  (In (lit "f") [lit "http://first"; lit "f"]
   /\ fs (lit "f") = Some (lit "http://p" ++ [newline] ++ [newline]
                           ++ lit "http://q" ++ [newline])
   /\ In [newline] (file_lines (lit "http://p" ++ [newline] ++ [newline]
                                ++ lit "http://q" ++ [newline]))
   /\ forallb is_space [newline] = true)
  /\ exists e, load_proxies fs [lit "http://first"; lit "f"] = Err e.
Proof.
  intros fs.
  assert (H1 : In (lit "f") [lit "http://first"; lit "f"])
    by (right; left; reflexivity).
  assert (H2 : fs (lit "f") = Some (lit "http://p" ++ [newline] ++ [newline]
                                    ++ lit "http://q" ++ [newline]))
    by reflexivity.
  assert (H3 : In [newline] (file_lines (lit "http://p" ++ [newline]
                               ++ [newline] ++ lit "http://q" ++ [newline])))
    by (right; left; reflexivity).
  assert (H4 : forallb is_space [newline] = true) by reflexivity.
  split; [auto|].
  exact (@bad_proxy_line_aborts fs _ _ _ _ H1 H2 H3 (or_introl H4)).
Defined.

(* ================================================================== *)
(** * Further properties: header strings *)
(* ================================================================== *)

Lemma one_line_any (s : pystr) :
  one_line s <-> Forall (fun a => cls_match false CAny a = true) s.
Proof.
  unfold one_line, cls_match. split; intros H;
    (eapply Forall_impl; [|exact H]); simpl; intros a Ha.
  - apply Ascii.eqb_neq in Ha. now rewrite Ha.
  - intros ->. now rewrite Ascii.eqb_refl in Ha.
Qed.

(** The parts of a match of the header pattern. *)
Lemma header_match_parts (h : pystr) (st' : mstate) :
  Matches false header_re (MState 0 h []) st' ->
  exists k ws v,
    h = k ++ ":"%char :: ws ++ v ++ mrest st'
    /\ k <> [] /\ one_line k
    /\ ws <> [] /\ Forall (fun a => is_space a = true) ws
    /\ v <> [] /\ one_line v
    /\ mgrp st' = [(2, v); (1, k)]
    /\ mpos st' <> 0
    /\ at_end (mrest st') = true.
Proof.
  unfold header_re, Plus. cbn [Matches mpos mrest mgrp].
  intros (m1 & [_ ->] & m2 & (s1 & (w1 & Hh & HF1 & Hl1 & _ & Hp1 & Hg1) & ->)
          & m3 & (w3 & Hr3 & HF3 & Hp3 & Hg3)
          & m4 & (w4 & Hr4 & HF4 & Hl4 & _ & Hp4 & Hg4)
          & m5 & (s5 & (w5 & Hr5 & HF5 & Hl5 & _ & Hp5 & Hg5) & ->)
          & Hend & ->).
  cbn [mpos mrest mgrp] in *.
  assert (Hw1 : firstn (mpos s1 - 0) h = w1).
  { rewrite Nat.sub_0_r, Hp1, Hh. apply firstn_app_exact. }
  assert (Hw5 : firstn (mpos s5 - mpos m4) (mrest m4) = w5).
  { rewrite Hp5, Hr5. replace (mpos m4 + length w5 - mpos m4) with (length w5)
      by lia. apply firstn_app_exact. }
  assert (Hw3 : w3 = [":"%char]).
  { inversion HF3 as [|? a0 ? l0 H0 HF3']; subst. inversion HF3'; subst.
    unfold cls_match in H0. apply Ascii.eqb_eq in H0. now subst. }
  exists w1, w4, w5. repeat split.
  - rewrite Hh, Hr3, Hr4, Hr5, Hw3. reflexivity.
  - intros ->. simpl in Hl1. lia.
  - now apply one_line_any.
  - intros ->. simpl in Hl4. lia.
  - exact HF4.
  - intros ->. simpl in Hl5. lia.
  - now apply one_line_any.
  - rewrite Hg5, Hg4, Hg3, Hw1, Hw5, Hg1. reflexivity.
  - lia.
  - exact Hend.
Qed.

(** X4. What [parseHeader] accepts: when it returns [(key, value)], the
    string is [key], a colon, one or more whitespace characters, then
    [value]; neither part is empty or holds a newline, and nothing, not
    even a final newline, follows the value. *)
Theorem parseHeader_accepts_only_key_colon_value (h key value : pystr) :
  parseHeader h = Ok (key, value) ->
  exists ws,
    h = key ++ ":"%char :: ws ++ value
    /\ ws <> [] /\ Forall (fun a => is_space a = true) ws
    /\ key <> [] /\ one_line key
    /\ value <> [] /\ one_line value.
Proof.
  unfold parseHeader, Re.split. cbn [split_from].
  fold (search false header_re h).
  assert (Hs : search false header_re h = match_at false header_re false 0 h)
    by apply search_bol.
  rewrite Hs, match_at_hd.
  destruct (matches false header_re (MState 0 h [])) as [|st' l] eqn:E.
  - destruct h; simpl; discriminate.
  - assert (Hin : In st' (matches false header_re (MState 0 h [])))
      by (rewrite E; now left).
    apply matches_spec, header_match_parts in Hin
      as (k & ws & v & Hh & Hk & Hk1 & Hws & Hws1 & Hv & Hv1 & Hg & Hp & Hend).
    cbn [m_start m_end m_after m_groups Nat.sub firstn].
    rewrite search_from_header_pos by exact Hp. unfold groups. rewrite Hg.
    cbn [seq map group Nat.eqb app filter truthy].
    destruct k as [|a1 k]; [congruence|].
    destruct v as [|a2 v]; [congruence|]. cbn [filter truthy].
    destruct (mrest st') as [|c r] eqn:Er; cbn [filter truthy];
      [|discriminate].
    intros [= <- <-]. exists ws. rewrite app_nil_r in Hh.
    repeat split; auto; discriminate.
Qed.

Lemma parseHeader_accepts_witness :
  parseHeader (lit "Host: example.com")
  = Ok (lit "Host", lit "example.com")
  /\ exists ws,
       lit "Host: example.com" = lit "Host" ++ ":"%char :: ws ++ lit "example.com"
       /\ ws <> [] /\ Forall (fun a => is_space a = true) ws
       /\ lit "Host" <> [] /\ one_line (lit "Host")
       /\ lit "example.com" <> [] /\ one_line (lit "example.com").
Proof.
  assert (H : parseHeader (lit "Host: example.com")
              = Ok (lit "Host", lit "example.com")) by reflexivity.
  split; [exact H|].
  exact (@parseHeader_accepts_only_key_colon_value _ _ _ H).
Defined.

(** Where the end after the whole run [w] stands among the ends of a
    greedy repetition: after the longer ones only. *)
Lemma rep_ends_split icase c (w : pystr) :
  Forall (fun a => cls_match icase c a = true) w ->
  forall lo pos rest,
    lo <= length w ->
    exists L1 L2,
      rep_ends icase c lo None pos (w ++ rest)
      = L1 ++ (pos + length w, rest) :: L2
      /\ Forall (fun e => pos + length w < fst e) L1.
Proof.
  induction 1 as [|a w Ha Hw IH]; intros lo pos rest Hlo.
  - simpl in Hlo. assert (lo = 0) by lia. subst lo. simpl.
    rewrite Nat.add_0_r.
    destruct rest as [|b rest]; simpl; [exists [], []; auto|].
    destruct (cls_match icase c b).
    + exists (rep_ends icase c 0 None (S pos) rest), []. split; [reflexivity|].
      apply Forall_forall. intros e He. apply rep_ends_spec in He
        as (w' & _ & _ & _ & _ & He). unfold pystr in *. lia.
    + exists [], []. auto.
  - cbn [app rep_ends can_take andb option_map]. rewrite Ha.
    destruct (IH (pred lo) (S pos) rest) as (L1 & L2 & -> & HL1);
      [simpl in Hlo; lia|].
    exists L1, (L2 ++ (if lo =? 0 then [(pos, a :: w ++ rest)] else [])).
    split.
    + rewrite <- app_assoc. simpl. f_equal. f_equal. f_equal. lia.
    + eapply Forall_impl; [|exact HL1]. simpl. intros e He.
      unfold pystr in *. lia.
Qed.

Lemma flat_map_skip (A B : Type) (f : A -> list B) (L1 L2 : list A) (x : A) :
  (forall e, In e L1 -> f e = []) ->
  flat_map f (L1 ++ x :: L2) = f x ++ flat_map f L2.
Proof.
  intros H. induction L1 as [|e L1 IH]; simpl; [reflexivity|].
  rewrite (H e) by now left. simpl. apply IH. intros e' He'. apply H.
  now right.
Qed.

Lemma matches_seq icase r1 r2 st :
  matches icase (r1 +++ r2) st
  = flat_map (matches icase r2) (matches icase r1 st).
Proof. reflexivity. Qed.

Lemma matches_seq_hd icase r1 r2 st x l y l' :
  matches icase r1 st = x :: l -> matches icase r2 x = y :: l' ->
  exists l'', matches icase (r1 +++ r2) st = y :: l''.
Proof.
  intros H1 H2. simpl. rewrite H1. simpl. rewrite H2. simpl. eauto.
Qed.

(** A colon found in whitespace followed by [v] is a colon of [v]. *)
Lemma colon_not_in_spaces (ws v u t : pystr) :
  Forall (fun a => is_space a = true) ws ->
  ws ++ v = u ++ ":"%char :: t ->
  exists u', u = ws ++ u' /\ v = u' ++ ":"%char :: t.
Proof.
  intros Hws; revert u; induction Hws as [|s ws Hs Hws IH]; intros u H.
  - exists u. auto.
  - destruct u as [|s' u]; simpl in H.
    + injection H as -> _. discriminate Hs.
    + injection H as <- H. destruct (IH _ H) as (u' & -> & ->).
      exists u'. auto.
Qed.

(** The first group of the header pattern cannot run past the key when
    no colon of the value is followed by whitespace. *)
Lemma key_not_longer (k ws v w1 w4 X : pystr) :
  k ++ ":"%char :: ws ++ v = w1 ++ ":"%char :: w4 ++ X ->
  length k < length w1 ->
  Forall (fun a => is_space a = true) ws ->
  w4 <> [] -> Forall (fun a => is_space a = true) w4 ->
  no_colon_space v ->
  False.
Proof.
  intros H Hlen Hws Hw4 Hs4 Hv.
  apply app_eq_app in H as (l & [[-> _]|[-> H]]).
  - rewrite length_app in Hlen. lia.
  - destruct l as [|c l]; [rewrite app_nil_r in Hlen; lia|].
    simpl in H. injection H as <- H.
    apply colon_not_in_spaces in H as (u' & _ & Hv'); [|exact Hws].
    destruct w4 as [|x w4]; [congruence|].
    simpl in Hv'. apply Hv in Hv'. inversion Hs4; subst. congruence.
Qed.

(** A greedy repetition first takes the whole run when what follows
    does not belong to the class. *)
Lemma rep_ends_greedy icase c (w : pystr) :
  Forall (fun a => cls_match icase c a = true) w ->
  forall lo pos rest,
    lo <= length w ->
    (forall a r, rest = a :: r -> cls_match icase c a = false) ->
    exists L2,
      rep_ends icase c lo None pos (w ++ rest) = (pos + length w, rest) :: L2.
Proof.
  induction 1 as [|a w Ha Hw IH]; intros lo pos rest Hlo Hrest.
  - simpl in Hlo. assert (lo = 0) by lia. subst lo. simpl.
    rewrite Nat.add_0_r.
    destruct rest as [|b rest]; simpl; [eauto|].
    rewrite (Hrest b rest eq_refl). eauto.
  - cbn [app rep_ends can_take andb option_map]. rewrite Ha.
    destruct (IH (pred lo) (S pos) rest) as (L2 & ->);
      [simpl in Hlo; lia|exact Hrest|].
    simpl. replace (S (pos + length w)) with (pos + S (length w)) by lia.
    eauto.
Qed.

Lemma one_line_cany (s : pystr) :
  one_line s -> Forall (fun a => cls_match false CAny a = true) s.
Proof.
  intros H. eapply Forall_impl; [|exact H]. simpl. intros a Ha.
  apply Bool.negb_true_iff, Ascii.eqb_neq. exact Ha.
Qed.

(** The header pattern after the key: the colon, the whitespace, the
    value and the end, from a state that stands at the colon. *)
Lemma header_rest_hd (pos : nat) (ws v : pystr) (g : list (nat * pystr)) :
  ws <> [] -> Forall (fun a => is_space a = true) ws ->
  v <> [] -> one_line v -> (forall c v', v = c :: v' -> is_space c = false) ->
  exists l,
    matches false
      (Lit (lit ":") +++ Rep CSpace 1 None +++ Grp 2 (Plus CAny) +++ Eol)
      (MState pos (":"%char :: ws ++ v) g)
    = MState (S pos + length ws + length v) [] ((2, v) :: g) :: l.
Proof.
  intros Hws Hs Hv Hline Hc.
  assert (H1 : matches false (Lit (lit ":")) (MState pos (":"%char :: ws ++ v) g)
               = [MState (S pos) (ws ++ v) g]) by reflexivity.
  rewrite (@matches_seq_one _ _ _ _ _ H1).
  destruct (@rep_ends_greedy false CSpace ws Hs 1 (S pos) v) as (L2 & H2).
  { destruct ws; [congruence|simpl; lia]. }
  { exact Hc. }
  destruct (@rep_ends_greedy false CAny v (one_line_cany Hline) 1
              (S pos + length ws) []) as (L3 & H3).
  { destruct v; [congruence|simpl; lia]. }
  { discriminate. }
  rewrite app_nil_r in H3.
  cbn [matches mpos mrest mgrp Plus]. rewrite H2.
  cbn [map flat_map fst snd mpos mrest mgrp]. rewrite H3.
  cbn [map flat_map fst snd mpos mrest mgrp at_end app].
  replace (S pos + length ws + length v - (S pos + length ws)) with (length v)
    by lia.
  rewrite firstn_all. eauto.
Qed.

(** With a longer first group the rest of the header pattern fails. *)
Lemma header_rest_fails (k ws v w1 rest : pystr) (pos : nat)
    (g : list (nat * pystr)) :
  k ++ ":"%char :: ws ++ v = w1 ++ rest ->
  length k < length w1 ->
  Forall (fun a => is_space a = true) ws ->
  no_colon_space v ->
  matches false
    (Lit (lit ":") +++ Rep CSpace 1 None +++ Grp 2 (Plus CAny) +++ Eol)
    (MState pos rest g) = [].
Proof.
  intros Hh Hlen Hws Hv.
  destruct (matches false _ (MState pos rest g)) as [|st' l] eqn:E;
    [reflexivity|exfalso].
  assert (Hin : In st' (st' :: l)) by now left.
  rewrite <- E in Hin. apply matches_spec in Hin.
  unfold Plus in Hin. cbn [Matches mpos mrest mgrp] in Hin.
  destruct Hin as (m3 & (w3 & Hr3 & HF3 & Hp3 & Hg3)
          & m4 & (w4 & Hr4 & HF4 & Hl4 & _ & Hp4 & Hg4) & _).
  assert (Hw3 : w3 = [":"%char]).
  { inversion HF3 as [|? a0 ? l0 H0 HF3']; subst. inversion HF3'; subst.
    unfold cls_match in H0. apply Ascii.eqb_eq in H0. now subst. }
  subst w3. rewrite Hr3, Hr4 in Hh. simpl in Hh.
  eapply (@key_not_longer k ws v w1 w4 (mrest m4)); eauto.
  intros ->. simpl in Hl4. lia.
Qed.

Lemma header_match_hd (k ws v : pystr) :
  k <> [] -> one_line k ->
  ws <> [] -> Forall (fun a => is_space a = true) ws ->
  v <> [] -> one_line v -> (forall c v', v = c :: v' -> is_space c = false) ->
  no_colon_space v ->
  exists l,
    matches false header_re (MState 0 (k ++ ":"%char :: ws ++ v) [])
    = MState (length (k ++ ":"%char :: ws ++ v)) [] [(2, v); (1, k)] :: l.
Proof.
  intros Hk Hk1 Hws Hs Hv Hv1 Hc Hnc.
  set (h := k ++ ":"%char :: ws ++ v).
  destruct (@rep_ends_split false CAny k (one_line_cany Hk1) 1 0
              (":"%char :: ws ++ v)) as (L1 & L2 & HL & HL1).
  { destruct k; [congruence|simpl; lia]. }
  fold h in HL.
  destruct (@header_rest_hd (length k) ws v [(1, k)] Hws Hs Hv Hv1 Hc)
    as (l & Hl).
  unfold header_re.
  rewrite (@matches_seq_one false Bol _ (MState 0 h []) (MState 0 h []) eq_refl).
  rewrite matches_seq.
  change (matches false (Grp 1 (Plus CAny)) (MState 0 h []))
    with (map (fun st' => MState (mpos st') (mrest st')
                 ((1, firstn (mpos st' - 0) h) :: mgrp st'))
            (map (fun e => MState (fst e) (snd e) [])
               (rep_ends false CAny 1 None 0 h))).
  rewrite HL. rewrite !map_app. cbn [map fst snd mpos mrest mgrp].
  rewrite flat_map_skip.
  - simpl Nat.add. rewrite Nat.sub_0_r. unfold h at 1.
    rewrite firstn_app_exact. eexists.
    etransitivity; [exact (f_equal (fun z => z ++ _) Hl)|].
    simpl. f_equal. f_equal.
    unfold h. rewrite length_app. simpl. rewrite length_app. lia.
  - intros e He. apply in_map_iff in He as (e1 & <- & He).
    apply in_map_iff in He as (e0 & <- & He).
    cbn [mpos mrest mgrp].
    assert (Hlen : 0 + length k < fst e0).
    { rewrite Forall_forall in HL1. now apply HL1. }
    assert (Hin : In e0 (rep_ends false CAny 1 None 0 h)).
    { rewrite HL. apply in_or_app. now left. }
    apply rep_ends_spec in Hin as (w1 & Hh1 & _ & _ & _ & Hp1).
    eapply (@header_rest_fails k ws v w1 (snd e0)); eauto.
    unfold pystr in *. lia.
Qed.

(** X5. Round trip for header strings: a key without a newline, a
    colon, some whitespace and a value without a newline that does not
    start with whitespace is split into that key and that value,
    provided no colon of the value is followed by whitespace (the first
    group is greedy: it would run up to the last such colon). *)
Theorem parseHeader_key_colon_value (k ws v : pystr) :
  k <> [] -> one_line k ->
  ws <> [] -> Forall (fun a => is_space a = true) ws ->
  v <> [] -> one_line v -> (forall c v', v = c :: v' -> is_space c = false) ->
  no_colon_space v ->
  parseHeader (k ++ ":"%char :: ws ++ v) = Ok (k, v).
Proof.
  intros Hk Hk1 Hws Hs Hv Hv1 Hc Hnc.
  destruct (@header_match_hd k ws v Hk Hk1 Hws Hs Hv Hv1 Hc Hnc) as (l & Hm).
  set (h := k ++ ":"%char :: ws ++ v) in *.
  assert (Hlen : length h <> 0).
  { unfold h. rewrite length_app. simpl. lia. }
  unfold parseHeader, Re.split. cbn [split_from].
  fold (search false header_re h).
  assert (Hsr : search false header_re h = match_at false header_re false 0 h)
    by apply search_bol.
  rewrite Hsr, match_at_hd, Hm.
  cbn [m_start m_end m_after m_groups Nat.sub firstn mpos mrest mgrp].
  rewrite search_from_header_pos by exact Hlen. unfold groups.
  cbn [seq map group Nat.eqb app filter truthy].
  destruct k as [|a1 k]; [congruence|].
  destruct v as [|a2 v]; [congruence|]. reflexivity.
Qed.

Lemma parseHeader_key_colon_value_witness :
  parseHeader (lit "Referer" ++ ":"%char :: lit "  " ++ lit "http://a/b")
  = Ok (lit "Referer", lit "http://a/b").
Proof.
  apply parseHeader_key_colon_value.
  - discriminate.
  - repeat constructor; discriminate.
  - discriminate.
  - repeat constructor.
  - discriminate.
  - repeat constructor; discriminate.
  - intros c v' [= <- _]. reflexivity.
  - intros a x c H.
    repeat (destruct a as [|? a]; simpl in H;
            [injection H; intros; subst; try discriminate; try reflexivity|
             injection H as _ H]); try discriminate;
    destruct a; discriminate.
Defined.

(* ================================================================== *)
(** * Further properties: loading the headers *)
(* ================================================================== *)

Lemma pystr_eqb_refl (a : pystr) : pystr_eqb a a = true.
Proof. now apply pystr_eqb_eq. Qed.

Lemma pystr_eqb_neq (a b : pystr) : a <> b -> pystr_eqb a b = false.
Proof.
  intros H. destruct (pystr_eqb a b) eqn:E; [|reflexivity].
  apply pystr_eqb_eq in E. contradiction.
Qed.

Lemma dict_get_set_same (k v : pystr) (d : Headers) :
  dict_get k (dict_set k v d) = Some v.
Proof.
  induction d as [|[k0 v0] d IH]; simpl.
  - now rewrite pystr_eqb_refl.
  - destruct (pystr_eqb k0 k) eqn:E; simpl; rewrite E; auto.
Qed.

Lemma dict_get_set_other (k k' v : pystr) (d : Headers) :
  k' <> k -> dict_get k' (dict_set k v d) = dict_get k' d.
Proof.
  intros Hne. induction d as [|[k0 v0] d IH]; simpl.
  - rewrite pystr_eqb_neq; auto.
  - destruct (pystr_eqb k0 k) eqn:E; simpl.
    + apply pystr_eqb_eq in E as ->. rewrite pystr_eqb_neq; auto.
    + now rewrite IH.
Qed.

(** Assigning to a key the dict has keeps the keys as they are; a new key
    goes last. *)
Lemma dict_set_keys (k v : pystr) (d : Headers) :
  dict_keys (dict_set k v d)
  = if in_dec (list_eq_dec ascii_dec) k (dict_keys d) then dict_keys d
    else dict_keys d ++ [k].
Proof.
  unfold dict_keys. induction d as [|[k0 v0] d IH]; simpl; [reflexivity|].
  destruct (pystr_eqb k0 k) eqn:E; simpl.
  - apply pystr_eqb_eq in E as ->.
    destruct (list_eq_dec ascii_dec k k); [reflexivity|congruence].
  - rewrite IH. destruct (list_eq_dec ascii_dec k0 k) as [->|Hne].
    + now rewrite pystr_eqb_refl in E.
    + destruct (in_dec (list_eq_dec ascii_dec) k (map fst d)); reflexivity.
Qed.

Lemma dict_set_NoDup (k v : pystr) (d : Headers) :
  NoDup (dict_keys d) -> NoDup (dict_keys (dict_set k v d)).
Proof.
  intros H. rewrite dict_set_keys.
  destruct (in_dec (list_eq_dec ascii_dec) k (dict_keys d)) as [Hin|Hin];
    [exact H|].
  apply NoDup_app; [exact H|repeat constructor; intros []|].
  intros x Hx [<-|[]]. contradiction.
Qed.

Lemma foldM_app (A B : Type) (f : B -> A -> result B) (l1 l2 : list A) (b : B) :
  foldM f (l1 ++ l2) b = (b' <- foldM f l1 b ;; foldM f l2 b').
Proof.
  revert b; induction l1 as [|x l1 IH]; intros b; simpl; [reflexivity|].
  destruct (f b x) as [b1|e]; simpl; [apply IH|reflexivity].
Qed.

Lemma header_step_NoDup (headers headers' : Headers) (h : pystr) :
  NoDup (dict_keys headers) ->
  (kv <- parseHeader h ;; Ok (dict_set (fst kv) (snd kv) headers)) = Ok headers' ->
  NoDup (dict_keys headers').
Proof.
  intros Hd. destruct (parseHeader h) as [[k v]|e]; simpl; [|discriminate].
  intros [= <-]. now apply dict_set_NoDup.
Qed.

(** X6. The header dict never holds a key twice, and a header given
    after the others on the command line takes over the value of its key:
    the key keeps the place it had, or goes last when it is new, and the
    values of the other keys stay. *)
Theorem load_headers_unique_keys_last_value_wins
    (fs : pystr -> option pystr) (http_headers : list pystr) (d : Headers) :
  load_headers fs http_headers = Ok d ->
  NoDup (dict_keys d)
  /\ forall h k v,
       fs h = None -> parseHeader h = Ok (k, v) ->
       exists d',
         load_headers fs (http_headers ++ [h]) = Ok d'
         /\ dict_get k d' = Some v
         /\ (forall k', k' <> k -> dict_get k' d' = dict_get k' d)
         /\ (In k (dict_keys d) -> dict_keys d' = dict_keys d)
         /\ (~ In k (dict_keys d) -> dict_keys d' = dict_keys d ++ [k]).
Proof.
  unfold load_headers. intros Hload. split.
  - revert Hload. apply foldM_invariant with (P := fun d => NoDup (dict_keys d));
      [|constructor].
    intros b x b' Hb. destruct (fs x) as [content|].
    + apply foldM_invariant with (P := fun d => NoDup (dict_keys d));
        [|exact Hb].
      intros b0 x0 b0' Hb0. now apply header_step_NoDup.
    + now apply header_step_NoDup.
  - intros h k v Hfs Hp. exists (dict_set k v d).
    rewrite foldM_app, Hload. cbn [bind foldM]. rewrite Hfs, Hp.
    cbn [bind fst snd]. split; [reflexivity|].
    split; [apply dict_get_set_same|].
    split; [intros k' Hk'; now apply dict_get_set_other|].
    rewrite dict_set_keys.
    destruct (in_dec (list_eq_dec ascii_dec) k (dict_keys d)); split;
      intros; auto; contradiction.
Qed.

Lemma load_headers_witness :
  load_headers (fun _ => None) [lit "Host: a"; lit "Accept: b"]
  = Ok [(lit "Host", lit "a"); (lit "Accept", lit "b")]
  /\ NoDup (dict_keys [(lit "Host", lit "a"); (lit "Accept", lit "b")])
  /\ load_headers (fun _ => None) [lit "Host: a"; lit "Accept: b"; lit "Host: c"]
     = Ok [(lit "Host", lit "c"); (lit "Accept", lit "b")].
Proof.
  assert (H : load_headers (fun _ => None) [lit "Host: a"; lit "Accept: b"]
              = Ok [(lit "Host", lit "a"); (lit "Accept", lit "b")])
    by reflexivity.
  split; [exact H|].
  destruct (load_headers_unique_keys_last_value_wins _ _ H) as [Hnd _].
  split; [exact Hnd|reflexivity].
Defined.

(* ================================================================== *)
(** * Further properties: loading the targets *)
(* ================================================================== *)

(** A loop that only appends to its accumulator gives what it appends,
    after what was there. *)
Lemma foldM_appending (A B : Type) (g : A -> result (list B)) (l : list A)
    (acc : list B) :
  foldM (fun acc x => new <- g x ;; Ok (acc ++ new)) l acc
  = (r <- foldM (fun acc x => new <- g x ;; Ok (acc ++ new)) l [] ;;
     Ok (acc ++ r)).
Proof.
  revert acc; induction l as [|x l IH]; intros acc; simpl.
  - now rewrite app_nil_r.
  - destruct (g x) as [new|e]; simpl; [|reflexivity].
    rewrite (IH (acc ++ new)), (IH new).
    destruct (foldM _ l []) as [r|e]; simpl; [|reflexivity].
    now rewrite app_assoc.
Qed.

Lemma load_targets_step (fs : pystr -> option pystr) (args : Args)
    (targets : list pystr) (t : pystr) :
  match fs t with
  | Some content =>
      foldM (fun targets target =>
               new <- parseTarget args (strip target) ;; Ok (targets ++ new))
            (file_lines content) targets
  | None => new <- parseTarget args t ;; Ok (targets ++ new)
  end
  = (new <- load_targets fs args [t] ;; Ok (targets ++ new)).
Proof.
  unfold load_targets. cbn [foldM]. destruct (fs t) as [content|].
  - rewrite foldM_appending.
    destruct (foldM _ (file_lines content) []) as [r|e]; reflexivity.
  - destruct (parseTarget args t) as [new|e]; reflexivity.
Qed.

Lemma foldM_ext (A B : Type) (f g : B -> A -> result B) (l : list A) (b : B) :
  (forall b x, f b x = g b x) -> foldM f l b = foldM g l b.
Proof.
  intros H. revert b; induction l as [|x l IH]; intros b; simpl;
    [reflexivity|].
  rewrite H. destruct (g b x); simpl; auto.
Qed.

Lemma load_targets_from (fs : pystr -> option pystr) (args : Args)
    (ts acc : list pystr) :
  foldM (fun targets t =>
           match fs t with
           | Some content =>
               foldM (fun targets target =>
                        new <- parseTarget args (strip target) ;;
                        Ok (targets ++ new))
                     (file_lines content) targets
           | None => new <- parseTarget args t ;; Ok (targets ++ new)
           end)
        ts acc
  = (r <- load_targets fs args ts ;; Ok (acc ++ r)).
Proof.
  unfold load_targets at 1.
  rewrite !(@foldM_ext _ _ _ _ ts _ (@load_targets_step fs args)).
  apply foldM_appending.
Qed.

(** X7. The targets are gathered in the order given and nothing is
    dropped or merged: loading two lists of names one after the other
    gives the targets of the first followed by those of the second (and
    raises when either does); a name that is no file stands for the
    targets [parseTarget] makes of it; a file stands for its lines,
    stripped, given one by one. *)
Theorem load_targets_concatenates (fs : pystr -> option pystr) (args : Args) :
  (forall ts1 ts2,
     load_targets fs args (ts1 ++ ts2)
     = (a <- load_targets fs args ts1 ;;
        b <- load_targets fs args ts2 ;; Ok (a ++ b)))
  /\ (forall t, fs t = None -> load_targets fs args [t] = parseTarget args t)
  /\ (forall name content,
        fs name = Some content ->
        load_targets fs args [name]
        = load_targets (fun _ => None) args (map strip (file_lines content))).
Proof.
  split; [|split].
  - intros ts1 ts2. unfold load_targets at 1. rewrite foldM_app.
    fold (load_targets fs args ts1).
    destruct (load_targets fs args ts1) as [a|e]; cbn [bind]; [|reflexivity].
    apply load_targets_from.
  - intros t Ht. unfold load_targets. cbn [foldM]. rewrite Ht.
    destruct (parseTarget args t); reflexivity.
  - intros name content Hfs. unfold load_targets. cbn [foldM]. rewrite Hfs.
    match goal with
    | |- (_ <- ?x ;; _) = _ => transitivity x; [now destruct x|]
    end.
    generalize (@nil pystr). induction (file_lines content) as [|l ls IH];
      intros acc; cbn [foldM map]; [reflexivity|].
    destruct (parseTarget args (strip l)); cbn [bind]; auto.
Qed.

Lemma target_line_grows (args : Args) (acc acc' : list pystr) (line : pystr) :
  (new <- parseTarget args (strip line) ;; Ok (acc ++ new)) = Ok acc' ->
  incl acc acc'.
Proof.
  destruct (parseTarget args (strip line)); simpl; [|discriminate].
  intros [= <-]. apply incl_appl, incl_refl.
Qed.

Lemma target_step_grows (fs : pystr -> option pystr) (args : Args)
    (acc acc' : list pystr) (t : pystr) :
  match fs t with
  | Some content =>
      foldM (fun targets target =>
               new <- parseTarget args (strip target) ;; Ok (targets ++ new))
            (file_lines content) acc
  | None => new <- parseTarget args t ;; Ok (acc ++ new)
  end = Ok acc' ->
  incl acc acc'.
Proof.
  destruct (fs t) as [content|].
  - apply (@foldM_grows pystr (list pystr) (@incl pystr) _
             (@incl_refl pystr) (@incl_tran pystr)
             (fun b x b' => @target_line_grows args b b' x)).
  - destruct (parseTarget args t); simpl; [|discriminate].
    intros [= <-]. apply incl_appl, incl_refl.
Qed.

(** What [parseTarget] makes of every line of a target file is among the
    targets. *)
Lemma load_targets_keeps_lines (fs : pystr -> option pystr) (args : Args)
    (ts targets : list pystr) (name content line : pystr) :
  load_targets fs args ts = Ok targets ->
  In name ts -> fs name = Some content -> In line (file_lines content) ->
  exists new, parseTarget args (strip line) = Ok new /\ incl new targets.
Proof.
  unfold load_targets. intros Hload Hname Hfs Hline.
  destruct (@foldM_each pystr (list pystr) (@incl pystr) _
              (@incl_refl pystr) (@incl_tran pystr)
              (fun b x b' => @target_step_grows fs args b b' x)
              ts [] targets name Hload Hname) as (b1 & b2 & Hstep & Hincl).
  rewrite Hfs in Hstep.
  destruct (@foldM_each pystr (list pystr) (@incl pystr) _
              (@incl_refl pystr) (@incl_tran pystr)
              (fun b x b' => @target_line_grows args b b' x)
              (file_lines content) b1 b2 line Hstep Hline)
    as (c1 & c2 & Hl & Hincl2).
  destruct (parseTarget args (strip line)) as [new|e]; simpl in Hl;
    [|discriminate].
  injection Hl as <-. exists new. split; [reflexivity|].
  intros x Hx. apply Hincl, Hincl2, in_or_app. now right.
Qed.

(** X8. A line of white space in a target file is not skipped: stripped
    to the empty string, it is no address and no CIDR block, so it goes
    through the URL assumptions and the bare prefixes [http://] and
    [https://] become targets (the empty string itself when both
    assumptions are off). *)
Theorem blank_target_line_becomes_a_target
    (fs : pystr -> option pystr) (args : Args) (ts targets : list pystr)
    (name content line : pystr) :
  In name ts -> fs name = Some content ->
  In line (file_lines content) -> forallb is_space line = true ->
  load_targets fs args ts = Ok targets ->
  (no_assume_http args = false -> In (lit "http://") targets)
  /\ (no_assume_https args = false -> In (lit "https://") targets)
  /\ (no_assume_http args = true -> no_assume_https args = true ->
      In [] targets).
Proof.
  intros Hname Hfs Hline Hblank Hload.
  destruct (@load_targets_keeps_lines fs args ts targets name content line
              Hload Hname Hfs Hline) as (new & Hnew & Hincl).
  rewrite (@strip_blank line Hblank) in Hnew.
  destruct args as [df pc nahttps nahttp]. simpl.
  destruct nahttps, nahttp; vm_compute in Hnew; injection Hnew as <-;
    repeat split; intros; try discriminate; apply Hincl; simpl; auto.
Qed.

Lemma blank_target_line_witness :
  load_targets
    (fun name => if pystr_eqb name (lit "f")
                 then Some (lit "a.example" ++ [newline] ++ lit "  "
                            ++ [newline])
                 else None)
    (MkArgs false 4 false false) [lit "f"]
  = Ok [lit "http://a.example"; lit "https://a.example";
        lit "http://"; lit "https://"]
  /\ In (lit "http://")
        [lit "http://a.example"; lit "https://a.example";
         lit "http://"; lit "https://"].
Proof.
  set (fs := fun name => if pystr_eqb name (lit "f")
                         then Some (lit "a.example" ++ [newline] ++ lit "  "
                                    ++ [newline])
                         else None).
  assert (H : load_targets fs (MkArgs false 4 false false) [lit "f"]
              = Ok [lit "http://a.example"; lit "https://a.example";
                    lit "http://"; lit "https://"]) by reflexivity.
  split; [exact H|].
  refine (proj1 (@blank_target_line_becomes_a_target fs _ [lit "f"] _
                   (lit "f") _ (lit "  " ++ [newline])
                   (or_introl eq_refl) eq_refl _ eq_refl H) eq_refl).
  simpl. right. left. reflexivity.
Defined.

(* ================================================================== *)
(** * Further properties: targets *)
(* ================================================================== *)

(** X9. [parseTarget] raises in one case only: the string ends like a
    CIDR block (a slash, at most two digits, the end) and
    [ipaddress.IPv4Network] refuses it; the exception is that of the
    library.  Any other string gives a list of targets. *)
Theorem parseTarget_raises_only_in_the_cidr_branch (args : Args) (t : pystr)
    (e : exn) :
  parseTarget args t = Err e <-> cidr_like t /\ IPv4.IPv4Network t = Err e.
Proof.
  unfold parseTarget. rewrite <- is_cidr_spec.
  destruct (is_cidr t).
  - destruct (IPv4.IPv4Network t) as [n|e']; cbn [bind].
    + split; [discriminate|]. intros [_ H]. discriminate H.
    + split; [intros [= ->]; auto|]. intros [_ [= ->]]. reflexivity.
  - split; [|intros [H _]; discriminate H].
    destruct (IPv4.IPv4Address t) as [a|e']; cbn [bind]; [discriminate|].
    destruct (assumeURLTarget args t); discriminate.
Qed.

Lemma startswith_app (p q s : pystr) :
  startswith (p ++ q) s = true -> startswith p s = true.
Proof.
  revert s; induction p as [|c p IH]; intros s; simpl; [reflexivity|].
  destruct s as [|d s]; [discriminate|].
  intros H. apply andb_true_iff in H as [Hc Hs]. rewrite Hc. simpl.
  now apply IH.
Qed.

Lemma not_http_not_https (t : pystr) :
  startswith (lit "http") t = false -> startswith (lit "https") t = false.
Proof.
  intros H. destruct (startswith (lit "https") t) eqn:E; [|reflexivity].
  change (lit "https") with (lit "http" ++ lit "s") in E.
  apply startswith_app in E. congruence.
Qed.

Lemma leading_scheme_not_http (t : pystr) :
  startswith (lit "http") t = false -> leading_scheme t = None.
Proof.
  intros H. unfold leading_scheme. now rewrite (not_http_not_https t H), H.
Qed.

(** X10. A target that is neither an address nor a CIDR block and does
    not start with [http] is prefixed with [http://] and with [https://],
    in that order, each unless its assumption is switched off.  With both
    switched off the string is kept as it is, and is then compatible with
    no proxy: it stays in the target list and is never probed. *)
Theorem parseTarget_of_a_bare_host (args : Args) (t : pystr) :
  startswith (lit "http") t = false ->
  ~ cidr_like t ->
  (forall a, IPv4.IPv4Address t <> Ok a) ->
  parseTarget args t
  = Ok (if no_assume_http args && no_assume_https args then [t]
        else (if no_assume_http args then [] else [lit "http://" ++ t])
             ++ (if no_assume_https args then [] else [lit "https://" ++ t]))
  /\ forall p, compatible (p, t) = false.
Proof.
  intros Hs Hc Ha. split.
  - unfold parseTarget. rewrite (is_cidr_false Hc).
    destruct (IPv4.IPv4Address t) as [a|e]; [now destruct (Ha a)|].
    cbn [bind]. unfold assumeURLTarget.
    rewrite (not_http_not_https t Hs), Hs.
    destruct (no_assume_http args), (no_assume_https args); reflexivity.
  - intros p. unfold compatible. simpl. destruct (p_value p); [|reflexivity].
    apply compareSchemes_none. right. now apply leading_scheme_not_http.
Qed.

Lemma parseTarget_of_a_bare_host_witness :
  parseTarget (MkArgs false 4 true false) (lit "example.com:8080/x")
  = Ok [lit "http://example.com:8080/x"]
  /\ forall p, compatible (p, lit "example.com:8080/x") = false.
Proof.
  apply (@parseTarget_of_a_bare_host (MkArgs false 4 true false)
           (lit "example.com:8080/x")).
  - reflexivity.
  - intros H. apply is_cidr_spec in H. discriminate H.
  - intros a H. discriminate H.
Defined.

(** The decimal form of a byte is read back by [_parse_octet], and holds
    neither a dot nor a slash. *)
Lemma octet_round_trip (n : nat) :
  n < 256 ->
  IPv4.parse_octet (IPv4.str_of_nat n) = Some (Z.of_nat n)
  /\ existsb (Ascii.eqb "."%char) (IPv4.str_of_nat n) = false
  /\ existsb (Ascii.eqb "/"%char) (IPv4.str_of_nat n) = false.
Proof.
  intros Hn.
  assert (Hall : forallb (fun n =>
            match IPv4.parse_octet (IPv4.str_of_nat n) with
            | Some z => (z =? Z.of_nat n)%Z
            | None => false
            end
            && negb (existsb (Ascii.eqb "."%char) (IPv4.str_of_nat n))
            && negb (existsb (Ascii.eqb "/"%char) (IPv4.str_of_nat n)))
            (seq 0 256) = true) by (vm_compute; reflexivity).
  rewrite forallb_forall in Hall.
  specialize (Hall n (proj2 (in_seq 256 0 n) (conj (Nat.le_0_l n) Hn))).
  apply andb_true_iff in Hall as [Hall H3].
  apply andb_true_iff in Hall as [H1 H2].
  apply negb_true_iff in H2, H3.
  destruct (IPv4.parse_octet (IPv4.str_of_nat n)) as [z|]; [|discriminate].
  apply Z.eqb_eq in H1. subst z. auto.
Qed.

Lemma split_on_cons_sep (sep : ascii) (a rest : pystr) :
  existsb (Ascii.eqb sep) a = false ->
  split_on sep (a ++ sep :: rest) = a :: split_on sep rest.
Proof.
  induction a as [|c a IH]; simpl.
  - intros _. now rewrite Ascii.eqb_refl.
  - intros H. apply orb_false_iff in H as [Hc Ha].
    rewrite Ascii.eqb_sym, Hc, (IH Ha). reflexivity.
Qed.

Lemma byte_of_address (a k : Z) :
  (0 <= k)%Z ->
  let b := Z.to_nat (Z.land (Z.shiftr a k) 255) in
  b < 256 /\ Z.of_nat b = ((a / 2 ^ k) mod 256)%Z.
Proof.
  intros Hk b. subst b.
  change 255%Z with (Z.ones 8). rewrite Z.land_ones by lia.
  rewrite Z.shiftr_div_pow2 by lia.
  change (2 ^ 8)%Z with 256%Z.
  pose proof (Z.mod_pos_bound (a / 2 ^ k) 256 ltac:(lia)).
  split; [lia|]. rewrite Z2Nat.id; lia.
Qed.

(** [ipaddress.IPv4Address(str(a)) == a] *)
Lemma IPv4Address_round_trip (a : Z) :
  (0 <= a < 2 ^ 32)%Z ->
  IPv4.IPv4Address (IPv4.str_of_address a) = Ok a
  /\ existsb (Ascii.eqb "/"%char) (IPv4.str_of_address a) = false.
Proof.
  intros Ha. unfold IPv4.str_of_address. cbv beta zeta.
  destruct (@byte_of_address a 24 ltac:(lia)) as [L3 V3].
  destruct (@byte_of_address a 16 ltac:(lia)) as [L2 V2].
  destruct (@byte_of_address a 8 ltac:(lia)) as [L1 V1].
  destruct (@byte_of_address a 0 ltac:(lia)) as [L0 V0].
  destruct (octet_round_trip L3) as (P3 & D3 & S3).
  destruct (octet_round_trip L2) as (P2 & D2 & S2).
  destruct (octet_round_trip L1) as (P1 & D1 & S1).
  destruct (octet_round_trip L0) as (P0 & D0 & S0).
  set (b3 := IPv4.str_of_nat (Z.to_nat (Z.land (Z.shiftr a 24) 255))) in *.
  set (b2 := IPv4.str_of_nat (Z.to_nat (Z.land (Z.shiftr a 16) 255))) in *.
  set (b1 := IPv4.str_of_nat (Z.to_nat (Z.land (Z.shiftr a 8) 255))) in *.
  set (b0 := IPv4.str_of_nat (Z.to_nat (Z.land (Z.shiftr a 0) 255))) in *.
  assert (Hslash : existsb (Ascii.eqb "/"%char)
                     (b3 ++ lit "." ++ b2 ++ lit "." ++ b1 ++ lit "." ++ b0)
                   = false).
  { rewrite !existsb_app, S3, S2, S1, S0. reflexivity. }
  split; [|exact Hslash].
  unfold IPv4.IPv4Address. rewrite Hslash.
  unfold IPv4.ip_int_from_string.
  change (lit ".") with ["."%char]. cbn [app].
  rewrite !split_on_cons_sep by assumption.
  rewrite (@split_on_nosep "."%char b0 D0).
  rewrite P3, P2, P1, P0, V3, V2, V1, V0. f_equal.
  change (2 ^ 24)%Z with (256 * 256 * 256)%Z.
  change (2 ^ 16)%Z with (256 * 256)%Z.
  change (2 ^ 8)%Z with 256%Z. change (2 ^ 0)%Z with 1%Z.
  change (2 ^ 32)%Z with (256 * 256 * 256 * 256)%Z in Ha.
  rewrite <- !Z.div_div by lia. rewrite Z.div_1_r.
  Z.div_mod_to_equations. lia.
Qed.

Lemma no_slash_not_cidr_like (t : pystr) :
  existsb (Ascii.eqb "/"%char) t = false -> ~ cidr_like t.
Proof.
  intros H (pre & d & nl & -> & _).
  rewrite existsb_app in H. apply orb_false_iff in H as [_ H].
  discriminate H.
Qed.

(** X11. A dotted IPv4 address goes through [parseTarget] unchanged: the
    targets of the string form of an address are the [http://] and
    [https://] URLs of that same address. *)
Theorem parseTarget_of_a_dotted_address (args : Args) (a : Z) :
  (0 <= a < 2 ^ 32)%Z ->
  parseTarget args (IPv4.str_of_address a) = Ok (assumeIPTarget args a).
Proof.
  intros Ha. destruct (IPv4Address_round_trip Ha) as [Hr Hs].
  unfold parseTarget.
  rewrite (is_cidr_false (@no_slash_not_cidr_like _ Hs)), Hr.
  reflexivity.
Qed.

Lemma parseTarget_of_a_dotted_address_witness :
  parseTarget (MkArgs false 4 false false) (lit "192.168.1.10")
  = Ok [lit "http://192.168.1.10"; lit "https://192.168.1.10"].
Proof.
  apply (@parseTarget_of_a_dotted_address (MkArgs false 4 false false)
           3232235786%Z).
  lia.
Defined.

(* ================================================================== *)
(** * Further properties: the scheme comparison *)
(* ================================================================== *)

Lemma leading_scheme_some (v : pystr) :
  (exists tok, leading_scheme v = Some tok)
  <-> startswith (lit "http") v = true.
Proof.
  unfold leading_scheme. split.
  - intros (tok & H).
    destruct (startswith (lit "https") v) eqn:E.
    + change (lit "https") with (lit "http" ++ lit "s") in E.
      now apply startswith_app in E.
    + destruct (startswith (lit "http") v); [reflexivity|discriminate].
  - intros H. rewrite H. destruct (startswith (lit "https") v); eauto.
Qed.

(** X12. [compareSchemes] is a partial equivalence: it is symmetric and
    transitive, and a string agrees with itself exactly when it starts
    with [http].  The strings that start with [https], those that start
    with [http] but not [https], and the rest (which agree with nothing)
    are its classes. *)
Theorem compareSchemes_partial_equivalence :
  (forall v0 v1, compareSchemes v0 v1 = compareSchemes v1 v0)
  /\ (forall v0 v1 v2,
        compareSchemes v0 v1 = true -> compareSchemes v1 v2 = true ->
        compareSchemes v0 v2 = true)
  /\ (forall v, compareSchemes v v = true <-> startswith (lit "http") v = true)
  /\ (forall v0 v1,
        compareSchemes v0 v1 = true <->
        startswith (lit "http") v0 = true
        /\ startswith (lit "http") v1 = true
        /\ startswith (lit "https") v0 = startswith (lit "https") v1).
Proof.
  assert (Hsym : forall v0 v1,
             compareSchemes v0 v1 = true -> compareSchemes v1 v0 = true).
  { intros v0 v1 H. apply compareSchemes_spec in H as (tok & H0 & H1).
    apply compareSchemes_spec. eauto. }
  split; [|split; [|split]].
  - intros v0 v1.
    destruct (compareSchemes v0 v1) eqn:E0, (compareSchemes v1 v0) eqn:E1;
      auto.
    + apply Hsym in E0. congruence.
    + apply Hsym in E1. congruence.
  - intros v0 v1 v2 H01 H12.
    apply compareSchemes_spec in H01 as (tok & H0 & H1).
    apply compareSchemes_spec in H12 as (tok' & H1' & H2).
    apply compareSchemes_spec. exists tok. split; [exact H0|]. congruence.
  - intros v. rewrite compareSchemes_spec, <- leading_scheme_some.
    split; intros (tok & H); eauto. now destruct H as [H _]; eauto.
  - intros v0 v1. rewrite compareSchemes_spec. unfold leading_scheme.
    split.
    + intros (tok & H0 & H1).
      destruct (startswith (lit "https") v0) eqn:E0,
               (startswith (lit "https") v1) eqn:E1;
        try (change (lit "https") with (lit "http" ++ lit "s") in E0;
             pose proof (startswith_app _ _ _ E0));
        try (change (lit "https") with (lit "http" ++ lit "s") in E1;
             pose proof (startswith_app _ _ _ E1));
        destruct (startswith (lit "http") v0) eqn:F0,
                 (startswith (lit "http") v1) eqn:F1;
        try discriminate; try congruence; auto.
    + intros (F0 & F1 & E). rewrite F0, F1, E.
      destruct (startswith (lit "https") v1); eauto.
Qed.

(* ================================================================== *)
(** * Further properties: the bookkeeping of the dispatch loop *)
(* ================================================================== *)

Section Bookkeeping.

Variable args : Args.
Variable ready : nat -> nat -> bool.
Variable http : nat -> requests_get.
Variable targets : list pystr.
Variable headers : Headers.

Let step1 := step args ready http targets headers.
Let run1 := run args ready http targets headers.

Lemma booked_step (st : DState) : booked st -> booked (step1 st).
Proof.
  unfold booked, step1, step. intros (Hid & Hin & Hclk).
  destruct (loc st) as [ |p|p t|p t|p t|p t| | |e] eqn:El.
  - destruct (ps st); simpl; auto.
  - destruct (ts st) as [|t ts']; simpl; auto.
    destruct (compareSchemes_of p t) as [[|]|e]; simpl; auto.
  - destruct (full args st); simpl; auto.
  - destruct (scan args ready http headers (clock st) (results st) (stdout st))
      as [[to_del out]|e]; simpl; auto.
    destruct (del_all to_del (results st)) as [rs|] eqn:E; simpl; auto.
    repeat split; auto. eapply del_all_Forall; eauto.
  - destruct (_ <? _)%Z; simpl; auto. repeat split; auto. lia.
  - cbn [submitted results next_id clock]. repeat split.
    + rewrite map_app, Hid, seq_S. reflexivity.
    + apply Forall_app. split.
      * eapply Forall_impl; [|exact Hin]. simpl. intros w Hw.
        apply in_or_app. now left.
      * repeat constructor. apply in_or_app. right. now left.
    + rewrite length_app. simpl. lia.
  - destruct (results st) as [|w rs] eqn:Er; simpl; rewrite ?Er; auto.
    destruct (ready (clock st) (w_id w)); simpl.
    + destruct (report args http headers w (stdout st)); simpl;
        rewrite ?Er; auto.
      rewrite Nat.eqb_refl. simpl. repeat split; auto.
      * now inversion Hin.
      * destruct rs; lia.
    + repeat split; auto. lia.
  - auto.
  - auto.
Qed.

Lemma booked_run (k : nat) (st : DState) : booked st -> booked (run1 k st).
Proof.
  revert st; induction k as [|k IH]; intros st H; simpl; [exact H|].
  apply IH. now apply booked_step.
Qed.

End Bookkeeping.

Lemma booked_init (args : Args) (proxies : list Proxy) :
  booked (init args proxies).
Proof.
  unfold booked, init. destruct (process_count args <? 1)%Z; simpl; auto.
Qed.

(** X13. The bookkeeping of a run, at every step and whatever the probes
    do: the asynchronous results created so far carry the identities
    0, 1, 2, ... in the order of submission, so that no two are the same
    object; every outstanding result is one of them; and each submission
    was followed by a sleep, so that [n] probes take [n] quarter seconds
    at least, however large the pool. *)
Theorem submissions_are_numbered_and_paced
    (args : Args) (ready : nat -> nat -> bool) (http : nat -> requests_get)
    (targets : list pystr) (headers : Headers) (proxies : list Proxy)
    (k : nat) :
  let st := run args ready http targets headers k (init args proxies) in
  map w_id (submitted st) = seq 0 (length (submitted st))
  /\ NoDup (submitted st)
  /\ incl (results st) (submitted st)
  /\ length (submitted st) <= clock st.
Proof.
  intros st.
  destruct (@booked_run args ready http targets headers k _
              (booked_init args proxies)) as (Hid & Hin & Hclk).
  fold st in Hid, Hin, Hclk.
  assert (Hn : next_id st = length (submitted st)).
  { apply (f_equal (@length nat)) in Hid.
    now rewrite length_map, length_seq in Hid. }
  rewrite Hn in Hid. repeat split; auto.
  - apply (NoDup_map_inv w_id). rewrite Hid. apply seq_NoDup.
  - intros w Hw. rewrite Forall_forall in Hin. now apply Hin.
Qed.

(* ================================================================== *)
(** * Further properties: what the dispatch loop prints *)
(* ================================================================== *)

Lemma flat_map_filter_split (A B : Type) (f : A -> list B) (g : A -> bool)
    (l : list A) :
  Permutation (flat_map f (filter g l)
               ++ flat_map f (filter (fun x => negb (g x)) l))
              (flat_map f l).
Proof.
  induction l as [|x l IH]; simpl; [constructor|].
  destruct (g x); simpl.
  - rewrite <- app_assoc. now apply Permutation_app_head.
  - rewrite Permutation_app_swap_app. now apply Permutation_app_head.
Qed.

Lemma numbered_of_ids (l : list WorkItem) (from : nat) :
  map w_id l = seq from (length l) -> l = numbered from (map pair_of l).
Proof.
  revert from; induction l as [|[i p t] l IH]; intros from; simpl;
    [reflexivity|].
  intros [= -> H]. f_equal. now apply IH.
Qed.

Section Reporting.

Variable args : Args.
Variable ready : nat -> nat -> bool.
Variable http : nat -> requests_get.
Variable targets : list pystr.
Variable headers : Headers.

Let step1 := step args ready http targets headers.
Let run1 := run args ready http targets headers.
Let line := line_of args http headers.

(** [printResult(res.get())] prints the line of the probe. *)
Lemma report_line (w : WorkItem) (out : list pystr) :
  flat (w_proxy w) ->
  report args http headers w out = Ok (out ++ line w).
Proof.
  intros (url & Hu).
  unfold report, get_result, printResult, genericRequestsCallback, line,
    line_of.
  rewrite Hu.
  destruct (http (w_id w) (w_target w) (w_proxy w) false false headers)
    as [resp|e]; [destruct (status_code resp =? 403)%Z|];
    cbn [r_proxy r_success r_target]; rewrite Hu;
    destruct (display_failures args); cbn [bind];
    rewrite ?app_nil_r; reflexivity.
Qed.

Lemma scan_lines (now : nat) (rs : list WorkItem) (out : list pystr) :
  Forall (fun w => flat (w_proxy w)) rs ->
  scan args ready http headers now rs out
  = Ok (filter (fun w => ready now (w_id w)) rs,
        out ++ flat_map line (filter (fun w => ready now (w_id w)) rs)).
Proof.
  intros H; revert out; induction H as [|w rs Hw Hrs IH]; intros out; simpl.
  - now rewrite app_nil_r.
  - destruct (ready now (w_id w)); [|apply IH].
    rewrite (@report_line w out Hw). cbn [bind]. rewrite IH. cbn [bind fst snd].
    simpl. now rewrite <- app_assoc.
Qed.

Lemma reported_step (st : DState) :
  live st -> reported args http headers st ->
  reported args http headers (step1 st).
Proof.
  unfold reported. fold line. intros (Hfl & Hps & Hft & Hcur & Hne) Hrep.
  destruct (loc st) as [ |p|p t|p t|p t|p t| | |e] eqn:El.
  - unfold step1, step. rewrite El. destruct (ps st); exact Hrep.
  - assert (Hp : flat p) by now apply Hft.
    unfold step1, step. rewrite El. destruct (ts st) as [|t ts']; [exact Hrep|].
    rewrite (@compareSchemes_of_flat p t Hp).
    destruct (compatible (p, t)); exact Hrep.
  - unfold step1, step. rewrite El. destruct (full args st); exact Hrep.
  - unfold step1, step. rewrite El.
    rewrite (@scan_lines (clock st) (results st) (stdout st) Hfl).
    pose proof (@del_all_picked (ready (clock st)) [] (results st)
                  (Forall_nil _)) as Hd.
    simpl in Hd. rewrite Hd. cbn [stdout results submitted].
    rewrite <- app_assoc.
    etransitivity; [|exact Hrep].
    apply Permutation_app_head.
    apply (flat_map_filter_split line (fun w => ready (clock st) (w_id w))).
  - unfold step1, step. rewrite El. destruct (_ <? _)%Z; exact Hrep.
  - unfold step1, step. rewrite El. cbn [stdout results submitted].
    rewrite !flat_map_app, app_assoc. now apply Permutation_app_tail.
  - unfold step1, step. rewrite El.
    destruct (results st) as [|w rs] eqn:Er; [simpl; now rewrite Er|].
    assert (Hw : flat (w_proxy w)).
    { unfold results_flat in Hfl. rewrite Er in Hfl. now inversion Hfl. }
    destruct (ready (clock st) (w_id w)).
    + rewrite (@report_line w (stdout st) Hw). cbn [bind del_first].
      rewrite Nat.eqb_refl. cbn [stdout results submitted].
      rewrite <- app_assoc. exact Hrep.
    + cbn [stdout results submitted]. exact Hrep.
  - unfold step1, step. rewrite El. exact Hrep.
  - now elim (Hne e).
Qed.

Lemma reported_run (k : nat) (st : DState) :
  live st -> reported args http headers st ->
  reported args http headers (run1 k st).
Proof.
  revert st; induction k as [|k IH]; intros st Hl H; simpl; [exact H|].
  apply IH; [now apply live_step|now apply reported_step].
Qed.

End Reporting.

(** X14. Every probe is reported once.  From well-formed proxies and a
    window of at least one, at every step the lines printed so far
    together with the lines of the outstanding results are, in some
    order, the lines of the probes submitted; and when every probe ends
    at some point the run completes having printed, in some order, one
    line for each compatible pair of the cross product (numbered in loop
    order): [SUCCESS] when its transaction ended with a status other than
    403, [FAILURE] otherwise if failures are displayed. *)
Theorem every_probe_is_reported_once
    (args : Args) (ready : nat -> nat -> bool) (http : nat -> requests_get)
    (targets : list pystr) (headers : Headers) (proxies : list Proxy) :
  (1 <= process_count args)%Z ->
  Forall flat proxies ->
  let at_step k := run args ready http targets headers k (init args proxies) in
  (forall k,
     Permutation
       (stdout (at_step k)
        ++ flat_map (line_of args http headers) (results (at_step k)))
       (flat_map (line_of args http headers) (submitted (at_step k))))
  /\ ((forall i, exists t0, forall t, t0 <= t -> ready t i = true) ->
      exists k,
        loc (at_step k) = Done
        /\ Permutation
             (stdout (at_step k))
             (flat_map (line_of args http headers)
                (numbered 0 (eligible proxies targets)))).
Proof.
  intros HN Hflat at_step.
  assert (Hinit : init args proxies
                  = MkState ForProxy proxies [] [] 0 0 [] []).
  { unfold init. destruct (Z.ltb_spec (process_count args) 1);
      [lia|reflexivity]. }
  assert (Hlive : live (init args proxies)).
  { rewrite Hinit. unfold live, results_flat. simpl.
    repeat split; auto; discriminate. }
  assert (Hrep : forall k, reported args http headers (at_step k)).
  { intros k. apply reported_run; [exact Hlive|].
    rewrite Hinit. unfold reported. simpl. constructor. }
  split; [exact Hrep|].
  intros Hready.
  destruct (@dispatch_ends args ready http targets headers HN Hready
              proxies Hflat) as (k & Hdone & Hres).
  exists k. fold (at_step k) in Hdone, Hres. split; [exact Hdone|].
  specialize (Hrep k). unfold reported in Hrep.
  rewrite Hres in Hrep. simpl in Hrep. rewrite app_nil_r in Hrep.
  assert (Hsound : sound targets (eligible proxies targets) (at_step k)).
  { apply sound_run, sound_init. }
  destruct Hsound as (_ & _ & Hacc). unfold accounted in Hacc.
  rewrite Hdone in Hacc. unfold pending in Hacc. rewrite Hdone in Hacc.
  rewrite app_nil_r in Hacc.
  destruct (@booked_run args ready http targets headers k _
              (booked_init args proxies)) as (Hid & _).
  fold (at_step k) in Hid.
  assert (Hn : next_id (at_step k) = length (submitted (at_step k))).
  { apply (f_equal (@length nat)) in Hid.
    now rewrite length_map, length_seq in Hid. }
  rewrite Hn in Hid. apply numbered_of_ids in Hid. rewrite Hacc in Hid.
  now rewrite <- Hid.
Qed.

Lemma every_probe_is_reported_once_witness :
  Permutation
    (stdout (run (MkArgs true 1 false false) (fun t i => 2 <=? t)
               (fun i _ _ _ _ _ =>
                  Returns (MkResponse (if i =? 0 then 200 else 403) []))
               [lit "http://t1"; lit "https://t2"; lit "http://t3"] []
               20
               (init (MkArgs true 1 false false)
                  [MkProxy (lit "http") (PAddr (lit "http://p"))])))
    [lit "SUCCESS: http://t1 >--[VIA]--> http://p";
     lit "FAILURE: http://t3 >--[VIA]--> http://p"].
Proof.
  pose proof (@every_probe_is_reported_once
                (MkArgs true 1 false false) (fun t i => 2 <=? t)
                (fun i _ _ _ _ _ =>
                   Returns (MkResponse (if i =? 0 then 200 else 403) []))
                [lit "http://t1"; lit "https://t2"; lit "http://t3"] []
                [MkProxy (lit "http") (PAddr (lit "http://p"))]
                ltac:(simpl; lia)
                ltac:(repeat constructor; eexists; reflexivity)) as [H _].
  specialize (H 20). exact H.
Defined.

(* ================================================================== *)
(** * Further properties: when the request phase raises *)
(* ================================================================== *)

Lemma run_Raised args ready http targets headers (k : nat) (st : DState)
    (e : exn) :
  loc st = Raised e -> run args ready http targets headers k st = st.
Proof.
  intros H. induction k as [|k IH]; simpl; [reflexivity|].
  replace (step args ready http targets headers st) with st; [exact IH|].
  unfold step. now rewrite H.
Qed.

(** X15. A process count below one stops the request phase before it
    starts: [Pool] raises, nothing is submitted and nothing is printed.
    With a count of one or more and well-formed proxies no step of the
    request phase raises, whatever the probes do. *)
Theorem request_phase_raises_for_empty_pool_only
    (args : Args) (ready : nat -> nat -> bool) (http : nat -> requests_get)
    (targets : list pystr) (headers : Headers) (proxies : list Proxy) :
  let at_step k := run args ready http targets headers k (init args proxies) in
  ((process_count args < 1)%Z ->
   forall k,
     loc (at_step k)
     = Raised (ValueError (lit "Number of processes must be at least 1"))
     /\ submitted (at_step k) = [] /\ stdout (at_step k) = [])
  /\ ((1 <= process_count args)%Z -> Forall flat proxies ->
      forall k e, loc (at_step k) <> Raised e).
Proof.
  intros at_step. split.
  - intros HN k. subst at_step. cbv beta. unfold init.
    destruct (Z.ltb_spec (process_count args) 1); [|lia].
    set (st0 := raise _ _).
    rewrite (@run_Raised args ready http targets headers k st0 _ eq_refl).
    repeat split.
  - intros HN Hflat k.
    assert (Hlive : live (init args proxies)).
    { unfold init. destruct (Z.ltb_spec (process_count args) 1); [lia|].
      unfold live, results_flat. simpl. repeat split; auto; discriminate. }
    apply (@live_run args ready http targets headers k) in Hlive.
    destruct Hlive as (_ & _ & _ & _ & Hne). exact Hne.
Qed.

Lemma py_in_wrapped (x : Proxy) (l : list Proxy) :
  flat x -> Forall (fun p => ~ flat p) l -> py_in x l = false.
Proof.
  intros (url & Hx) Hl. unfold py_in. induction Hl as [|p l Hp Hl IH];
    simpl; [reflexivity|].
  rewrite IH, orb_false_r. unfold Proxy_eqb. rewrite Hx.
  destruct (p_value p) as [u|k u] eqn:Ep.
  - elim Hp. now exists u.
  - simpl. apply andb_false_r.
Qed.

(** What the literal branch appends for a proxy string. *)
Lemma add_literal_proxy_wrapped (acc acc' : list Proxy) (p : pystr) :
  Forall (fun q => ~ flat q) acc ->
  add_literal_proxy acc p = Ok acc' ->
  exists scheme,
    proxy_shape p scheme
    /\ acc' = acc ++ [MkProxy scheme (PDict scheme p)].
Proof.
  intros Hacc. unfold add_literal_proxy.
  destruct (parseProxy p) as [[scheme address]|e] eqn:E; [|discriminate].
  cbn [bind fst snd p_scheme].
  destruct (parseProxy_cases p) as [Herr|(scheme' & Hshape & Hok)];
    rewrite E in *; [discriminate|].
  injection Hok as <- <-.
  rewrite py_in_wrapped; [|eexists; reflexivity|exact Hacc].
  intros [= <-]. eauto.
Qed.

Lemma load_literal_proxies (fs : pystr -> option pystr) (urls : list pystr) :
  (forall u, In u urls -> fs u = None) ->
  forall acc proxies,
    Forall (fun q => ~ flat q) acc ->
    foldM (fun proxies p =>
             match fs p with
             | Some content => foldM add_file_proxy (file_lines content) proxies
             | None => add_literal_proxy proxies p
             end) urls acc = Ok proxies ->
    exists news,
      proxies = acc ++ news
      /\ Forall2 (fun u q => exists scheme,
                    proxy_shape u scheme
                    /\ q = MkProxy scheme (PDict scheme u)) urls news.
Proof.
  induction urls as [|u urls IH]; intros Hfs acc proxies Hacc; cbn [foldM].
  - intros [= <-]. exists []. rewrite app_nil_r. split; constructor.
  - rewrite (Hfs u (or_introl eq_refl)).
    destruct (add_literal_proxy acc u) as [acc'|e] eqn:E; cbn [bind];
      [|discriminate].
    destruct (@add_literal_proxy_wrapped acc acc' u Hacc E)
      as (scheme & Hshape & ->).
    intros H. apply IH in H as (news & -> & HF).
    + exists (MkProxy scheme (PDict scheme u) :: news).
      rewrite <- app_assoc. split; [reflexivity|].
      constructor; eauto.
    + intros u' Hu'. apply Hfs. now right.
    + apply Forall_app. split; [exact Hacc|]. repeat constructor.
      intros (url & Hurl). discriminate Hurl.
Qed.

(** X16. When no proxy comes from a file, every proxy string given is
    kept, wrapped twice ([{scheme: {scheme: url}}]), none is dropped as a
    duplicate, and the request phase cannot use any of them: with a
    target to probe it raises [TypeError] at the first comparison of
    schemes, before anything is submitted or printed. *)
Theorem literal_proxies_stop_the_request_phase
    (fs : pystr -> option pystr) (proxy_urls : list pystr)
    (proxies : list Proxy) :
  (forall u, In u proxy_urls -> fs u = None) ->
  load_proxies fs proxy_urls = Ok proxies ->
  Forall2 (fun u q => exists scheme,
             proxy_shape u scheme /\ q = MkProxy scheme (PDict scheme u))
          proxy_urls proxies
  /\ forall args ready http targets headers k,
       (1 <= process_count args)%Z ->
       proxy_urls <> [] -> targets <> [] -> 2 <= k ->
       let st := run args ready http targets headers k (init args proxies) in
       loc st = Raised (TypeError (lit "expected string or bytes-like object"))
       /\ submitted st = [] /\ stdout st = [].
Proof.
  intros Hfs Hload. unfold load_proxies in Hload.
  destruct (@load_literal_proxies fs proxy_urls Hfs [] proxies
              (Forall_nil _) Hload) as (news & -> & HF).
  simpl. split; [exact HF|].
  intros args ready http targets headers k HN Hu Ht Hk.
  destruct HF as [|u q urls' news' (scheme & _ & ->) _]; [congruence|].
  destruct targets as [|t targets']; [congruence|].
  destruct k as [|[|k]]; [lia|lia|].
  unfold init. destruct (Z.ltb_spec (process_count args) 1); [lia|].
  cbn [run].
  set (st2 := step _ _ _ _ _ (step _ _ _ _ _ _)).
  rewrite (@run_Raised args ready http (t :: targets') headers k st2
             (TypeError (lit "expected string or bytes-like object")) eq_refl).
  repeat split.
Qed.

Lemma literal_proxies_witness :
  Forall2 (fun u q => exists scheme,
             proxy_shape u scheme /\ q = MkProxy scheme (PDict scheme u))
          [lit "http://p:8080"; lit "http://p:8080"]
          [MkProxy (lit "http") (PDict (lit "http") (lit "http://p:8080"));
           MkProxy (lit "http") (PDict (lit "http") (lit "http://p:8080"))].
Proof.
  apply (@literal_proxies_stop_the_request_phase (fun _ => None)
           [lit "http://p:8080"; lit "http://p:8080"]).
  - reflexivity.
  - reflexivity.
Defined.

(* ================================================================== *)
(** * From the proxy list to the submissions *)
(* ================================================================== *)

Lemma eligible_In (proxies : list Proxy) (targets : list pystr)
    (p : Proxy) (t : pystr) :
  In (p, t) (eligible proxies targets)
  <-> In p proxies /\ In t targets /\ compatible (p, t) = true.
Proof.
  unfold eligible. rewrite filter_In, in_prod_iff. tauto.
Qed.

(** Whatever was submitted is an eligible pair. *)
Lemma submitted_are_eligible args ready http targets headers
    (proxies : list Proxy) (k : nat) (w : WorkItem) :
  In w (submitted (run args ready http targets headers k (init args proxies)))
  -> In (pair_of w) (eligible proxies targets).
Proof.
  intros Hw.
  assert (Hsound : sound targets (eligible proxies targets)
                     (run args ready http targets headers k
                        (init args proxies))).
  { apply sound_run, sound_init. }
  apply sound_prefix in Hsound as (rest & <-).
  apply in_or_app. left. now apply in_map.
Qed.

(** From well-formed proxies the run ends with every eligible pair
    submitted. *)
Lemma dispatch_submits_eligible args ready http targets headers
    (proxies : list Proxy) :
  (1 <= process_count args)%Z ->
  Forall flat proxies ->
  (forall i, exists t0, forall t, t0 <= t -> ready t i = true) ->
  exists k,
    loc (run args ready http targets headers k (init args proxies)) = Done
    /\ map pair_of
         (submitted (run args ready http targets headers k (init args proxies)))
       = eligible proxies targets.
Proof.
  intros HN Hflat Hready.
  destruct (@dispatch_ends args ready http targets headers HN Hready
              proxies Hflat) as (k & Hdone & Hres).
  exists k. split; [exact Hdone|].
  assert (Hsound : sound targets (eligible proxies targets)
                     (run args ready http targets headers k
                        (init args proxies))).
  { apply sound_run, sound_init. }
  destruct Hsound as (_ & _ & Hacc). unfold accounted in Hacc.
  rewrite Hdone in Hacc. unfold pending in Hacc. rewrite Hdone in Hacc.
  now rewrite app_nil_r in Hacc.
Qed.

(** From well-formed proxies and a window of at least one, no step
    raises. *)
Lemma flat_proxies_never_raise args ready http targets headers
    (proxies : list Proxy) (k : nat) (e : exn) :
  (1 <= process_count args)%Z ->
  Forall flat proxies ->
  loc (run args ready http targets headers k (init args proxies)) <> Raised e.
Proof.
  intros HN Hflat.
  assert (Hlive : live (init args proxies)).
  { unfold init. destruct (Z.ltb_spec (process_count args) 1); [lia|].
    unfold live, results_flat. simpl. repeat split; auto; discriminate. }
  apply (@live_run args ready http targets headers k) in Hlive.
  destruct Hlive as (_ & _ & _ & _ & Hne). apply Hne.
Qed.

(** A proxy list that begins with a wrapped proxy stops the request
    phase at the first comparison of schemes. *)
Lemma wrapped_head_raises args ready http targets headers
    (scheme key url : pystr) (more : list Proxy) (k : nat) :
  (1 <= process_count args)%Z -> targets <> [] ->
  let st := run args ready http targets headers k
              (init args (MkProxy scheme (PDict key url) :: more)) in
  submitted st = [] /\ stdout st = [] /\ loc st <> Done
  /\ (2 <= k ->
      loc st = Raised (TypeError (lit "expected string or bytes-like object"))).
Proof.
  intros HN Ht. destruct targets as [|t targets']; [congruence|].
  unfold init. destruct (Z.ltb_spec (process_count args) 1); [lia|].
  destruct k as [|[|k]]; cbn [run].
  - repeat split; try discriminate. lia.
  - repeat split; try discriminate. lia.
  - set (st2 := step _ _ _ _ _ (step _ _ _ _ _ _)).
    rewrite (@run_Raised args ready http (t :: targets') headers k st2
               (TypeError (lit "expected string or bytes-like object"))
               eq_refl).
    repeat split; discriminate.
Qed.

Lemma proxy_shape_scheme (s scheme scheme' : pystr) :
  proxy_shape s scheme -> proxy_shape s scheme' -> scheme = scheme'.
Proof.
  intros (c & rest & Hs & Hl & Hc) (c' & rest' & Hs' & Hl' & Hc').
  pose proof (@parseProxy_accepts scheme rest c Hl Hc) as H.
  pose proof (@parseProxy_accepts scheme' rest' c' Hl' Hc') as H'.
  rewrite <- Hs in H. rewrite <- Hs' in H'. congruence.
Qed.

Lemma Forall2_In_l (A B : Type) (R : A -> B -> Prop) (l : list A)
    (l' : list B) (x : A) :
  Forall2 R l l' -> In x l -> exists y, In y l' /\ R x y.
Proof.
  induction 1 as [|a b l l' Hab HF IH]; intros Hin; [destruct Hin|].
  destruct Hin as [->|Hin].
  - exists b. split; [now left|exact Hab].
  - destruct (IH Hin) as (y & Hy & HR). exists y. split; [now right|exact HR].
Qed.

(** C9 (amended). A proxy string whose scheme is [http] or [https] in a
    letter case that is not all lowercase is accepted by [parseProxy],
    which returns the scheme as written.  When one of the four letters of
    [http] is uppercase, [compareSchemes] on the address is false against
    every target; when only the final [s] is uppercase, [compareSchemes]
    reads the address as [http] and is true exactly against the targets
    whose leading scheme is [http].

    Read from a proxy file (every proxy name being a file), the proxy is
    kept in the proxy list, and with a window of at least one no step of
    the request phase raises.  In the first case no probe is ever
    submitted for it: it is accepted at load time and silently left out
    of every dispatch.  In the second case it is only ever submitted with
    targets whose leading scheme is [http], and when every probe ends the
    run completes having submitted it with each of those targets.

    Given on the command line (no proxy name being a file), it is kept
    wrapped like every command-line proxy, and with a target to probe the
    request phase raises [TypeError] before anything is submitted. *)
Theorem mixed_case_proxy_accepted_then_excluded_or_http
    (pre rest : pystr) (c : ascii) :
  map to_lower pre = lit "http" \/ map to_lower pre = lit "https" ->
  pre <> map to_lower pre ->
  c <> newline ->
  let s := pre ++ lit "://" ++ c :: rest in
  let proxy := MkProxy pre (PAddr s) in
  parseProxy s = Ok (pre, s)
  /\ (firstn 4 pre <> lit "http" -> forall t, compareSchemes s t = false)
  /\ (firstn 4 pre = lit "http" ->
      forall t, compareSchemes s t = true <->
                leading_scheme t = Some (lit "http"))
  /\ (forall fs proxy_urls proxies name content line
             args ready http targets headers,
        (forall p, In p proxy_urls -> fs p <> None) ->
        load_proxies fs proxy_urls = Ok proxies ->
        In name proxy_urls -> fs name = Some content ->
        In line (file_lines content) -> strip line = s ->
        (1 <= process_count args)%Z ->
        let at_step k :=
          run args ready http targets headers k (init args proxies) in
        In proxy proxies
        /\ (forall k e, loc (at_step k) <> Raised e)
        /\ (firstn 4 pre <> lit "http" ->
            forall k w, In w (submitted (at_step k)) -> w_proxy w <> proxy)
        /\ (firstn 4 pre = lit "http" ->
            (forall k w,
               In w (submitted (at_step k)) -> w_proxy w = proxy ->
               leading_scheme (w_target w) = Some (lit "http"))
            /\ ((forall i, exists t0, forall t, t0 <= t -> ready t i = true) ->
                exists k,
                  loc (at_step k) = Done
                  /\ forall t,
                       In t targets ->
                       leading_scheme t = Some (lit "http") ->
                       exists w, In w (submitted (at_step k))
                                 /\ pair_of w = (proxy, t))))
  /\ (forall fs proxy_urls proxies args ready http targets headers k,
        (forall u, In u proxy_urls -> fs u = None) ->
        In s proxy_urls ->
        load_proxies fs proxy_urls = Ok proxies ->
        (1 <= process_count args)%Z -> targets <> [] -> 2 <= k ->
        let st := run args ready http targets headers k (init args proxies) in
        In (MkProxy pre (PDict pre s)) proxies
        /\ loc st
           = Raised (TypeError (lit "expected string or bytes-like object"))
        /\ submitted st = []).
Proof.
  intros Hpre Hne Hc s proxy.
  destruct (@mixed_case_proxy_string pre rest c Hpre Hne Hc)
    as (Hparse & Hfalse & Hhttp).
  fold s in Hparse, Hfalse, Hhttp.
  assert (Hshape : proxy_shape s pre) by (exists c, rest; auto).
  split; [exact Hparse|]. split; [exact Hfalse|]. split; [exact Hhttp|].
  split.
  - intros fs proxy_urls proxies name content line args ready http targets
      headers Hfiles Hload Hname Hfs Hline Hstrip HN at_step.
    destruct (@load_proxies_from_files fs proxy_urls proxies Hfiles Hload)
      as [_ Hflat].
    destruct (@load_proxies_keeps_lines fs proxy_urls proxies name content
                line Hload Hname Hfs Hline) as (scheme & Hsh & Hin).
    rewrite Hstrip in Hsh, Hin.
    rewrite (@proxy_shape_scheme s scheme pre Hsh Hshape) in Hin.
    split; [exact Hin|].
    split; [intros k e; now apply flat_proxies_never_raise|].
    split.
    + intros H4 k w Hw Heq.
      apply submitted_are_eligible in Hw.
      destruct w as [i p t]. unfold pair_of in Hw. simpl in Hw, Heq.
      subst p. apply eligible_In in Hw as (_ & _ & Hcomp).
      unfold compatible in Hcomp. simpl in Hcomp.
      rewrite (Hfalse H4 t) in Hcomp. discriminate.
    + intros H4. split.
      * intros k w Hw Heq.
        apply submitted_are_eligible in Hw.
        destruct w as [i p t]. unfold pair_of in Hw. simpl in Hw, Heq.
        subst p. apply eligible_In in Hw as (_ & _ & Hcomp).
        unfold compatible in Hcomp. simpl in Hcomp. simpl.
        now apply (Hhttp H4 t).
      * intros Hready.
        destruct (@dispatch_submits_eligible args ready http targets headers
                    proxies HN Hflat Hready) as (k & Hdone & Hall).
        exists k. split; [exact Hdone|].
        intros t Ht Hlead.
        assert (He : In (proxy, t) (eligible proxies targets)).
        { apply eligible_In. repeat split; auto.
          unfold compatible. simpl. now apply (Hhttp H4 t). }
        fold (at_step k) in Hall. rewrite <- Hall in He.
        apply in_map_iff in He as (w & Hw & Hin'). eauto.
  - intros fs proxy_urls proxies args ready http targets headers k
      Hlit Hs Hload HN Ht Hk st.
    unfold load_proxies in Hload.
    destruct (@load_literal_proxies fs proxy_urls Hlit [] proxies
                (Forall_nil _) Hload) as (news & -> & HF).
    simpl in *.
    destruct (@Forall2_In_l _ _ _ _ _ s HF Hs)
      as (q & Hq & scheme & Hsh & ->).
    rewrite (@proxy_shape_scheme s scheme pre Hsh Hshape) in Hq.
    split; [exact Hq|].
    destruct HF as [|u q0 urls' news' (sch0 & _ & ->) _]; [destruct Hs|].
    destruct (@wrapped_head_raises args ready http targets headers
                sch0 sch0 u news' k HN Ht) as (Hsub & _ & _ & Hraised).
    fold st in Hsub, Hraised. split; [now apply Hraised|exact Hsub].
Qed.

(** [HTTP://p] in a proxy file, next to a well-formed proxy. *)
Lemma mixed_case_proxy_witness :
  ((map to_lower (lit "HTTP") = lit "http"
    \/ map to_lower (lit "HTTP") = lit "https")
   /\ lit "HTTP" <> map to_lower (lit "HTTP")
   /\ "p"%char <> newline)
  /\ parseProxy (lit "HTTP://p") = Ok (lit "HTTP", lit "HTTP://p")
  /\ (forall t, compareSchemes (lit "HTTP://p") t = false)
  /\ load_proxies
       (fun name => if pystr_eqb name (lit "f")
                    then Some (lit "HTTP://p" ++ [newline]
                               ++ lit "http://q" ++ [newline])
                    else None)
       [lit "f"]
     = Ok [MkProxy (lit "HTTP") (PAddr (lit "HTTP://p"));
           MkProxy (lit "http") (PAddr (lit "http://q"))]
  /\ (forall args ready http targets headers k w,
        (1 <= process_count args)%Z ->
        In w (submitted
                (run args ready http targets headers k
                   (init args
                      [MkProxy (lit "HTTP") (PAddr (lit "HTTP://p"));
                       MkProxy (lit "http") (PAddr (lit "http://q"))]))) ->
        w_proxy w <> MkProxy (lit "HTTP") (PAddr (lit "HTTP://p"))).
Proof.
  assert (H1 : map to_lower (lit "HTTP") = lit "http"
               \/ map to_lower (lit "HTTP") = lit "https")
    by (left; reflexivity).
  assert (H2 : lit "HTTP" <> map to_lower (lit "HTTP")) by discriminate.
  assert (H3 : "p"%char <> newline) by discriminate.
  destruct (@mixed_case_proxy_accepted_then_excluded_or_http
              (lit "HTTP") [] "p"%char H1 H2 H3)
    as (Hparse & Hfalse & _ & Hfile & _).
  assert (H4 : firstn 4 (lit "HTTP") <> lit "http") by discriminate.
  split; [auto|]. split; [exact Hparse|]. split; [exact (Hfalse H4)|].
  split; [reflexivity|].
  intros args ready http targets headers k w HN.
  set (fs := fun name => if pystr_eqb name (lit "f")
                         then Some (lit "HTTP://p" ++ [newline]
                                    ++ lit "http://q" ++ [newline])
                         else None).
  destruct (Hfile fs [lit "f"]
              [MkProxy (lit "HTTP") (PAddr (lit "HTTP://p"));
               MkProxy (lit "http") (PAddr (lit "http://q"))]
              (lit "f")
              (lit "HTTP://p" ++ [newline] ++ lit "http://q" ++ [newline])
              (lit "HTTP://p" ++ [newline])
              args ready http targets headers) as (_ & _ & Hnever & _).
  - intros p [<-|[]]. discriminate.
  - reflexivity.
  - now left.
  - reflexivity.
  - now left.
  - reflexivity.
  - exact HN.
  - exact (Hnever H4 k w).
Defined.

(* ================================================================== *)
(** * A compatible pair that is never submitted *)
(* ================================================================== *)

(** C8: where the code departs from it.  With [--proxy-urls http://a f],
    where the file [f] holds [http://b], and the target [http://t], both
    proxies have the scheme of the target, so two pairs are compatible.
    The proxy of the command line is loaded wrapped in a second dict;
    the request phase hands that dict to [compareSchemes] at its
    first comparison and [re.search] raises: at no step is anything
    submitted, neither for [http://a] nor for [http://b], whose pair is
    eligible even when wrapped proxies are left out of the count, and the
    run never completes.  With the same two proxies both read from a file
    the run completes, when every probe ends, with one submission for
    each of the two pairs. *)
Theorem command_line_proxy_blocks_compatible_pairs
    (args : Args) (ready : nat -> nat -> bool) (http : nat -> requests_get)
    (headers : Headers) :
  let fs := fun name =>
    if pystr_eqb name (lit "f") then Some (lit "http://b" ++ [newline])
    else if pystr_eqb name (lit "g")
    then Some (lit "http://a" ++ [newline] ++ lit "http://b" ++ [newline])
    else None in
  let a := MkProxy (lit "http") (PDict (lit "http") (lit "http://a")) in
  let a' := MkProxy (lit "http") (PAddr (lit "http://a")) in
  let b := MkProxy (lit "http") (PAddr (lit "http://b")) in
  let t := lit "http://t" in
  load_proxies fs [lit "http://a"; lit "f"] = Ok [a; b]
  /\ load_targets fs args [t] = Ok [t]
  /\ compatible_pairs [a; b] [t] = [(a, t); (b, t)]
  /\ eligible [a; b] [t] = [(b, t)]
  /\ ((1 <= process_count args)%Z ->
      forall k,
        let st := run args ready http [t] headers k (init args [a; b]) in
        submitted st = []
        /\ loc st <> Done
        /\ (2 <= k ->
            loc st
            = Raised (TypeError (lit "expected string or bytes-like object"))))
  /\ load_proxies fs [lit "g"] = Ok [a'; b]
  /\ ((1 <= process_count args)%Z ->
      (forall i, exists t0, forall t, t0 <= t -> ready t i = true) ->
      exists k,
        loc (run args ready http [t] headers k (init args [a'; b])) = Done
        /\ map pair_of
             (submitted (run args ready http [t] headers k (init args [a'; b])))
           = [(a', t); (b, t)]).
Proof.
  intros fs a a' b t.
  split; [reflexivity|]. split.
  - assert (Hp : parseTarget args t = Ok [t]).
    { apply parseTarget_http_literal; [reflexivity|].
      intros H. apply is_cidr_spec in H. discriminate H. }
    unfold load_targets. cbn [foldM].
    change (fs t) with (@None pystr). now rewrite Hp.
  - split; [reflexivity|]. split; [reflexivity|]. split.
    + intros HN k st.
      destruct (@wrapped_head_raises args ready http [t] headers
                  (lit "http") (lit "http") (lit "http://a") [b] k HN
                  ltac:(discriminate)) as (Hsub & _ & Hnd & Hraised).
      fold a in Hsub, Hnd, Hraised. fold st in Hsub, Hnd, Hraised.
      auto.
    + split; [reflexivity|].
      intros HN Hready.
      destruct (@dispatch_submits_eligible args ready http [t] headers
                  [a'; b] HN
                  ltac:(repeat constructor; eexists; reflexivity) Hready)
        as (k & Hdone & Hall).
      exists k. split; [exact Hdone|]. rewrite Hall. reflexivity.
Qed.
